(** * diamond_poc: the clipping / stitching / alignment core

    A shallow embedding of [src/ClipPlane.js], [src/Utils.js] and, of
    [src/App.jsx], the alignment part, [handleModelLoaded] and the
    pointer handler of [GLBModel], with the properties of the
    specification stated and settled against it, and further properties
    of the code after them.

    Numbers.  The geometric code ([ClipPlane]) only adds, multiplies,
    divides and compares coordinates, so it is embedded over exact
    rationals [Q] and stays executable.  The angle code ([Utils], the
    effects of [App]) needs [atan2], [sin] and [cos] and is embedded over
    the reals [R], and so is what takes a square root ([normalize],
    [distanceTo] in the pointer handler).  IEEE rounding is not modelled
    in these: their equalities hold in the code up to rounding.  Whether
    a rounded operation returns a point or [null] can differ from the
    exact one, so [getContourPlaneIntersection] is also given over any
    arithmetic ([getContourPlaneIntersectionWith]), and [Doubles] has
    the two three.js calls it makes on binary64 floats. *)

From Stdlib Require Import String.
From Stdlib Require Import List Arith Bool Lia Permutation.
From Stdlib Require Import QArith Qfield Qreals Reals Psatz.
From Stdlib Require Floats.PrimFloat.
Import ListNotations.

Close Scope R_scope.
Close Scope Q_scope.

(** ** JavaScript values that can be [undefined], and thrown errors *)

Module JS.

(** The outcome of running a piece of JavaScript: a value, or a thrown
    [TypeError] (reading a property of [undefined]). *)
Inductive result (A : Type) : Type :=
| Ok (a : A)
| TypeError (msg : string).
Arguments Ok {A} a.
Arguments TypeError {A} msg.

Definition bind {A B} (r : result A) (k : A -> result B) : result B :=
  match r with
  | Ok a => k a
  | TypeError m => TypeError m
  end.

Definition isOk {A} (r : result A) : bool :=
  match r with Ok _ => true | TypeError _ => false end.

(** [a[i] = v] for an index inside the array. *)
Fixpoint assign {A} (l : list A) (i : nat) (v : A) : list A :=
  match l, i with
  | [], _ => []
  | _ :: t, O => v :: t
  | h :: t, S i' => h :: assign t i' v
  end.

End JS.

Notation "x <- r ;; k" := (JS.bind r (fun x => k))
  (at level 61, r at next level, right associativity).

(** ** The parts of three.js the code calls *)

Module THREE.

Record Vector3 (A : Type) : Type := mkVector3 { x : A; y : A; z : A }.
Arguments mkVector3 {A} x y z.
Arguments x {A} v.
Arguments y {A} v.
Arguments z {A} v.

Local Open Scope Q_scope.

Definition Qltb (a b : Q) : bool := negb (Qle_bool b a).

(** [Vector3.dot] *)
Definition dot (a b : Vector3 Q) : Q :=
  x a * x b + y a * y b + z a * z b.

(** [Vector3.subVectors(a, b)] *)
Definition sub (a b : Vector3 Q) : Vector3 Q :=
  mkVector3 (x a - x b) (y a - y b) (z a - z b).

(** [v.clone().addScaledVector(d, s)] *)
Definition addScaledVector (v d : Vector3 Q) (s : Q) : Vector3 Q :=
  mkVector3 (x v + x d * s) (y v + y d * s) (z v + z d * s).

(** [Vector3.distanceToSquared] *)
Definition distanceToSquared (a b : Vector3 Q) : Q :=
  let dx := x a - x b in
  let dy := y a - y b in
  let dz := z a - z b in
  dx * dx + dy * dy + dz * dz.

(** [a.distanceTo(b) < t].  [distanceTo] is the square root of
    [distanceToSquared]; for a non-negative [d] the test [sqrt d < t] is
    the test [0 < t /\ d < t * t], which stays inside [Q]
    (see [distanceToLt_sqrt]). *)
Definition distanceToLt (a b : Vector3 Q) (t : Q) : bool :=
  Qltb 0 t && Qltb (distanceToSquared a b) (t * t).

Record Line3 : Type := mkLine3 { start : Vector3 Q; end_ : Vector3 Q }.

(** [Line3.delta] *)
Definition delta (l : Line3) : Vector3 Q := sub (end_ l) (start l).

Record Plane : Type := mkPlane { normal : Vector3 Q; constant : Q }.

(** [Plane.setFromNormalAndCoplanarPoint] *)
Definition setFromNormalAndCoplanarPoint (n p : Vector3 Q) : Plane :=
  mkPlane n (- dot p n).

(** [Plane.distanceToPoint] *)
Definition distanceToPoint (p : Plane) (v : Vector3 Q) : Q :=
  dot (normal p) v + constant p.

(** [Plane.intersectLine]: [None] is the [null] three.js returns.
    With exact division [t] is in [[0, 1]] whenever the ends of the line
    are on opposite sides of the plane or on it; on doubles a rounded
    [t] can fall just outside ([Doubles.intersectLine]). *)
Definition intersectLine (p : Plane) (l : Line3) : option (Vector3 Q) :=
  let direction := delta l in
  let denominator := dot (normal p) direction in
  if Qeq_bool denominator 0 then
    if Qeq_bool (distanceToPoint p (start l)) 0 then Some (start l) else None
  else
    let t := - (dot (start l) (normal p) + constant p) / denominator in
    if Qltb t 0 || Qltb 1 t then None
    else Some (addScaledVector (start l) direction t).

Record Box3 : Type := mkBox3 { min : Vector3 Q; max : Vector3 Q }.

(** [Box3.intersectsPlane], which [Plane.intersectsBox] calls. *)
Definition intersectsBox (p : Plane) (b : Box3) : bool :=
  let n := normal p in
  let lo (c : Vector3 Q -> Q) :=
    if Qltb 0 (c n) then c n * c (min b) else c n * c (max b) in
  let hi (c : Vector3 Q -> Q) :=
    if Qltb 0 (c n) then c n * c (max b) else c n * c (min b) in
  Qle_bool (lo x + lo y + lo z) (- constant p)
  && Qle_bool (- constant p) (hi x + hi y + hi z).

Record Triangle : Type := mkTriangle
  { a : Vector3 Q; b : Vector3 Q; c : Vector3 Q }.

(** [Vector3.crossVectors(a, b)] *)
Definition crossVectors (a b : Vector3 Q) : Vector3 Q :=
  mkVector3 (y a * z b - z a * y b) (z a * x b - x a * z b)
    (x a * y b - y a * x b).

(** [Vector3.lengthSq] *)
Definition lengthSq (v : Vector3 Q) : Q := x v * x v + y v * y v + z v * z v.

(** [Vector3.multiplyScalar] *)
Definition multiplyScalar (v : Vector3 Q) (s : Q) : Vector3 Q :=
  mkVector3 (x v * s) (y v * s) (z v * s).

(** [Vector3.addVectors(a, b)] *)
Definition addVectors (a b : Vector3 Q) : Vector3 Q :=
  mkVector3 (x a + x b) (y a + y b) (z a + z b).

(** [Vector3.divideScalar]: three.js multiplies by [1 / s]. *)
Definition divideScalar (v : Vector3 Q) (s : Q) : Vector3 Q :=
  multiplyScalar v (1 / s).

(** [Vector3.negate] *)
Definition negate (v : Vector3 Q) : Vector3 Q :=
  mkVector3 (- x v) (- y v) (- z v).

(** [Box3.containsPoint] *)
Definition containsPoint (box : Box3) (v : Vector3 Q) : bool :=
  Qle_bool (x (min box)) (x v) && Qle_bool (x v) (x (max box))
  && Qle_bool (y (min box)) (y v) && Qle_bool (y v) (y (max box))
  && Qle_bool (z (min box)) (z v) && Qle_bool (z v) (z (max box)).

(** [Box3.isEmpty] *)
Definition isEmpty (box : Box3) : bool :=
  Qltb (x (max box)) (x (min box)) || Qltb (y (max box)) (y (min box))
  || Qltb (z (max box)) (z (min box)).

(** [Box3.getSize] *)
Definition getSize (box : Box3) : Vector3 Q :=
  if isEmpty box then mkVector3 0 0 0 else sub (max box) (min box).

(** [Box3.getCenter] *)
Definition getCenter (box : Box3) : Vector3 Q :=
  if isEmpty box then mkVector3 0 0 0
  else multiplyScalar (addVectors (min box) (max box)) (1 # 2).

Local Close Scope Q_scope.
Local Open Scope R_scope.

(** The coordinates of a rational point as reals. *)
Definition toReal (v : Vector3 Q) : Vector3 R :=
  mkVector3 (Q2R (x v)) (Q2R (y v)) (Q2R (z v)).

Record Quaternion : Type := mkQuaternion { qx : R; qy : R; qz : R; qw : R }.

(** [Quaternion.setFromAxisAngle] *)
Definition setFromAxisAngle (axis : Vector3 R) (angle : R) : Quaternion :=
  let halfAngle := angle / 2 in
  let s := sin halfAngle in
  mkQuaternion (x axis * s) (y axis * s) (z axis * s) (cos halfAngle).

(** [Vector3.applyQuaternion] *)
Definition applyQuaternion (v : Vector3 R) (q : Quaternion) : Vector3 R :=
  let tx := 2 * (qy q * z v - qz q * y v) in
  let ty := 2 * (qz q * x v - qx q * z v) in
  let tz := 2 * (qx q * y v - qy q * x v) in
  mkVector3
    (x v + qw q * tx + qy q * tz - qz q * ty)
    (y v + qw q * ty + qz q * tx - qx q * tz)
    (z v + qw q * tz + qx q * ty - qy q * tx).

(** [Vector3.applyAxisAngle] *)
Definition applyAxisAngle (v axis : Vector3 R) (angle : R) : Vector3 R :=
  applyQuaternion v (setFromAxisAngle axis angle).

(** [Vector3.length] *)
Definition length (v : Vector3 R) : R :=
  sqrt (x v * x v + y v * y v + z v * z v).

(** [Vector3.normalize]: [this.divideScalar(this.length() || 1)]. *)
Definition normalize (v : Vector3 R) : Vector3 R :=
  let l := length v in
  let d := if Req_dec_T l 0 then 1 else l in
  mkVector3 (x v * (1 / d)) (y v * (1 / d)) (z v * (1 / d)).

(** [Vector3.dot] on real coordinates. *)
Definition dotR (a b : Vector3 R) : R :=
  x a * x b + y a * y b + z a * z b.

(** [Vector3.add], [multiplyScalar], [negate] and [distanceTo] on real
    coordinates. *)
Definition addR (a b : Vector3 R) : Vector3 R :=
  mkVector3 (x a + x b) (y a + y b) (z a + z b).

Definition multiplyScalarR (v : Vector3 R) (s : R) : Vector3 R :=
  mkVector3 (x v * s) (y v * s) (z v * s).

Definition negateR (v : Vector3 R) : Vector3 R :=
  mkVector3 (- x v) (- y v) (- z v).

Definition distanceToR (a b : Vector3 R) : R :=
  sqrt ((x a - x b) * (x a - x b) + (y a - y b) * (y a - y b)
        + (z a - z b) * (z a - z b)).

(** One entry of the array returned by [Raycaster.intersectObject]. *)
Record Intersection : Type := mkIntersection
  { distance : R; point : Vector3 R }.

End THREE.

(** ** three-mesh-bvh: the bounds tree and its [shapecast] *)

Module MeshBVH.

Inductive Node : Type :=
| Leaf (bounds : THREE.Box3) (tris : list THREE.Triangle)
| Inner (bounds : THREE.Box3) (left right : Node).

Definition bounds (n : Node) : THREE.Box3 :=
  match n with Leaf b _ => b | Inner b _ _ => b end.

(** [shapecast({ intersectsBounds, intersectsTriangle })] with callbacks
    that never stop the traversal early: the root is entered, a child is
    entered when [intersectsBounds] accepts its box, and in a leaf every
    triangle is handed to [intersectsTriangle], left subtree first. *)
Fixpoint shapecast {S : Type} (intersectsBounds : THREE.Box3 -> bool)
    (intersectsTriangle : S -> THREE.Triangle -> S) (n : Node) (s : S) : S :=
  match n with
  | Leaf _ tris => fold_left intersectsTriangle tris s
  | Inner _ l r =>
      let s1 :=
        if intersectsBounds (bounds l)
        then shapecast intersectsBounds intersectsTriangle l s else s in
      if intersectsBounds (bounds r)
      then shapecast intersectsBounds intersectsTriangle r s1 else s1
  end.

End MeshBVH.

(** ** [src/ClipPlane.js] *)

Module ClipPlane.

(** *** [stitchSegments], for any type of points

    The algorithm only compares points through its helper [samePoint];
    it is embedded once for an arbitrary point type and test, and
    instantiated below with [Vector3] and the distance tolerance. *)

Section StitchSegments.

Context {Point : Type}.

(** The helper [samePoint(a, b)] of [stitchSegments]. *)
Variable samePoint : Point -> Point -> bool.

Record Segment : Type := mkSegment { start : Point; end_ : Point }.

(** [samePoint(polyline[k], b)], where [polyline[k]] may be [undefined]
    (this never happens: the polyline always has two points or more). *)
Definition samePointAt (p : option Point) (b : Point) : bool :=
  match p with
  | Some a => samePoint a b
  | None => false
  end.

(** The four tests of the scan, in the order of the code, and the
    polyline they produce: what [tryConnect] does to the polyline when
    segment [s] is not used yet. *)
Definition connect (polyline : list Point) (s : Segment)
    : option (list Point) :=
  if samePointAt (nth_error polyline (length polyline - 1)) (start s)
  then Some (polyline ++ [end_ s])
  else if samePointAt (nth_error polyline (length polyline - 1)) (end_ s)
  then Some (polyline ++ [start s])
  else if samePointAt (nth_error polyline 0) (end_ s)
  then Some (start s :: polyline)
  else if samePointAt (nth_error polyline 0) (start s)
  then Some (end_ s :: polyline)
  else None.

(** The number of segments not used yet. *)
Definition unusedCount (used : list bool) : nat :=
  length (filter negb used).

(** The body of the scan [for (let j = 0; ...)]: the state is
    [(polyline, used, extended)]. *)
Definition tryConnect (segments : list Segment)
    (st : list Point * list bool * bool) (j : nat)
    : list Point * list bool * bool :=
  let '(polyline, used, extended) := st in
  if nth j used false then st
  else
    match nth_error segments j with
    | None => st
    | Some s =>
        if samePointAt (nth_error polyline (length polyline - 1)) (start s)
        then (polyline ++ [end_ s], JS.assign used j true, true)
        else if samePointAt (nth_error polyline (length polyline - 1)) (end_ s)
        then (polyline ++ [start s], JS.assign used j true, true)
        else if samePointAt (nth_error polyline 0) (end_ s)
        then (start s :: polyline, JS.assign used j true, true)
        else if samePointAt (nth_error polyline 0) (start s)
        then (end_ s :: polyline, JS.assign used j true, true)
        else st
    end.

(** One pass of the scan, entered with [extended = false]. *)
Definition scan (segments : list Segment) (polyline : list Point)
    (used : list bool) : list Point * list bool * bool :=
  fold_left (tryConnect segments) (seq 0 (length segments))
    (polyline, used, false).

(** [while (extended) { ... }]: [fuel] bounds the number of passes;
    [None] means the bound was reached. *)
Fixpoint extendLoop (fuel : nat) (segments : list Segment)
    (polyline : list Point) (used : list bool)
    : option (list Point * list bool) :=
  match fuel with
  | O => None
  | S fuel' =>
      let '(polyline', used', extended) := scan segments polyline used in
      if extended then extendLoop fuel' segments polyline' used'
      else Some (polyline', used')
  end.

(** The body of the outer loop [for (let i = 0; ...)]: the state is
    [(stitched, used)]. *)
Definition seedPolyline (fuel : nat) (segments : list Segment)
    (acc : option (list (list Point) * list bool)) (i : nat)
    : option (list (list Point) * list bool) :=
  match acc with
  | None => None
  | Some (stitched, used) =>
      if nth i used false then acc
      else
        match nth_error segments i with
        | None => acc
        | Some s =>
            match extendLoop fuel segments [start s; end_ s]
                    (JS.assign used i true) with
            | None => None
            | Some (polyline, used') => Some (stitched ++ [polyline], used')
            end
        end
  end.

Definition stitchLoop (fuel : nat) (segments : list Segment)
    : option (list (list Point) * list bool) :=
  fold_left (seedPolyline fuel segments) (seq 0 (length segments))
    (Some ([], repeat false (length segments))).

Definition stitchFuel (fuel : nat) (segments : list Segment)
    : option (list (list Point)) :=
  option_map fst (stitchLoop fuel segments).

(** [stitchSegments]: every [while] loop gets [length segments + 1]
    passes, which is always enough ([stitchFuel_enough]). *)
Definition stitchWith (segments : list Segment) : list (list Point) :=
  match stitchFuel (S (length segments)) segments with
  | Some stitched => stitched
  | None => []
  end.

(** *** Notions used to state the properties of [stitchSegments] *)

(** No segment that is not used yet connects to the polyline. *)
Definition NoMatch (segments : list Segment) (polyline : list Point)
    (used : list bool) : Prop :=
  forall j s, nth j used false = false -> nth_error segments j = Some s ->
              connect polyline s = None.

(** The polyline was built from the segments with indices [owned]: it has
    one point more than it has segments, and each of its points is an
    endpoint of one of them. *)
Definition Owns (segments : list Segment) (polyline : list Point)
    (owned : list nat) : Prop :=
  length polyline = S (length owned)
  /\ forall p, In p polyline ->
       exists j s, In j owned /\ nth_error segments j = Some s
                   /\ (p = start s \/ p = end_ s).

(** The number of consecutive point pairs of a polyline. *)
Definition pairCount (polyline : list Point) : nat := length polyline - 1.

(** Two polylines are the same up to reversal. *)
Definition sameUpToReversal (p q : list Point) : Prop :=
  p = q \/ p = rev q.

(** Two lists of polylines hold the same polylines up to reversal. *)
Definition samePolylines (ps qs : list (list Point)) : Prop :=
  (forall p, In p ps -> exists q, In q qs /\ sameUpToReversal p q)
  /\ (forall q, In q qs -> exists p, In p ps /\ sameUpToReversal p q).

(** [u] is followed by [v] in the chain. *)
Definition adjacent (chain : list Point) (u v : Point) : Prop :=
  exists l1 l2, chain = l1 ++ u :: v :: l2.

(** The segment taken in the other direction. *)
Definition flip (s : Segment) : Segment := mkSegment (end_ s) (start s).

(** A ring written as a closed polyline: its points, then the first one
    again. *)
Definition closeRing (ring : list Point) : list Point :=
  ring ++ firstn 1 ring.

(** [P] lists the points of [ring] in the same cyclic order, from another
    start. *)
Definition rotation (ring P : list Point) : Prop :=
  exists l1 l2, ring = l1 ++ l2 /\ P = l2 ++ l1.

(** The polyline is the chain, in one direction or the other. *)
Definition chainOutline (chain polyline : list Point) : Prop :=
  polyline = chain \/ polyline = rev chain.

(** The polyline is the ring, closed, from one of its points and in one
    direction or the other. *)
Definition ringOutline (ring polyline : list Point) : Prop :=
  exists P, (rotation ring P \/ rotation (rev ring) P)
            /\ polyline = closeRing P.

(** Two polylines are the same up to reversal and, when they are closed
    rings, up to the point they start from. *)
Definition sameShape (p q : list Point) : Prop :=
  sameUpToReversal p q
  \/ exists ring, ringOutline ring p /\ ringOutline ring q.

Definition sameShapes (ps qs : list (list Point)) : Prop :=
  (forall p, In p ps -> exists q, In q qs /\ sameShape p q)
  /\ (forall q, In q qs -> exists p, In p ps /\ sameShape p q).

(** The segments are the edges of disjoint simple open chains and simple
    closed rings: the points of the chains and rings are pairwise
    distinct, two of them coincide for [samePoint] only when they are
    equal, every segment joins two consecutive points of a chain or of a
    closed ring, and two consecutive points are joined by a segment,
    which is there once and in one direction. *)
Definition Components (chains rings : list (list Point))
    (segments : list Segment) : Prop :=
  NoDup (concat (chains ++ rings))
  /\ (forall c, In c chains -> 2 <= length c)
  /\ (forall r, In r rings -> 3 <= length r)
  /\ (forall a b, In a (concat (chains ++ rings)) ->
        In b (concat (chains ++ rings)) ->
        (samePoint a b = true <-> a = b))
  /\ (forall s, In s segments ->
        exists c, In c (chains ++ map closeRing rings)
                  /\ (adjacent c (start s) (end_ s)
                      \/ adjacent c (end_ s) (start s)))
  /\ (forall c u v, In c (chains ++ map closeRing rings) -> adjacent c u v ->
        exists s, In s segments
                  /\ ((start s = u /\ end_ s = v)
                      \/ (start s = v /\ end_ s = u)))
  /\ NoDup segments
  /\ (forall s, In s segments -> ~ In (flip s) segments).

(** *** Invariants of the loops of [stitchSegments] *)

(** Between two polylines: every finished polyline owns its segments, no
    segment is owned twice, and the owned segments are the used ones. *)
Definition Conserved (segments : list Segment) (done : list (list Point))
    (used : list bool) : Prop :=
  exists owners : list (list nat),
    Forall2 (Owns segments) done owners
    /\ NoDup (concat owners)
    /\ forall j, In j (concat owners)
                 <-> j < length segments /\ nth j used false = true.

(** The same while a polyline grows. *)
Definition Conserving (segments : list Segment) (done : list (list Point))
    (polyline : list Point) (used : list bool) : Prop :=
  exists (owners : list (list nat)) (js : list nat),
    Forall2 (Owns segments) done owners
    /\ Owns segments polyline js
    /\ NoDup (js ++ concat owners)
    /\ forall j, In j (js ++ concat owners)
                 <-> j < length segments /\ nth j used false = true.

(** The polylines are the chains, each in one direction or the other, and
    the rings, each closed, from one of its points and in one direction
    or the other. *)
Definition Outlines (chains rings : list (list Point))
    (polylines : list (list Point)) : Prop :=
  (forall D, In D polylines ->
     (exists c, In c chains /\ chainOutline c D)
     \/ (exists r, In r rings /\ ringOutline r D))
  /\ (forall c, In c chains ->
        exists D, In D polylines /\ chainOutline c D)
  /\ (forall r, In r rings ->
        exists D, In D polylines /\ ringOutline r D).

(** [a] and [b] are the two endpoints of [s]. *)
Definition ends (s : Segment) (a b : Point) : Prop :=
  (a = start s /\ b = end_ s) \/ (a = end_ s /\ b = start s).

(** [u] is the last point of the list and [v] its first. *)
Definition wraps (l : list Point) (u v : Point) : Prop :=
  (exists l', l = l' ++ [u]) /\ (exists l', l = v :: l').

(** [u] is followed by [v] in the cycle. *)
Definition cyc (l : list Point) (u v : Point) : Prop :=
  adjacent l u v \/ wraps l u v.

(** A chain, in one direction or the other. *)
Definition ChainLine (chains : list (list Point)) (P : list Point) : Prop :=
  In P chains \/ In (rev P) chains.

(** A ring, from one of its points and in one direction or the other. *)
Definition RingLine (rings : list (list Point)) (P : list Point) : Prop :=
  exists r, In r rings /\ (rotation r P \/ rotation (rev r) P).

Definition Line (chains rings : list (list Point)) (P : list Point) : Prop :=
  ChainLine chains P \/ RingLine rings P.

(** [u] is followed by [v] on the line. *)
Definition LineEdge (rings : list (list Point)) (P : list Point)
    (u v : Point) : Prop :=
  adjacent P u v \/ (RingLine rings P /\ wraps P u v).

(** The segment joins two consecutive points of the polyline. *)
Definition edgeOf (L : list Point) (s : Segment) : Prop :=
  adjacent L (start s) (end_ s) \/ adjacent L (end_ s) (start s).

(** The used segments are those that join two consecutive points of one
    of the polylines. *)
Definition Joined (segments : list Segment) (pls : list (list Point))
    (used : list bool) : Prop :=
  forall j s, nth_error segments j = Some s ->
    (nth j used false = true <-> exists L, In L pls /\ edgeOf L s).

(** A finished polyline: a whole chain, or a whole ring, closed. *)
Definition Complete (chains rings : list (list Point)) (D : list Point)
    : Prop :=
  ChainLine chains D \/ exists P, RingLine rings P /\ D = closeRing P.

(** No finished polyline has a point of the line. *)
Definition Apart (done : list (list Point)) (P : list Point) : Prop :=
  forall D y, In D done -> In y P -> ~ In y D.

(** While a polyline grows and is still open: it is a stretch of a chain,
    or the beginning of a ring line; the finished polylines are apart. *)
Definition Open (chains rings : list (list Point)) (segments : list Segment)
    (done : list (list Point)) (polyline : list Point) (used : list bool)
    : Prop :=
  2 <= length polyline
  /\ (exists P pre post,
        P = pre ++ polyline ++ post
        /\ (ChainLine chains P \/ (RingLine rings P /\ pre = []))
        /\ Apart done P)
  /\ (forall D, In D done -> Complete chains rings D)
  /\ Joined segments (polyline :: done) used.

(** The polyline has gone round its ring. *)
Definition Closed (chains rings : list (list Point)) (segments : list Segment)
    (done : list (list Point)) (polyline : list Point) (used : list bool)
    : Prop :=
  (exists P, RingLine rings P /\ polyline = closeRing P /\ Apart done P)
  /\ (forall D, In D done -> Complete chains rings D)
  /\ Joined segments (polyline :: done) used.

(** While a polyline grows on chains and rings. *)
Definition Inside (chains rings : list (list Point)) (segments : list Segment)
    (done : list (list Point)) (polyline : list Point) (used : list bool)
    : Prop :=
  Open chains rings segments done polyline used
  \/ Closed chains rings segments done polyline used.

(** Between two polylines on chains and rings. *)
Definition Finished (chains rings : list (list Point))
    (segments : list Segment) (done : list (list Point)) (used : list bool)
    : Prop :=
  (forall D, In D done -> Complete chains rings D)
  /\ Joined segments done used.

(** *** Further notions on the polylines of [stitchSegments] *)

(** [u] is the point [a] or coincides with it for [samePoint]. *)
Definition touches (u a : Point) : Prop := u = a \/ samePoint u a = true.

(** The consecutive points [u], [v] of a polyline come from the segment:
    one of them is an end of the segment, the other is the other end or
    coincides with it. *)
Definition joinedBy (s : Segment) (u v : Point) : Prop :=
  exists a b,
    ends s a b /\ ((touches u a /\ v = b) \/ (u = a /\ touches v b)).

(** Every pair of consecutive points comes from a segment. *)
Definition Traced (segments : list Segment) (polylines : list (list Point))
    : Prop :=
  forall D u v, In D polylines -> adjacent D u v ->
    exists s, In s segments /\ joinedBy s u v.

(** [e] is the first or the last point of the polyline. *)
Definition endOf (polyline : list Point) (e : Point) : Prop :=
  nth_error polyline 0 = Some e
  \/ nth_error polyline (length polyline - 1) = Some e.

(** No end of a polyline coincides with a point of a polyline that comes
    later in the list. *)
Definition Unjoinable (polylines : list (list Point)) : Prop :=
  forall i k D D' e p,
    i < k -> nth_error polylines i = Some D ->
    nth_error polylines k = Some D' ->
    endOf D e -> In p D' -> samePoint e p = false.

(** No end of a finished polyline coincides with a point of the polyline
    that is growing. *)
Definition Clear (done : list (list Point)) (polyline : list Point) : Prop :=
  forall D e p, In D done -> endOf D e -> In p polyline ->
    samePoint e p = false.

End StitchSegments.

Arguments Segment Point : clear implicits.
Arguments mkSegment {Point} start end_.

(** *** [stitchSegments] on [Vector3] *)

Definition Point3 : Type := THREE.Vector3 Q.

(** [samePoint(a, b)]: [a.distanceTo(b) < tolerance]. *)
Definition samePoint (tolerance : Q) (a b : Point3) : bool :=
  THREE.distanceToLt a b tolerance.

(** The default value [1e-6] of the parameter [tolerance], as the exact
    fraction; the double the code compares with is the nearest binary64
    value, which is a little below it.  The properties of
    [stitchSegments] are stated for every tolerance. *)
Definition defaultTolerance : Q := 1 # 1000000.

Definition stitchSegments (segments : list (Segment Point3)) (tolerance : Q)
    : list (list Point3) :=
  stitchWith (samePoint tolerance) segments.

(** *** [getContourPlaneIntersection] *)

(** The body of [for (let i = 0; i < contourPoints.length - 1; i++)]. *)
Definition crossEdge (contourPoints : list Point3) (secondPlane : THREE.Plane)
    (intersections : list Point3) (i : nat) : list Point3 :=
  match nth_error contourPoints i, nth_error contourPoints (i + 1) with
  | Some start, Some end_ =>
      let distStart := THREE.distanceToPoint secondPlane start in
      let distEnd := THREE.distanceToPoint secondPlane end_ in
      if (Qle_bool 0 distStart && Qle_bool distEnd 0)
         || (Qle_bool distStart 0 && Qle_bool 0 distEnd)
      then
        match THREE.intersectLine secondPlane (THREE.mkLine3 start end_) with
        | Some p => intersections ++ [p]
        | None => intersections
        end
      else intersections
  | _, _ => intersections
  end.

(** [contourPoints] is [None] when the caller passes [undefined]; reading
    [contourPoints.length] then throws. *)
Definition getContourPlaneIntersection (contourPoints : option (list Point3))
    (secondPlane : THREE.Plane) : JS.result (list Point3) :=
  match contourPoints with
  | None =>
      JS.TypeError "Cannot read properties of undefined (reading 'length')"%string
  | Some pts =>
      JS.Ok (fold_left (crossEdge pts secondPlane)
               (seq 0 (length pts - 1)) [])
  end.

(** *** [getContourPlaneIntersection] over any arithmetic

    The same loop with the two calls into three.js left open:
    [distanceToPoint] and [intersectLine] are any functions on any kind
    of points and numbers, the exact ones of [THREE] or the rounded ones
    of [Doubles], and [nonNegative], [nonPositive] are the tests
    [d >= 0] and [d <= 0]. *)
Section AnyArithmetic.

Context {Point Plane Number : Type}.
Variable nonNegative : Number -> bool.
Variable nonPositive : Number -> bool.
Variable distanceToPoint : Plane -> Point -> Number.
(** [secondPlane.intersectLine(line, tempPoint)] after
    [line.set(start, end)] *)
Variable intersectLine : Plane -> Point -> Point -> option Point.

Definition crossEdgeWith (contourPoints : list Point) (secondPlane : Plane)
    (intersections : list Point) (i : nat) : list Point :=
  match nth_error contourPoints i, nth_error contourPoints (i + 1) with
  | Some start, Some end_ =>
      let distStart := distanceToPoint secondPlane start in
      let distEnd := distanceToPoint secondPlane end_ in
      if (nonNegative distStart && nonPositive distEnd)
         || (nonPositive distStart && nonNegative distEnd)
      then
        match intersectLine secondPlane start end_ with
        | Some p => intersections ++ [p]
        | None => intersections
        end
      else intersections
  | _, _ => intersections
  end.

Definition getContourPlaneIntersectionWith
    (contourPoints : option (list Point)) (secondPlane : Plane)
    : JS.result (list Point) :=
  match contourPoints with
  | None =>
      JS.TypeError "Cannot read properties of undefined (reading 'length')"%string
  | Some pts =>
      JS.Ok (fold_left (crossEdgeWith pts secondPlane)
               (seq 0 (length pts - 1)) [])
  end.

(** The description of the specification (4.4): the signed distances of
    the two endpoints differ in sign, a zero distance included. *)
Definition signsDiffer (plane : Plane) (s e : Point) : bool :=
  let ds := distanceToPoint plane s in
  let de := distanceToPoint plane e in
  (nonNegative ds && nonPositive de) || (nonPositive ds && nonNegative de).

(** The consecutive point pairs of a polyline, in traversal order. *)
Definition consecutive (pts : list Point) : list (Point * Point) :=
  combine pts (tl pts).

(** The description of the specification (4.4), with its proviso: one
    point for each consecutive pair whose signed distances differ in
    sign and whose crossing point exists, in traversal order, nothing
    removed. *)
Definition emitted (plane : Plane) (pts : list Point) : list Point :=
  flat_map
    (fun edge =>
       if signsDiffer plane (fst edge) (snd edge)
       then
         match intersectLine plane (fst edge) (snd edge) with
         | Some p => [p]
         | None => []
         end
       else [])
    (consecutive pts).

End AnyArithmetic.

(** The exact arithmetic of [getContourPlaneIntersection] above. *)
Definition exactNonNegative (d : Q) : bool := Qle_bool 0 d.
Definition exactNonPositive (d : Q) : bool := Qle_bool d 0.
Definition exactIntersectLine (plane : THREE.Plane) (s e : Point3)
    : option Point3 :=
  THREE.intersectLine plane (THREE.mkLine3 s e).

(** The description of the specification (4.4) in exact arithmetic: an
    edge straddles the plane when the signed distances of its endpoints
    differ in sign, a zero distance included. *)
Definition straddles (plane : THREE.Plane) (s e : Point3) : bool :=
  let ds := THREE.distanceToPoint plane s in
  let de := THREE.distanceToPoint plane e in
  (Qle_bool 0 ds && Qle_bool de 0) || (Qle_bool ds 0 && Qle_bool 0 de).

(** The point where the line through [s] and [e] meets the plane
    ([s] itself when the line lies in the plane), in exact arithmetic. *)
Definition crossingPoint (plane : THREE.Plane) (s e : Point3) : Point3 :=
  let direction := THREE.sub e s in
  let denominator := THREE.dot (THREE.normal plane) direction in
  if Qeq_bool denominator 0 then s
  else
    THREE.addScaledVector s direction
      (- (THREE.dot s (THREE.normal plane) + THREE.constant plane)
       / denominator).

(** The consecutive point pairs of a polyline, in traversal order. *)
Definition edges (pts : list Point3) : list (Point3 * Point3) :=
  combine pts (tl pts).

(** In exact arithmetic every straddling edge has its crossing point:
    one point per straddling edge, in traversal order, nothing removed. *)
Definition crossings (plane : THREE.Plane) (pts : list Point3) : list Point3 :=
  flat_map
    (fun edge =>
       if straddles plane (fst edge) (snd edge)
       then [crossingPoint plane (fst edge) (snd edge)]
       else [])
    (edges pts).

(** *** [getIntersectionContour] *)

(** A mesh: its bounds tree over the triangles in local space, and its
    world matrix through the two ways the code uses it. *)
Record Mesh : Type := mkMesh
  { boundsTree : MeshBVH.Node;
    (** [v.applyMatrix4(mesh.matrixWorld)] *)
    toWorld : Point3 -> Point3;
    (** [plane.applyMatrix4(mesh.matrixWorld.clone().invert())] *)
    toLocal : THREE.Plane -> THREE.Plane }.

(** The three edge tests of [intersectsTriangle]:
    the points pushed to [points]. *)
Definition edgePoints (localPlane : THREE.Plane) (tri : THREE.Triangle)
    : list Point3 :=
  fold_left
    (fun points edge =>
       match THREE.intersectLine localPlane
               (THREE.mkLine3 (fst edge) (snd edge)) with
       | Some p => points ++ [p]
       | None => points
       end)
    [(THREE.a tri, THREE.b tri); (THREE.b tri, THREE.c tri);
     (THREE.c tri, THREE.a tri)]
    [].

(** The tolerance [1e-5] of the deduplication. *)
Definition dedupTolerance : Q := 1 # 100000.

(** [if (points.length === 3) { ... splice ... }] *)
Definition deduplicate (points : list Point3) : list Point3 :=
  match points with
  | [p0; p1; p2] =>
      if THREE.distanceToLt p0 p1 dedupTolerance then [p0; p2]
      else if THREE.distanceToLt p1 p2 dedupTolerance then [p0; p1]
      else [p1; p2]
  | _ => points
  end.

(** [if (points.length === 2) contourSegments.push(...)] *)
Definition storeSegment (mesh : Mesh) (contourSegments : list (Segment Point3))
    (points : list Point3) : list (Segment Point3) :=
  match points with
  | [p0; p1] => contourSegments ++ [mkSegment (toWorld mesh p0) (toWorld mesh p1)]
  | _ => contourSegments
  end.

(** The callback [intersectsTriangle]. *)
Definition intersectsTriangle (mesh : Mesh) (localPlane : THREE.Plane)
    (contourSegments : list (Segment Point3)) (tri : THREE.Triangle)
    : list (Segment Point3) :=
  storeSegment mesh contourSegments (deduplicate (edgePoints localPlane tri)).

(** The segments collected by the [shapecast]. *)
Definition contourSegments (mesh : Mesh) (plane : THREE.Plane)
    : list (Segment Point3) :=
  let localPlane := toLocal mesh plane in
  MeshBVH.shapecast (THREE.intersectsBox localPlane)
    (intersectsTriangle mesh localPlane) (boundsTree mesh) [].

(** [return stichedContour[0]]: [None] is [undefined]. *)
Definition getIntersectionContour (mesh : Mesh) (plane : THREE.Plane)
    : option (list Point3) :=
  nth_error (stitchSegments (contourSegments mesh plane) defaultTolerance) 0.

(** All triangles of a bounds tree. *)
Fixpoint triangles (n : MeshBVH.Node) : list THREE.Triangle :=
  match n with
  | MeshBVH.Leaf _ tris => tris
  | MeshBVH.Inner _ l r => triangles l ++ triangles r
  end.

(** Every vertex of the triangle is strictly on the side [sign] of the
    plane ([true]: the side of the normal). *)
Definition strictlyOnSide (sign : bool) (plane : THREE.Plane)
    (tri : THREE.Triangle) : bool :=
  let side v :=
    if sign then THREE.Qltb 0 (THREE.distanceToPoint plane v)
    else THREE.Qltb (THREE.distanceToPoint plane v) 0 in
  side (THREE.a tri) && side (THREE.b tri) && side (THREE.c tri).

(** The plane does not meet the mesh: all of the mesh is strictly on one
    side of it. *)
Definition planeMissesMesh (mesh : Mesh) (plane : THREE.Plane) : bool :=
  let localPlane := toLocal mesh plane in
  forallb (strictlyOnSide true localPlane) (triangles (boundsTree mesh))
  || forallb (strictlyOnSide false localPlane) (triangles (boundsTree mesh)).

(** *** Notions used to state further properties of the contour code *)

(** The box holds the three vertices of the triangle. *)
Definition boundsTriangle (box : THREE.Box3) (tri : THREE.Triangle) : bool :=
  THREE.containsPoint box (THREE.a tri)
  && THREE.containsPoint box (THREE.b tri)
  && THREE.containsPoint box (THREE.c tri).

(** Every box of the bounds tree holds the triangles below it. *)
Fixpoint bounded (n : MeshBVH.Node) : bool :=
  match n with
  | MeshBVH.Leaf box tris => forallb (boundsTriangle box) tris
  | MeshBVH.Inner box l r =>
      forallb (boundsTriangle box) (triangles l ++ triangles r)
      && bounded l && bounded r
  end.

(** Two points with the same coordinates as rational numbers. *)
Definition samePlace (u v : Point3) : Prop :=
  (THREE.x u == THREE.x v /\ THREE.y u == THREE.y v
   /\ THREE.z u == THREE.z v)%Q.

(** The point lies on the edge from [u] to [v]. *)
Definition onEdge (u v p : Point3) : Prop :=
  exists t : Q,
    (0 <= t /\ t <= 1)%Q
    /\ samePlace p (THREE.addScaledVector u (THREE.sub v u) t).

(** The point lies on one of the three edges of the triangle. *)
Definition onTriangleEdge (tri : THREE.Triangle) (p : Point3) : Prop :=
  onEdge (THREE.a tri) (THREE.b tri) p
  \/ onEdge (THREE.b tri) (THREE.c tri) p
  \/ onEdge (THREE.c tri) (THREE.a tri) p.

(** The segment is the world image of two points of the local plane that
    lie on edges of the triangle. *)
Definition cutOf (mesh : Mesh) (localPlane : THREE.Plane)
    (tri : THREE.Triangle) (s : Segment Point3) : Prop :=
  exists p0 p1 : Point3,
    s = mkSegment (toWorld mesh p0) (toWorld mesh p1)
    /\ (THREE.distanceToPoint localPlane p0 == 0)%Q
    /\ (THREE.distanceToPoint localPlane p1 == 0)%Q
    /\ onTriangleEdge tri p0 /\ onTriangleEdge tri p1.

End ClipPlane.

(** ** The two three.js calls of [getContourPlaneIntersection] on doubles

    [Plane.distanceToPoint] and [Plane.intersectLine] with the
    operations of binary64 floats, in the order in which three.js
    applies them. *)

Module Doubles.

Import PrimFloat.
Local Open Scope float_scope.

Definition Point3 : Type := THREE.Vector3 float.

Record Plane : Type := mkPlane { normal : Point3; constant : float }.

(** [Vector3.dot] *)
Definition dot (a b : Point3) : float :=
  THREE.x a * THREE.x b + THREE.y a * THREE.y b + THREE.z a * THREE.z b.

(** [Vector3.subVectors(a, b)] *)
Definition sub (a b : Point3) : Point3 :=
  THREE.mkVector3 (THREE.x a - THREE.x b) (THREE.y a - THREE.y b)
    (THREE.z a - THREE.z b).

(** [v.clone().addScaledVector(d, s)] *)
Definition addScaledVector (v d : Point3) (s : float) : Point3 :=
  THREE.mkVector3 (THREE.x v + THREE.x d * s) (THREE.y v + THREE.y d * s)
    (THREE.z v + THREE.z d * s).

(** [Plane.distanceToPoint] *)
Definition distanceToPoint (p : Plane) (v : Point3) : float :=
  dot (normal p) v + constant p.

(** [Plane.intersectLine] on the line from [start] to [end_]. *)
Definition intersectLine (p : Plane) (start end_ : Point3) : option Point3 :=
  let direction := sub end_ start in
  let denominator := dot (normal p) direction in
  if denominator =? 0 then
    if distanceToPoint p start =? 0 then Some start else None
  else
    let t := - (dot start (normal p) + constant p) / denominator in
    if ((t <? 0) || (1 <? t))%bool then None
    else Some (addScaledVector start direction t).

(** [d >= 0], [d <= 0] *)
Definition nonNegative (d : float) : bool := 0 <=? d.
Definition nonPositive (d : float) : bool := d <=? 0.

(** [getContourPlaneIntersection] as it runs on doubles. *)
Definition getContourPlaneIntersection (contourPoints : option (list Point3))
    (secondPlane : Plane) : JS.result (list Point3) :=
  ClipPlane.getContourPlaneIntersectionWith nonNegative nonPositive
    distanceToPoint intersectLine contourPoints secondPlane.

End Doubles.

(** ** [src/Utils.js] *)

Module Utils.

Local Open Scope R_scope.

(** [Math.atan2(y, x)] on the reals (signed zeros are not modelled). *)
Definition atan2 (y x : R) : R :=
  if Rlt_dec 0 x then atan (y / x)
  else if Rlt_dec x 0 then
    if Rle_dec 0 y then atan (y / x) + PI else atan (y / x) - PI
  else if Rlt_dec 0 y then PI / 2
  else if Rlt_dec y 0 then - (PI / 2)
  else 0.

Definition angleToEqualizeZ (p1 p2 : THREE.Vector3 R) : R :=
  let y1 := THREE.y p1 in
  let z1 := THREE.z p1 in
  let y2 := THREE.y p2 in
  let z2 := THREE.z p2 in
  atan2 (z2 - z1) (y1 - y2).

Definition angleZToEqualizeX (p1 p2 : THREE.Vector3 R) : R :=
  let x1 := THREE.x p1 in
  let y1 := THREE.y p1 in
  let x2 := THREE.x p2 in
  let y2 := THREE.y p2 in
  atan2 (x1 - x2) (y1 - y2).

(** The second argument of [gsap.to]: the target values of the animated
    properties ([None]: the property is absent), the duration in seconds
    and the easing. *)
Record TweenVars : Type := mkTweenVars
  { x : option R; y : option R; z : option R;
    duration : Z; ease : string }.

(** What a call does besides computing: it starts a tween on
    [target.rotation], or it calls a callback. *)
Inductive Effect (Obj CB : Type) : Type :=
| GsapTo (target : Obj) (vars : TweenVars)
| Invoke (callback : CB).
Arguments GsapTo {Obj CB} target vars.
Arguments Invoke {Obj CB} callback.

(** [animateRotation(object, angle, axis, callback = null)]: the effects
    of one call, in program order.  All of them happen during the call. *)
Definition animateRotation {Obj CB : Type} (object : Obj) (angle : R)
    (axis : string) (callback : option CB) : list (Effect Obj CB) :=
  let obj :=
    if String.eqb axis "x" then mkTweenVars (Some angle) None None
    else if String.eqb axis "y" then mkTweenVars None (Some angle) None
    else if String.eqb axis "z" then mkTweenVars None None (Some angle)
    else mkTweenVars None None None in
  GsapTo object (obj 1%Z "power2.inOut"%string)
  :: match callback with
     | None => []
     | Some cb => [Invoke cb]
     end.

(** Times are in milliseconds.  A tween started at [now] interpolates
    until [now + 1000 * duration]. *)
Definition tweenEnd (now : Z) (vars : TweenVars) : Z :=
  (now + 1000 * duration vars)%Z.

(** The instants at which the callbacks of a call made at [now] run. *)
Definition callbackTimes {Obj CB : Type} (now : Z)
    (effects : list (Effect Obj CB)) : list Z :=
  flat_map (fun e => match e with Invoke _ => [now] | GsapTo _ _ => [] end)
    effects.

(** The instants at which the tweens of a call made at [now] finish. *)
Definition tweenEnds {Obj CB : Type} (now : Z)
    (effects : list (Effect Obj CB)) : list Z :=
  flat_map
    (fun e => match e with GsapTo _ v => [tweenEnd now v] | Invoke _ => [] end)
    effects.

(** A call that returns a value or runs into [throw new Error(message)]. *)
Inductive Completion (A : Type) : Type :=
| Returns (value : A)
| ThrowsError (message : string).
Arguments Returns {A} value.
Arguments ThrowsError {A} message.

(** [angleToEqualize(p1, p2, axis)]: the [switch] on [axis] with its
    [default] branch. *)
Definition angleToEqualize (p1 p2 : THREE.Vector3 R) (axis : string)
    : Completion R :=
  let result (dx dy : R) := Returns (atan2 dy dx) in
  if String.eqb axis "x" then
    result (THREE.y p1 - THREE.y p2) (THREE.z p2 - THREE.z p1)
  else if String.eqb axis "y" then
    result (THREE.x p1 - THREE.x p2) (THREE.z p2 - THREE.z p1)
  else if String.eqb axis "z" then
    result (THREE.y p1 - THREE.y p2) (THREE.x p1 - THREE.x p2)
  else ThrowsError "Axis must be 'x', 'y', or 'z'".

(** The object [{ point, direction }] returned by
    [getPlanesIntersectionLine].  The point is computed with rational
    operations only; the direction is normalized, which takes a square
    root. *)
Record IntersectionLine : Type := mkIntersectionLine
  { point : THREE.Vector3 Q; direction : THREE.Vector3 R }.

(** [getPlanesIntersectionLine(plane1, plane2)]: [None] is [null].
    The test [direction.lengthSq() === 0] is on the exact value here; on
    doubles the squares of a very short cross product underflow to zero,
    so the properties of this function are stated for the case that a
    line is returned. *)
Definition getPlanesIntersectionLine (plane1 plane2 : THREE.Plane)
    : option IntersectionLine :=
  let direction :=
    THREE.crossVectors (THREE.normal plane1) (THREE.normal plane2) in
  if Qeq_bool (THREE.lengthSq direction) 0 then None
  else
    let n1 := THREE.normal plane1 in
    let n2 := THREE.normal plane2 in
    let c1 := Qopp (THREE.constant plane1) in
    let c2 := Qopp (THREE.constant plane2) in
    let n1xn2 := THREE.crossVectors n1 n2 in
    let temp1 := THREE.multiplyScalar (THREE.crossVectors n1xn2 n2) c1 in
    let temp2 := THREE.multiplyScalar (THREE.crossVectors n1 n1xn2) c2 in
    let pointOnLine :=
      THREE.divideScalar (THREE.addVectors temp1 temp2)
        (THREE.lengthSq n1xn2) in
    Some (mkIntersectionLine pointOnLine
            (THREE.normalize (THREE.toReal direction))).

(** Rotating a point about the Y axis and about the Z axis with
    [applyAxisAngle]. *)
Definition rotateY (angle : R) (p : THREE.Vector3 R) : THREE.Vector3 R :=
  THREE.applyAxisAngle p (THREE.mkVector3 0 1 0) angle.

Definition rotateZ (angle : R) (p : THREE.Vector3 R) : THREE.Vector3 R :=
  THREE.applyAxisAngle p (THREE.mkVector3 0 0 1) angle.

(** [getMeshIntersectionWithLine(mesh, linePoint, lineDir)].  The mesh is
    given by what [raycaster.intersectObject(mesh, true)] returns for a
    ray with an origin and a direction; [None] is [null]. *)
Definition getMeshIntersectionWithLine
    (intersectObject : THREE.Vector3 R -> THREE.Vector3 R
                       -> list THREE.Intersection)
    (linePoint lineDir : THREE.Vector3 R) : option (list THREE.Intersection) :=
  let intersections := intersectObject linePoint (THREE.normalize lineDir) in
  if (0 <? length intersections)%nat then Some intersections else None.

End Utils.

(** ** [src/App.jsx]: [handleApply] and the rotation effect *)

Module App.

Local Open Scope R_scope.

(** The two objects that get rotated: [glbSceneRef.current] and
    [groupRef.current]. *)
Inductive Object3D : Type := GlbScene | Group.

(** A reference to a [Vector3] object of the heap. *)
Definition Ref : Type := nat.

(** The arrow function the effect passes to [animateRotation]; it
    captures [points] and [angleX]. *)
Inductive Callback : Type :=
| Phase1Done (points : list Ref) (angleX : R).

(** The arrow function passed to [setTimeout]; it captures [points]. *)
Inductive Timer : Type :=
| Phase2 (points : list Ref).

Record PlaneSelection : Type := mkPlaneSelection
  { meshName : string; normal : THREE.Vector3 Q; centroid : THREE.Vector3 Q }.

Record Tween : Type := mkTween
  { target : Object3D; vars : Utils.TweenVars; startedAt : Z }.

Record State : Type := mkState
  { (** [planeSelections.plane1], [planeSelections.plane2] *)
    plane1 : option PlaneSelection;
    plane2 : option PlaneSelection;
    activePlane : option string;
    (** [useState(null)]: [None] is [null] *)
    aligned : option bool;
    (** [useState()]: [None] is [undefined]; an array holds references *)
    points : option (list Ref);
    (** the [Vector3] objects the arrays refer to *)
    heap : list (THREE.Vector3 R);
    (** [glbSceneRef.current.getObjectByName] *)
    getObjectByName : string -> option ClipPlane.Mesh;
    (** the tweens started so far *)
    tweens : list Tween;
    (** the pending timers with the instant they are due *)
    timers : list (Z * Timer);
    (** the instants at which callbacks of [animateRotation] ran *)
    invoked : list (Z * Callback);
    (** the clock, in milliseconds *)
    now : Z }.

Definition setAlignment (st : State) (al : option bool)
    (pts : option (list Ref)) (h : list (THREE.Vector3 R)) : State :=
  mkState (plane1 st) (plane2 st) (activePlane st) al pts h
    (getObjectByName st)
    (tweens st) (timers st) (invoked st) (now st).

Definition setActivePlane (st : State) (p : option string) : State :=
  mkState (plane1 st) (plane2 st) p (aligned st) (points st) (heap st)
    (getObjectByName st) (tweens st) (timers st) (invoked st)
    (now st).

Definition setPoints (st : State) (pts : list Ref) : State :=
  mkState (plane1 st) (plane2 st) (activePlane st) (aligned st) (Some pts)
    (heap st) (getObjectByName st) (tweens st) (timers st)
    (invoked st) (now st).

Definition setHeap (st : State) (h : list (THREE.Vector3 R)) : State :=
  mkState (plane1 st) (plane2 st) (activePlane st) (aligned st) (points st)
    h (getObjectByName st) (tweens st) (timers st)
    (invoked st) (now st).

Definition addTween (st : State) (t : Tween) : State :=
  mkState (plane1 st) (plane2 st) (activePlane st) (aligned st) (points st)
    (heap st) (getObjectByName st) (tweens st ++ [t])
    (timers st) (invoked st) (now st).

(** [setTimeout(f, delay)] *)
Definition setTimeout (st : State) (f : Timer) (delay : Z) : State :=
  mkState (plane1 st) (plane2 st) (activePlane st) (aligned st) (points st)
    (heap st) (getObjectByName st) (tweens st)
    (timers st ++ [((now st + delay)%Z, f)]) (invoked st) (now st).

Definition logInvoke (st : State) (cb : Callback) : State :=
  mkState (plane1 st) (plane2 st) (activePlane st) (aligned st) (points st)
    (heap st) (getObjectByName st) (tweens st) (timers st)
    (invoked st ++ [(now st, cb)]) (now st).

Definition popTimer (st : State) (due : Z) (rest : list (Z * Timer))
    : State :=
  mkState (plane1 st) (plane2 st) (activePlane st) (aligned st) (points st)
    (heap st) (getObjectByName st) (tweens st) rest
    (invoked st) (Z.max (now st) due).

(** [new THREE.Plane().setFromNormalAndCoplanarPoint(sel.normal,
    sel.centroid)] *)
Definition planeInstance (sel : PlaneSelection) : THREE.Plane :=
  THREE.setFromNormalAndCoplanarPoint (normal sel) (centroid sel).

(** [ClipPlane.getIntersectionContour(mesh, plane)] where [mesh] may be
    [undefined]: reading [mesh.geometry] then throws. *)
Definition contourOf (mesh : option ClipPlane.Mesh) (plane : THREE.Plane)
    : JS.result (option (list ClipPlane.Point3)) :=
  match mesh with
  | None =>
      JS.TypeError
        "Cannot read properties of undefined (reading 'geometry')"%string
  | Some m => JS.Ok (ClipPlane.getIntersectionContour m plane)
  end.

(** [setAligned(true); setPoints(point)]: the points found are fresh
    [Vector3] objects, stored behind the heap. *)
Definition storePoints (st : State) (point : list ClipPlane.Point3) : State :=
  setAlignment st (Some true)
    (Some (seq (length (heap st)) (length point)))
    (heap st ++ map THREE.toReal point).

Definition handleApply (st : State) : JS.result State :=
  let st := setActivePlane st None in
  match plane1 st, plane2 st with
  | Some plane1, Some plane2 =>
      let mesh := getObjectByName st (meshName plane1) in
      let planeInstance1 := planeInstance plane1 in
      let planeInstance2 := planeInstance plane2 in
      planeShape <- contourOf mesh planeInstance1 ;;
      point <- ClipPlane.getContourPlaneIntersection planeShape planeInstance2 ;;
      if (length point =? 0)%nat then
        let mesh2 := getObjectByName st (meshName plane2) in
        planeShape2 <- contourOf mesh2 planeInstance2 ;;
        point2 <- ClipPlane.getContourPlaneIntersection planeShape2
                    planeInstance1 ;;
        JS.Ok (storePoints st point2)
      else JS.Ok (storePoints st point)
  | _, _ => JS.Ok st
  end.

(** Reading [points[i]] and then a coordinate of it: [points[i]] is
    [undefined] past the end of the array. *)
Definition deref (st : State) (pts : list Ref) (i : nat)
    : JS.result (THREE.Vector3 R) :=
  match nth_error pts i with
  | None => JS.TypeError "Cannot read properties of undefined"%string
  | Some r =>
      match nth_error (heap st) r with
      | None => JS.TypeError "Cannot read properties of undefined"%string
      | Some v => JS.Ok v
      end
  end.

(** [updatedPoints[i].applyAxisAngle(axis, angle)]: the object is changed
    in place. *)
Definition applyAxisAngleAt (st : State) (pts : list Ref) (i : nat)
    (axis : THREE.Vector3 R) (angle : R) : JS.result State :=
  match nth_error pts i with
  | None => JS.TypeError "Cannot read properties of undefined"%string
  | Some r =>
      match nth_error (heap st) r with
      | None => JS.TypeError "Cannot read properties of undefined"%string
      | Some v =>
          JS.Ok (setHeap st
                   (JS.assign (heap st) r (THREE.applyAxisAngle v axis angle)))
      end
  end.

(** The callback of Phase 1.  [updatedPoints = [...points]] is a new
    array of the same references. *)
Definition runCallback (cb : Callback) (st : State) : JS.result State :=
  match cb with
  | Phase1Done points angleX =>
      let updatedPoints := points in
      st1 <- applyAxisAngleAt st updatedPoints 0
               (THREE.mkVector3 1 0 0) angleX ;;
      st2 <- applyAxisAngleAt st1 updatedPoints 1
               (THREE.mkVector3 1 0 0) angleX ;;
      JS.Ok (setTimeout (setPoints st2 updatedPoints) (Phase2 points) 1000%Z)
  end.

(** Running the effects of a call of [animateRotation]. *)
Fixpoint exec (effects : list (Utils.Effect Object3D Callback)) (st : State)
    : JS.result State :=
  match effects with
  | [] => JS.Ok st
  | Utils.GsapTo target vars :: rest =>
      exec rest (addTween st (mkTween target vars (now st)))
  | Utils.Invoke cb :: rest =>
      st' <- runCallback cb (logInvoke st cb) ;;
      exec rest st'
  end.

(** The body of [useEffect(..., [aligned])]. *)
Definition alignEffect (st : State) : JS.result State :=
  match points st, aligned st with
  | Some points, Some true =>
      p0 <- deref st points 0 ;;
      p1 <- deref st points 1 ;;
      let angleX := Utils.angleToEqualizeZ p0 p1 in
      exec (Utils.animateRotation GlbScene angleX "x"
              (Some (Phase1Done points angleX))) st
  | _, _ => JS.Ok st
  end.

(** The function given to [setTimeout] by the callback of Phase 1. *)
Definition runTimer (t : Timer) (st : State) : JS.result State :=
  match t with
  | Phase2 points =>
      p0 <- deref st points 0 ;;
      p1 <- deref st points 1 ;;
      let angleZ := Utils.angleZToEqualizeX p0 p1 in
      exec (Utils.animateRotation Group angleZ "z" None) st
  end.

(** The clock reaches the first pending timer and its function runs. *)
Definition fireTimer (st : State) : JS.result State :=
  match timers st with
  | [] => JS.Ok st
  | (due, t) :: rest => runTimer t (popTimer st due rest)
  end.

(** The angle of the last tween started on [obj] about [axis]. *)
Definition tweenAngle (st : State) (obj : Object3D)
    (axis : Utils.TweenVars -> option R) : option R :=
  match
    filter (fun t => match target t, obj with
                     | GlbScene, GlbScene | Group, Group => true
                     | _, _ => false
                     end) (rev (tweens st))
  with
  | t :: _ => axis (vars t)
  | [] => None
  end.

(** Rotating a point about the X axis, as the callback of Phase 1 does. *)
Definition rotateX (angle : R) (p : THREE.Vector3 R) : THREE.Vector3 R :=
  THREE.applyAxisAngle p (THREE.mkVector3 1 0 0) angle.

(** The effect runs, and later the timer of Phase 2 fires. *)
Definition alignThenPhase2 (st : State) : JS.result State :=
  st1 <- alignEffect st ;;
  fireTimer st1.

(** The angle Phase 2 rotates the group by, about the Z axis. *)
Definition phase2Angle (st : State) : JS.result (option R) :=
  st2 <- alignThenPhase2 st ;;
  JS.Ok (tweenAngle st2 Group Utils.z).

(** The angle Phase 1 rotates the scene by, about the X axis. *)
Definition phase1Angle (st : State) : JS.result (option R) :=
  st2 <- alignThenPhase2 st ;;
  JS.Ok (tweenAngle st2 GlbScene Utils.x).

(** A state with two landmark points and [aligned] just set. *)
Definition landmarkState (p0 p1 : THREE.Vector3 R) : State :=
  mkState None None None (Some true) (Some [0%nat; 1%nat]) [p0; p1]
    (fun _ => None) [] [] [] 0%Z.

(** [useEffect(..., [aligned])]: after a render the effect runs when
    [aligned] is not the value it had at the render before. *)
Definition sameAligned (before after : option bool) : bool :=
  match before, after with
  | None, None => true
  | Some a, Some b => Bool.eqb a b
  | _, _ => false
  end.

Definition afterRender (before st : State) : JS.result State :=
  if sameAligned (aligned before) (aligned st) then JS.Ok st
  else alignEffect st.

(** A click on the Apply button: [handleApply], then the render that its
    state updates cause. *)
Definition clickApply (st : State) : JS.result State :=
  st1 <- handleApply st ;;
  afterRender st st1.

(** [Math.max(a, b, c)] *)
Definition max3 (a b c : Q) : Q :=
  let m := if Qle_bool a b then b else a in
  if Qle_bool m c then c else m.

(** The arguments of [cameraControlsRef.current.setLookAt(from.x, from.y,
    from.z, to.x, to.y, to.z, true)]. *)
Record LookAt : Type := mkLookAt
  { from : THREE.Vector3 Q; to : THREE.Vector3 Q }.

(** [handleModelLoaded(box)]: the call of [setLookAt] of the next
    animation frame; there is none ([None]) when the camera controls are
    not mounted. *)
Definition handleModelLoaded (cameraControls : bool) (box : THREE.Box3)
    : option LookAt :=
  let size := THREE.getSize box in
  let center := THREE.getCenter box in
  let distance :=
    (max3 (THREE.x size) (THREE.y size) (THREE.z size) * 2)%Q in
  let from :=
    THREE.addVectors center (THREE.mkVector3 0%Q distance 0%Q) in
  let to := center in
  if cameraControls then Some (mkLookAt from to) else None.

(** [handleSelectPlane1], [handleSelectPlane2] *)
Definition handleSelectPlane1 (st : State) : State :=
  match plane1 st with
  | None => setActivePlane st (Some "plane1"%string)
  | Some _ => st
  end.

Definition handleSelectPlane2 (st : State) : State :=
  match plane2 st with
  | None => setActivePlane st (Some "plane2"%string)
  | Some _ => st
  end.

Definition setPlane1 (st : State) (sel : option PlaneSelection) : State :=
  mkState sel (plane2 st) (activePlane st) (aligned st) (points st) (heap st)
    (getObjectByName st) (tweens st) (timers st) (invoked st) (now st).

Definition setPlane2 (st : State) (sel : option PlaneSelection) : State :=
  mkState (plane1 st) sel (activePlane st) (aligned st) (points st) (heap st)
    (getObjectByName st) (tweens st) (timers st) (invoked st) (now st).

(** [handleMeshSelect(plane, meshName, normal, centroid)]: the key
    [plane] of [planeSelections] is set, then the active plane is
    cleared.  A key other than [plane1] and [plane2] is read nowhere. *)
Definition handleMeshSelect (st : State) (plane meshName : string)
    (normal centroid : THREE.Vector3 Q) : State :=
  let selection := mkPlaneSelection meshName normal centroid in
  let st :=
    if String.eqb plane "plane1" then setPlane1 st (Some selection)
    else if String.eqb plane "plane2" then setPlane2 st (Some selection)
    else st in
  setActivePlane st None.

(** What the user does: the three buttons, a pointer-down on a mesh that
    reaches [onSelect] (the component calls it with the active plane,
    and only when there is one), and a pointer-down beside the model. *)
Inductive Event : Type :=
| ClickSelectPlane1
| ClickSelectPlane2
| ClickApply
| PickMesh (meshName : string) (normal centroid : THREE.Vector3 Q)
| PointerMissed.

Definition step (st : State) (ev : Event) : JS.result State :=
  match ev with
  | ClickSelectPlane1 => JS.Ok (handleSelectPlane1 st)
  | ClickSelectPlane2 => JS.Ok (handleSelectPlane2 st)
  | ClickApply => clickApply st
  | PickMesh meshName normal centroid =>
      match activePlane st with
      | Some plane => JS.Ok (handleMeshSelect st plane meshName normal centroid)
      | None => JS.Ok st
      end
  | PointerMissed => JS.Ok (setActivePlane st None)
  end.

(** The events one after the other, up to the first that throws. *)
Fixpoint run (st : State) (events : list Event) : JS.result State :=
  match events with
  | [] => JS.Ok st
  | ev :: rest => st' <- step st ev ;; run st' rest
  end.

End App.

(** ** [src/App.jsx]: the component [GLBModel] *)

Module GLBModel.

Local Open Scope R_scope.

(** A string or [null]/[undefined] used as a condition. *)
Definition truthy (s : option string) : bool :=
  match s with
  | None => false
  | Some s => negb (String.eqb s EmptyString)
  end.

(** [e.face]: the code reads its [normal]. *)
Record Face : Type := mkFace { normal : THREE.Vector3 R }.

(** A mesh of the scene as [handlePointerDown] uses it. *)
Record MeshObject : Type := mkMeshObject
  { name : string;
    (** [mesh.userData.selectedForPlane] *)
    selectedForPlane : option string;
    (** [mesh.material.color] *)
    color : string;
    (** [v.applyNormalMatrix(new THREE.Matrix3().getNormalMatrix(
        mesh.matrixWorld))] *)
    applyNormalMatrix : THREE.Vector3 R -> THREE.Vector3 R;
    (** [raycaster.intersectObject(mesh, true)] for the ray with this
        origin and this direction *)
    intersectObject : THREE.Vector3 R -> THREE.Vector3 R
                      -> list THREE.Intersection }.

(** The pointer event: [e.face] ([None] when absent) and [e.point];
    [e.object] is the mesh the handler is given. *)
Record PointerEvent : Type := mkPointerEvent
  { face : option Face; point : THREE.Vector3 R }.

(** The arguments of [onSelect(activePlane, mesh.name, worldNormal,
    midPoint)]. *)
Record Selection : Type := mkSelection
  { plane : string; meshName : string;
    worldNormal : THREE.Vector3 R; midPoint : THREE.Vector3 R }.

(** [mesh.userData.selectedForPlane = activePlane;
    mesh.material.color.set('red')] *)
Definition markSelected (mesh : MeshObject) (activePlane : option string) : MeshObject :=
  mkMeshObject (name mesh) activePlane "red" (applyNormalMatrix mesh)
    (intersectObject mesh).

(** [face.normal.clone().applyNormalMatrix(...).normalize()] *)
Definition worldNormalOf (mesh : MeshObject) (f : Face) : THREE.Vector3 R :=
  THREE.normalize (applyNormalMatrix mesh (normal f)).

(** [Utils.getMeshIntersectionWithLine(mesh, offsetPoint.clone(),
    worldNormal.clone().negate())] with [offsetPoint] five units from
    [e.point] along the normal. *)
Definition pickHits (mesh : MeshObject) (e : PointerEvent) (f : Face)
    : option (list THREE.Intersection) :=
  let worldNormal := worldNormalOf mesh f in
  let offsetPoint := THREE.addR (point e) (THREE.multiplyScalarR worldNormal 5) in
  Utils.getMeshIntersectionWithLine (intersectObject mesh) offsetPoint
    (THREE.negateR worldNormal).

(** [handlePointerDown(e)] with [e.object = mesh]: the mesh after the
    call, and how the call ends: it throws, or it returns after calling
    [onSelect] ([Some]) or without calling it ([None]).  The vertices
    [a], [b], [c] that the handler reads from the geometry are not used
    and not modelled. *)
Definition handlePointerDown (activePlane : option string) (mesh : MeshObject)
    (e : PointerEvent) : MeshObject * JS.result (option Selection) :=
  match activePlane with
  | None => (mesh, JS.Ok None)
  | Some active =>
      if negb (truthy activePlane) then (mesh, JS.Ok None)
      else if truthy (selectedForPlane mesh) then (mesh, JS.Ok None)
      else
        let mesh := markSelected mesh activePlane in
        (mesh,
         match face e with
         | None => JS.Ok None
         | Some f =>
             let worldNormal := worldNormalOf mesh f in
             match pickHits mesh e f with
             | None =>
                 JS.TypeError "Cannot read properties of null (reading '0')"
             | Some points =>
                 match nth_error points 0, nth_error points 1 with
                 | Some p0, Some p1 =>
                     let distance :=
                       THREE.distanceToR (THREE.point p0) (THREE.point p1) in
                     let midPoint :=
                       THREE.addR (THREE.point p0)
                         (THREE.multiplyScalarR (THREE.negateR worldNormal)
                            (distance / 2)) in
                     JS.Ok (Some (mkSelection active (name mesh) worldNormal
                                    midPoint))
                 | _, _ =>
                     JS.TypeError
                       "Cannot read properties of undefined (reading 'point')"
                 end
             end
         end)
  end.

End GLBModel.

(** ** Concrete inputs *)

Module Examples.

Local Open Scope Q_scope.

Definition vec (x y z : Q) : THREE.Vector3 Q := THREE.mkVector3 x y z.

(** A mesh of one leaf whose world matrix is the identity. *)
Definition meshOf (tris : list THREE.Triangle) : ClipPlane.Mesh :=
  ClipPlane.mkMesh
    (MeshBVH.Leaf (THREE.mkBox3 (vec (-100) (-100) (-100)) (vec 100 100 100))
       tris)
    (fun v => v) (fun p => p).

(** The plane [z = 0] and a triangle lying in it. *)
Definition planeZ0 : THREE.Plane := THREE.mkPlane (vec 0 0 1) 0.
Definition coplanarTriangle : THREE.Triangle :=
  THREE.mkTriangle (vec 0 0 0) (vec 1 0 0) (vec 0 1 0).

(** A triangle above the plane [z = 0]. *)
Definition highTriangle : THREE.Triangle :=
  THREE.mkTriangle (vec 0 0 1) (vec 1 0 1) (vec 0 1 2).

(** The plane [x = 0] and a polyline with a vertex on it. *)
Definition planeX0 : THREE.Plane := THREE.mkPlane (vec 1 0 0) 0.
Definition touchingPolyline : list ClipPlane.Point3 :=
  [vec (-1) 0 0; vec 0 0 0; vec 1 0 0].

(** Two meshes and two picked planes: mesh A is cut by [z = 0] near the
    origin, mesh B is cut by [x = 10] at height 5; neither contour meets
    the other plane. *)
Definition meshA : ClipPlane.Mesh :=
  meshOf [THREE.mkTriangle (vec 0 0 (-1)) (vec 1 0 1) (vec 0 1 1)].
Definition meshB : ClipPlane.Mesh :=
  meshOf [THREE.mkTriangle (vec 9 0 5) (vec 11 0 5) (vec 11 1 5)].
Definition selection1 : App.PlaneSelection :=
  App.mkPlaneSelection "mesh_0" (vec 0 0 1) (vec 0 0 0).
Definition selection2 : App.PlaneSelection :=
  App.mkPlaneSelection "mesh_1" (vec 1 0 0) (vec 10 0 0).
Definition farApartState : App.State :=
  App.mkState (Some selection1) (Some selection2) None None None []
    (fun name =>
       if String.eqb name "mesh_0" then Some meshA
       else if String.eqb name "mesh_1" then Some meshB
       else None)
    [] [] [] 0%Z.

(** Stitching: a closed triangle, a branching point and two segments
    whose ends are [1e-7] apart, each with a reordering of its segments. *)
Definition seg (a b : ClipPlane.Point3) : ClipPlane.Segment ClipPlane.Point3 :=
  ClipPlane.mkSegment a b.
Definition ringSegments : list (ClipPlane.Segment ClipPlane.Point3) :=
  [seg (vec 0 0 0) (vec 1 0 0); seg (vec 1 0 0) (vec 0 1 0);
   seg (vec 0 1 0) (vec 0 0 0)].
Definition ringShuffled : list (ClipPlane.Segment ClipPlane.Point3) :=
  [seg (vec 1 0 0) (vec 0 1 0); seg (vec 0 1 0) (vec 0 0 0);
   seg (vec 0 0 0) (vec 1 0 0)].
Definition branchSegments : list (ClipPlane.Segment ClipPlane.Point3) :=
  [seg (vec 0 0 0) (vec 1 0 0); seg (vec 1 0 0) (vec 2 0 0);
   seg (vec 1 0 0) (vec 1 1 0)].
Definition branchShuffled : list (ClipPlane.Segment ClipPlane.Point3) :=
  [seg (vec 0 0 0) (vec 1 0 0); seg (vec 1 0 0) (vec 1 1 0);
   seg (vec 1 0 0) (vec 2 0 0)].
Definition nearSegments : list (ClipPlane.Segment ClipPlane.Point3) :=
  [seg (vec 0 0 0) (vec 1 0 0);
   seg (vec (10000001 # 10000000) 0 0) (vec 2 0 0)].
Definition nearShuffled : list (ClipPlane.Segment ClipPlane.Point3) :=
  [seg (vec (10000001 # 10000000) 0 0) (vec 2 0 0);
   seg (vec 0 0 0) (vec 1 0 0)].

(** A contour made of an open chain and a closed triangle, its segments
    in two orders. *)
Definition mixedChains : list (list ClipPlane.Point3) :=
  [[vec 0 5 0; vec 1 5 0; vec 2 5 0]].
Definition mixedRings : list (list ClipPlane.Point3) :=
  [[vec 0 0 0; vec 1 0 0; vec 0 1 0]].
Definition mixedSegments : list (ClipPlane.Segment ClipPlane.Point3) :=
  [seg (vec 1 0 0) (vec 0 1 0); seg (vec 1 5 0) (vec 2 5 0);
   seg (vec 0 0 0) (vec 1 0 0); seg (vec 1 5 0) (vec 0 5 0);
   seg (vec 0 1 0) (vec 0 0 0)].
Definition mixedShuffled : list (ClipPlane.Segment ClipPlane.Point3) :=
  [seg (vec 1 5 0) (vec 2 5 0); seg (vec 0 0 0) (vec 1 0 0);
   seg (vec 1 5 0) (vec 0 5 0); seg (vec 0 1 0) (vec 0 0 0);
   seg (vec 1 0 0) (vec 0 1 0)].

(** The planes [x = 1] and [y = 2]. *)
Definition planeX1 : THREE.Plane := THREE.mkPlane (vec 1 0 0) (- 1).
Definition planeY2 : THREE.Plane := THREE.mkPlane (vec 0 1 0) (- 2).

(** A bounds tree with three leaves: two triangles cut by the plane
    [z = 0], far from each other, and a triangle above the plane. *)
Definition lowTriangle1 : THREE.Triangle :=
  THREE.mkTriangle (vec 0 0 (-1)) (vec 1 0 1) (vec 0 1 1).
Definition lowTriangle2 : THREE.Triangle :=
  THREE.mkTriangle (vec 10 0 (-1)) (vec 11 0 1) (vec 10 1 1).
Definition threeLeafMesh : ClipPlane.Mesh :=
  ClipPlane.mkMesh
    (MeshBVH.Inner (THREE.mkBox3 (vec 0 0 (-1)) (vec 11 1 2))
       (MeshBVH.Inner (THREE.mkBox3 (vec 0 0 (-1)) (vec 11 1 1))
          (MeshBVH.Leaf (THREE.mkBox3 (vec 0 0 (-1)) (vec 1 1 1))
             [lowTriangle1])
          (MeshBVH.Leaf (THREE.mkBox3 (vec 10 0 (-1)) (vec 11 1 1))
             [lowTriangle2]))
       (MeshBVH.Leaf (THREE.mkBox3 (vec 0 0 1) (vec 1 1 2)) [highTriangle]))
    (fun v => v) (fun p => p).

(** A closed square contour around the Z axis. *)
Definition squareContour : list ClipPlane.Point3 :=
  [vec 1 1 0; vec (-1) 1 0; vec (-1) (-1) 0; vec 1 (-1) 0; vec 1 1 0].

(** A mesh cut by [z = 0] along a ridge that the plane [y = 1/2] crosses
    twice, and its two picked planes. *)
Definition ridgeMesh : ClipPlane.Mesh :=
  meshOf [THREE.mkTriangle (vec (-1) 0 (-1)) (vec (-1) 0 1) (vec 1 2 (-1));
          THREE.mkTriangle (vec 1 0 (-1)) (vec 1 0 1) (vec (-1) 2 (-1))].
Definition ridgeSelection2 : App.PlaneSelection :=
  App.mkPlaneSelection "mesh_1" (vec 0 1 0) (vec 0 (1 # 2) 0).
Definition ridgeState : App.State :=
  App.mkState (Some selection1) (Some ridgeSelection2) None None None []
    (fun name =>
       if String.eqb name "mesh_0" then Some ridgeMesh
       else if String.eqb name "mesh_1" then Some meshB
       else None)
    [] [] [] 0%Z.

(** A state in which [aligned] is already [true]. *)
Definition alignedState : App.State :=
  App.setAlignment farApartState (Some true) (Some []) [].

(** A mesh that a ray enters 4 units and leaves 6 units from its origin,
    a mesh that no ray meets, and a click on a face whose normal is the
    Z axis. *)
Definition slab : GLBModel.MeshObject :=
  GLBModel.mkMeshObject "mesh_0" None "white" (fun v => v)
    (fun origin direction =>
       [THREE.mkIntersection 4%R
          (THREE.addR origin (THREE.multiplyScalarR direction 4%R));
        THREE.mkIntersection 6%R
          (THREE.addR origin (THREE.multiplyScalarR direction 6%R))]).
Definition sheet : GLBModel.MeshObject :=
  GLBModel.mkMeshObject "mesh_1" None "white" (fun v => v) (fun _ _ => []).
Definition click : GLBModel.PointerEvent :=
  GLBModel.mkPointerEvent
    (Some (GLBModel.mkFace (THREE.mkVector3 0%R 0%R 1%R)))
    (THREE.mkVector3 0%R 0%R 0%R).

(** A box. *)
Definition unitBox : THREE.Box3 := THREE.mkBox3 (vec 0 0 0) (vec 1 2 3).

(** A mesh that the plane [z = 0] cuts in two parts: two triangles with
    a common edge, and a triangle far from them. *)
Definition foldedMesh : ClipPlane.Mesh :=
  meshOf [THREE.mkTriangle (vec 0 0 (-1)) (vec 2 0 1) (vec 0 2 1);
          THREE.mkTriangle (vec 0 0 (-1)) (vec 0 2 1) (vec (-2) 0 1);
          lowTriangle2].

Import PrimFloat.

(** On doubles: the plane with normal [(0.1, 0.3, 0)] and constant
    [-0.1], and the edge from [(0.4, 0.3, 0)] to [(0.7, 0.1, 0)], each
    number the nearest double.  The computed distances of the two ends
    are [0.03] and [-1.39e-17]. *)
Definition tiltedPlane : Doubles.Plane :=
  Doubles.mkPlane
    (THREE.mkVector3 0x1.999999999999ap-4 0x1.3333333333333p-2 0)%float
    (-0x1.999999999999ap-4)%float.
Definition grazingStart : Doubles.Point3 :=
  (THREE.mkVector3 0x1.999999999999ap-2 0x1.3333333333333p-2 0)%float.
Definition grazingEnd : Doubles.Point3 :=
  (THREE.mkVector3 0x1.6666666666666p-1 0x1.999999999999ap-4 0)%float.
Definition grazingEdge : list Doubles.Point3 := [grazingStart; grazingEnd].

(** On doubles: the plane [x = 0] and the polyline with a vertex on
    it. *)
Definition doublePlaneX0 : Doubles.Plane :=
  Doubles.mkPlane (THREE.mkVector3 1 0 0)%float 0%float.
Definition doubleOrigin : Doubles.Point3 := (THREE.mkVector3 0 0 0)%float.
Definition doubleTouchingPolyline : list Doubles.Point3 :=
  [THREE.mkVector3 (-1) 0 0; doubleOrigin; THREE.mkVector3 1 0 0]%float.

End Examples.

(** * Properties *)

Section ListFacts.
Context {A : Type}.

Lemma assign_length (l : list A) i v : length (JS.assign l i v) = length l.
Proof.
  revert i; induction l as [|h t IH]; intros [|i]; simpl; auto.
Qed.

Lemma nth_error_assign_eq (l : list A) i v :
  (i < length l)%nat -> nth_error (JS.assign l i v) i = Some v.
Proof.
  revert i; induction l as [|h t IH]; intros [|i] H; simpl in *; try lia; auto.
  apply IH; lia.
Qed.

Lemma nth_error_assign_ne (l : list A) i j v :
  i <> j -> nth_error (JS.assign l i v) j = nth_error l j.
Proof.
  revert i j; induction l as [|h t IH]; intros [|i] [|j] H; simpl; auto; try congruence.
Qed.
End ListFacts.

Section Angles.
Local Open Scope R_scope.

Lemma atan2_neg_x (y x : R) :
  x < 0 -> 0 <= y -> Utils.atan2 y x = atan (y / x) + PI.
Proof.
  intros Hx Hy. unfold Utils.atan2.
  destruct (Rlt_dec 0 x); [lra|].
  destruct (Rlt_dec x 0); [|lra].
  destruct (Rle_dec 0 y); [reflexivity|lra].
Qed.

Lemma atan2_pos_x (y x : R) : 0 < x -> Utils.atan2 y x = atan (y / x).
Proof.
  intros Hx. unfold Utils.atan2.
  destruct (Rlt_dec 0 x); [reflexivity|lra].
Qed.

Lemma atan2_1_m1 : Utils.atan2 1 (-1) = 3 * PI / 4.
Proof.
  rewrite atan2_neg_x by lra.
  replace (1 / -1) with (Ropp 1) by field.
  rewrite atan_opp, atan_1. field.
Qed.

Lemma atan2_1_1 : Utils.atan2 1 1 = PI / 4.
Proof.
  rewrite atan2_pos_x by lra.
  replace (1 / 1) with 1 by field. apply atan_1.
Qed.

Lemma atan2_0_m1 : Utils.atan2 0 (-1) = PI.
Proof.
  rewrite atan2_neg_x by lra.
  replace (0 / -1) with 0 by field.
  rewrite atan_0. ring.
Qed.

Lemma PI4_bounds : 785397 / 1000000 < PI / 4 < 785399 / 1000000.
Proof.
  pose proof (Machin.PI_2_3_7_ineq 4) as H.
  unfold sum_f_R0, tg_alt, Machin.PI_2_3_7_tg, Ratan_seq in H.
  simpl in H. lra.
Qed.

(** Claim C7.  The Phase-1 angle is the formula itself:
    [angleToEqualizeZ p1 p2 = atan2 (p2.z - p1.z) (p1.y - p2.y)]; for
    [p1 = (0,0,0)] and [p2 = (0,1,1)] it is [atan2 1 (-1)], which is
    exactly [3 * PI / 4], a number between 2.356 and 2.357. *)
Theorem angleToEqualizeZ_formula (p1 p2 : THREE.Vector3 R) :
  Utils.angleToEqualizeZ p1 p2
  = Utils.atan2 (THREE.z p2 - THREE.z p1) (THREE.y p1 - THREE.y p2)
  /\ Utils.angleToEqualizeZ (THREE.mkVector3 0 0 0) (THREE.mkVector3 0 1 1)
     = 3 * PI / 4
  /\ 2356 / 1000 < 3 * PI / 4 < 2357 / 1000.
Proof.
  split; [reflexivity|]. split.
  - unfold Utils.angleToEqualizeZ; simpl.
    replace (1 - 0) with 1 by ring. replace (0 - 1) with (-1) by ring.
    apply atan2_1_m1.
  - pose proof PI4_bounds. lra.
Qed.

(** Claim C3, as the code has it.  A call of [animateRotation] with a
    callback starts one tween of 1 second and then calls the callback,
    once, during the call itself: the callback runs at the instant the
    tween starts, 1000 ms before the interpolation ends. *)
Theorem animateRotation_callback_immediate {Obj CB : Type} (object : Obj)
    (angle : R) (axis : string) (cb : CB) (now : Z) :
  let effects := Utils.animateRotation object angle axis (Some cb) in
  (exists vars, effects = [Utils.GsapTo object vars; Utils.Invoke cb]
                /\ Utils.duration vars = 1%Z)
  /\ Utils.callbackTimes now effects = [now]
  /\ Utils.tweenEnds now effects = [(now + 1000)%Z].
Proof.
  unfold Utils.animateRotation.
  destruct (String.eqb axis "x"); [|destruct (String.eqb axis "y"); [|destruct (String.eqb axis "z")]];
    (split; [eexists; split; reflexivity|split; reflexivity]).
Qed.

Lemma animateRotation_callback_before_end :
  ~ Forall (fun t => Forall (fun e => (e <= t)%Z)
                       (Utils.tweenEnds 0%Z (Utils.animateRotation tt 0 "x" (Some tt))))
      (Utils.callbackTimes 0%Z (Utils.animateRotation tt 0 "x" (Some tt))).
Proof.
  simpl. intros H. inversion H as [|? ? H1 _]; subst.
  inversion H1 as [|? ? H2 _]; subst. unfold Utils.tweenEnd in H2. simpl in H2. lia.
Qed.

End Angles.

Section Phase2.
Local Open Scope R_scope.

Lemma deref_ok (st : App.State) (pts : list App.Ref) i (r : App.Ref) v :
  nth_error pts i = Some r -> nth_error (App.heap st) r = Some v ->
  App.deref st pts i = JS.Ok v.
Proof. intros H1 H2. unfold App.deref. rewrite H1, H2. reflexivity. Qed.

Lemma applyAxisAngleAt_ok (st : App.State) (pts : list App.Ref) i (r : App.Ref) v axis angle :
  nth_error pts i = Some r -> nth_error (App.heap st) r = Some v ->
  App.applyAxisAngleAt st pts i axis angle
  = JS.Ok (App.setHeap st
             (JS.assign (App.heap st) r (THREE.applyAxisAngle v axis angle))).
Proof. intros H1 H2. unfold App.applyAxisAngleAt. rewrite H1, H2. reflexivity. Qed.

(** The callback of Phase 1 rotates both points in place. *)
Lemma runCallback_ok (st : App.State) (r0 r1 : App.Ref) rest p0 p1 angle :
  r0 <> r1 ->
  nth_error (App.heap st) r0 = Some p0 ->
  nth_error (App.heap st) r1 = Some p1 ->
  App.runCallback (App.Phase1Done (r0 :: r1 :: rest) angle) st
  = JS.Ok (App.setTimeout
             (App.setPoints
                (App.setHeap st
                   (JS.assign (JS.assign (App.heap st) r0 (App.rotateX angle p0))
                      r1 (App.rotateX angle p1)))
                (r0 :: r1 :: rest))
             (App.Phase2 (r0 :: r1 :: rest)) 1000).
Proof.
  intros Hne H0 H1. unfold App.runCallback.
  rewrite (applyAxisAngleAt_ok st _ 0 r0 p0) by (first [reflexivity | assumption]).
  cbn [JS.bind].
  rewrite (applyAxisAngleAt_ok _ _ 1%nat r1 p1);
    [reflexivity | reflexivity |].
  cbn [App.setHeap App.heap]. rewrite nth_error_assign_ne by exact Hne. exact H1.
Qed.

Lemma exec_animateRotation_x (st : App.State) obj angle cb :
  App.exec (Utils.animateRotation obj angle "x" (Some cb)) st
  = JS.bind
      (App.runCallback cb
         (App.logInvoke
            (App.addTween st
               (App.mkTween obj
                  (Utils.mkTweenVars (Some angle) None None 1 "power2.inOut")
                  (App.now st))) cb))
      (fun st' => JS.Ok st').
Proof. reflexivity. Qed.

Lemma exec_animateRotation_z (st : App.State) obj angle :
  App.exec (Utils.animateRotation obj angle "z" None) st
  = JS.Ok (App.addTween st
             (App.mkTween obj
                (Utils.mkTweenVars None None (Some angle) 1 "power2.inOut")
                (App.now st))).
Proof. reflexivity. Qed.

Lemma alignThenPhase2_tweens (st : App.State) (r0 r1 : App.Ref)
    (rest : list App.Ref) (p0 p1 : THREE.Vector3 R) :
  App.points st = Some (r0 :: r1 :: rest) ->
  App.aligned st = Some true ->
  App.timers st = [] ->
  r0 <> r1 ->
  nth_error (App.heap st) r0 = Some p0 ->
  nth_error (App.heap st) r1 = Some p1 ->
  let angleX := Utils.angleToEqualizeZ p0 p1 in
  let angleZ := Utils.angleZToEqualizeX (App.rotateX angleX p0) (App.rotateX angleX p1) in
  exists st2,
    App.alignThenPhase2 st = JS.Ok st2
    /\ App.tweens st2
       = App.tweens st
         ++ [App.mkTween App.GlbScene
               (Utils.mkTweenVars (Some angleX) None None 1 "power2.inOut")
               (App.now st);
             App.mkTween App.Group
               (Utils.mkTweenVars None None (Some angleZ) 1 "power2.inOut")
               (App.now st + 1000)%Z]
    /\ App.invoked st2
       = App.invoked st ++ [(App.now st, App.Phase1Done (r0 :: r1 :: rest) angleX)].
Proof.
  intros Hpts Hal Htm Hne H0 H1 angleX angleZ.
  assert (Hlt0 : (r0 < length (App.heap st))%nat)
    by (apply nth_error_Some; congruence).
  assert (Hlt1 : (r1 < length (App.heap st))%nat)
    by (apply nth_error_Some; congruence).
  unfold App.alignThenPhase2, App.alignEffect.
  rewrite Hpts, Hal.
  rewrite (deref_ok st _ 0 r0 p0), (deref_ok st _ 1%nat r1 p1)
    by (first [reflexivity | assumption]).
  cbn [JS.bind]. fold angleX.
  rewrite exec_animateRotation_x.
  rewrite (runCallback_ok _ r0 r1 rest p0 p1) by assumption.
  cbn [JS.bind]. unfold App.fireTimer.
  cbn [App.timers App.setTimeout App.setPoints App.setHeap App.logInvoke App.addTween].
  rewrite Htm. cbn [app]. unfold App.runTimer.
  rewrite (deref_ok _ _ 0 r0 (App.rotateX angleX p0)),
          (deref_ok _ _ 1%nat r1 (App.rotateX angleX p1)).
  - cbn [JS.bind]. fold angleZ. rewrite exec_animateRotation_z.
    eexists. split; [reflexivity|].
    cbn [App.tweens App.invoked App.addTween App.popTimer App.now
         App.setTimeout App.setPoints App.setHeap App.logInvoke].
    rewrite Z.max_r by lia. rewrite <- app_assoc. split; reflexivity.
  - reflexivity.
  - cbn [App.heap App.popTimer App.setTimeout App.setPoints App.setHeap
         App.logInvoke App.addTween].
    apply nth_error_assign_eq. rewrite assign_length. exact Hlt1.
  - reflexivity.
  - cbn [App.heap App.popTimer App.setTimeout App.setPoints App.setHeap
         App.logInvoke App.addTween].
    rewrite nth_error_assign_ne by congruence.
    apply nth_error_assign_eq. exact Hlt0.
Qed.


Lemma rotateX_formula (angle : R) (p : THREE.Vector3 R) :
  App.rotateX angle p
  = THREE.mkVector3 (THREE.x p)
      (THREE.y p * cos angle - THREE.z p * sin angle)
      (THREE.y p * sin angle + THREE.z p * cos angle).
Proof.
  unfold App.rotateX, THREE.applyAxisAngle, THREE.applyQuaternion,
    THREE.setFromAxisAngle.
  cbn [THREE.qx THREE.qy THREE.qz THREE.qw THREE.x THREE.y THREE.z].
  replace (cos angle) with (1 - 2 * sin (angle / 2) * sin (angle / 2))
    by (rewrite <- cos_2a_sin; f_equal; field).
  replace (sin angle) with (2 * sin (angle / 2) * cos (angle / 2))
    by (rewrite <- sin_2a; f_equal; field).
  f_equal; ring.
Qed.

(** The angle of Phase 2 is computed from the rotated objects. *)
Lemma phase2Angle_rotated (st : App.State) (r0 r1 : App.Ref)
    (rest : list App.Ref) (p0 p1 : THREE.Vector3 R) :
  App.points st = Some (r0 :: r1 :: rest) ->
  App.aligned st = Some true ->
  App.timers st = [] ->
  r0 <> r1 ->
  nth_error (App.heap st) r0 = Some p0 ->
  nth_error (App.heap st) r1 = Some p1 ->
  App.phase2Angle st
  = JS.Ok (Some (Utils.angleZToEqualizeX
                   (App.rotateX (Utils.angleToEqualizeZ p0 p1) p0)
                   (App.rotateX (Utils.angleToEqualizeZ p0 p1) p1))).
Proof.
  intros Hpts Hal Htm Hne H0 H1.
  destruct (alignThenPhase2_tweens st r0 r1 rest p0 p1 Hpts Hal Htm Hne H0 H1)
    as (st2 & Hrun & Htw & _).
  unfold App.phase2Angle. rewrite Hrun. cbn [JS.bind].
  unfold App.tweenAngle. rewrite Htw, rev_app_distr. reflexivity.
Qed.

(** Claim C4, as the code has it.  With two landmark points held by
    distinct objects, Phase 1 rotates the scene by
    [angleX = angleToEqualizeZ p0 p1] and its callback rotates the two
    point objects in place about the X axis by [angleX]; the timer of
    Phase 2 reads the same objects, so the Phase-2 angle is
    [atan2 (x0 - x1) (y0' - y1')] on the rotated coordinates
    [y' = y * cos angleX - z * sin angleX]. *)
Theorem phase2_angle_from_rotated_points (st : App.State) (r0 r1 : App.Ref)
    (rest : list App.Ref) (p0 p1 : THREE.Vector3 R) :
  App.points st = Some (r0 :: r1 :: rest) ->
  App.aligned st = Some true ->
  App.timers st = [] ->
  r0 <> r1 ->
  nth_error (App.heap st) r0 = Some p0 ->
  nth_error (App.heap st) r1 = Some p1 ->
  let angleX := Utils.angleToEqualizeZ p0 p1 in
  App.phase1Angle st = JS.Ok (Some angleX)
  /\ App.phase2Angle st
     = JS.Ok (Some (Utils.angleZToEqualizeX (App.rotateX angleX p0)
                      (App.rotateX angleX p1)))
  /\ App.phase2Angle st
     = JS.Ok (Some (Utils.atan2
                      (THREE.x p0 - THREE.x p1)
                      ((THREE.y p0 * cos angleX - THREE.z p0 * sin angleX)
                       - (THREE.y p1 * cos angleX - THREE.z p1 * sin angleX)))).
Proof.
  intros Hpts Hal Htm Hne H0 H1 angleX.
  pose proof (phase2Angle_rotated st r0 r1 rest p0 p1 Hpts Hal Htm Hne H0 H1)
    as H2.
  fold angleX in H2.
  split; [|split].
  - destruct (alignThenPhase2_tweens st r0 r1 rest p0 p1 Hpts Hal Htm Hne H0 H1)
      as (st2 & Hrun & Htw & _).
    unfold App.phase1Angle. rewrite Hrun. cbn [JS.bind].
    unfold App.tweenAngle. rewrite Htw, rev_app_distr. reflexivity.
  - exact H2.
  - rewrite H2. rewrite !rotateX_formula. reflexivity.
Qed.

Lemma phase2_angle_from_rotated_points_witness :
  App.phase2Angle
    (App.landmarkState (THREE.mkVector3 1 0 0) (THREE.mkVector3 0 1 0))
  = JS.Ok (Some (Utils.angleZToEqualizeX
                   (App.rotateX (Utils.angleToEqualizeZ (THREE.mkVector3 1 0 0)
                               (THREE.mkVector3 0 1 0))
                      (THREE.mkVector3 1 0 0))
                   (App.rotateX (Utils.angleToEqualizeZ (THREE.mkVector3 1 0 0)
                               (THREE.mkVector3 0 1 0))
                      (THREE.mkVector3 0 1 0)))).
Proof.
  apply (phase2_angle_from_rotated_points
           (App.landmarkState (THREE.mkVector3 1 0 0) (THREE.mkVector3 0 1 0))
           0%nat 1%nat [] (THREE.mkVector3 1 0 0) (THREE.mkVector3 0 1 0));
    first [reflexivity | discriminate].
Defined.

(** Claim C4 as stated fails: for the points (1,0,0) and (0,1,0) the
    Phase-2 angle of the code is not the angle of the original
    coordinates (it is [PI / 4], the original coordinates give
    [3 * PI / 4]). *)
Lemma phase2_angle_not_from_original_points :
  App.phase2Angle
    (App.landmarkState (THREE.mkVector3 1 0 0) (THREE.mkVector3 0 1 0))
  <> JS.Ok (Some (Utils.angleZToEqualizeX (THREE.mkVector3 1 0 0)
                    (THREE.mkVector3 0 1 0))).
Proof.
  rewrite (phase2Angle_rotated
             (App.landmarkState (THREE.mkVector3 1 0 0) (THREE.mkVector3 0 1 0))
             0%nat 1%nat [] (THREE.mkVector3 1 0 0) (THREE.mkVector3 0 1 0))
    by first [reflexivity | discriminate].
  assert (HX : Utils.angleToEqualizeZ (THREE.mkVector3 1 0 0)
                 (THREE.mkVector3 0 1 0) = PI).
  { unfold Utils.angleToEqualizeZ. cbn [THREE.x THREE.y THREE.z].
    replace (0 - 0) with 0 by ring. replace (0 - 1) with (-1) by ring.
    apply atan2_0_m1. }
  rewrite HX, !rotateX_formula. cbn [THREE.x THREE.y THREE.z].
  rewrite cos_PI, sin_PI.
  unfold Utils.angleZToEqualizeX. cbn [THREE.x THREE.y THREE.z].
  replace (0 * -1 - 0 * 0 - (1 * -1 - 0 * 0)) with 1 by ring.
  replace (1 - 0) with 1 by ring. replace (0 - 1) with (-1) by ring.
  rewrite atan2_1_1, atan2_1_m1.
  intros E. injection E as E. pose proof PI_RGT_0. lra.
Qed.

End Phase2.

Section PlaneFacts.
Local Open Scope Q_scope.

Lemma Qltb_true (a b : Q) : THREE.Qltb a b = true <-> a < b.
Proof.
  unfold THREE.Qltb. rewrite negb_true_iff.
  split; intros H.
  - apply Qnot_le_lt. intros Hle. apply Qle_bool_iff in Hle. congruence.
  - destruct (Qle_bool b a) eqn:E; [|reflexivity].
    apply Qle_bool_iff in E. exfalso. apply (Qlt_not_le _ _ H E).
Qed.

Lemma Qltb_false (a b : Q) : THREE.Qltb a b = false <-> b <= a.
Proof.
  unfold THREE.Qltb. rewrite negb_false_iff. apply Qle_bool_iff.
Qed.

Lemma Qeq_bool_false (a b : Q) : Qeq_bool a b = false <-> ~ a == b.
Proof.
  split.
  - apply Qeq_bool_neq.
  - intros H. destruct (Qeq_bool a b) eqn:E; [|reflexivity].
    apply Qeq_bool_iff in E. contradiction.
Qed.

Variable p : THREE.Plane.
Variables s e : THREE.Vector3 Q.

Let ds := THREE.distanceToPoint p s.
Let de := THREE.distanceToPoint p e.

Lemma denominator_eq :
  THREE.dot (THREE.normal p) (THREE.delta (THREE.mkLine3 s e)) == de - ds.
Proof.
  unfold ds, de, THREE.distanceToPoint, THREE.dot, THREE.delta, THREE.sub.
  simpl. ring.
Qed.

Lemma numerator_eq :
  THREE.dot s (THREE.normal p) + THREE.constant p == ds.
Proof.
  unfold ds, THREE.distanceToPoint, THREE.dot. ring.
Qed.

Lemma distance_addScaled (t : Q) :
  THREE.distanceToPoint p
    (THREE.addScaledVector s (THREE.delta (THREE.mkLine3 s e)) t)
  == ds + (de - ds) * t.
Proof.
  unfold ds, de, THREE.distanceToPoint, THREE.dot, THREE.addScaledVector,
    THREE.delta, THREE.sub.
  simpl. ring.
Qed.

Lemma intersectLine_straddle :
  (0 <= ds /\ de <= 0) \/ (ds <= 0 /\ 0 <= de) ->
  exists q, THREE.intersectLine p (THREE.mkLine3 s e) = Some q
            /\ THREE.distanceToPoint p q == 0.
Proof.
  intros Hs. unfold THREE.intersectLine.
  pose proof denominator_eq as Hden. pose proof numerator_eq as Hnum.
  cbn [THREE.start].
  set (den := THREE.dot (THREE.normal p) (THREE.delta (THREE.mkLine3 s e))) in *.
  set (num := THREE.dot s (THREE.normal p) + THREE.constant p) in *.
  destruct (Qeq_bool den 0) eqn:E0.
  - apply Qeq_bool_iff in E0.
    assert (Hz : ds == 0) by lra.
    fold ds. destruct (Qeq_bool ds 0) eqn:E1.
    + exists s. split; [reflexivity|exact Hz].
    + apply Qeq_bool_false in E1. contradiction.
  - apply Qeq_bool_false in E0.
    set (t := - num / den).
    assert (Ht : t * den == - num) by (unfold t; field; exact E0).
    assert (H0 : 0 <= t) by (destruct Hs; nra).
    assert (H1 : t <= 1) by (destruct Hs; nra).
    assert (Hb : THREE.Qltb t 0 || THREE.Qltb 1 t = false).
    { apply orb_false_iff. split; apply Qltb_false; assumption. }
    rewrite Hb. eexists. split; [reflexivity|].
    rewrite distance_addScaled. fold t. nra.
Qed.

Lemma intersectLine_same_side :
  (0 < ds /\ 0 < de) \/ (ds < 0 /\ de < 0) ->
  THREE.intersectLine p (THREE.mkLine3 s e) = None.
Proof.
  intros Hs. unfold THREE.intersectLine.
  pose proof denominator_eq as Hden. pose proof numerator_eq as Hnum.
  cbn [THREE.start].
  set (den := THREE.dot (THREE.normal p) (THREE.delta (THREE.mkLine3 s e))) in *.
  set (num := THREE.dot s (THREE.normal p) + THREE.constant p) in *.
  destruct (Qeq_bool den 0) eqn:E0.
  - fold ds. destruct (Qeq_bool ds 0) eqn:E1; [|reflexivity].
    apply Qeq_bool_iff in E1. lra.
  - apply Qeq_bool_false in E0.
    set (t := - num / den).
    assert (Ht : t * den == - num) by (unfold t; field; exact E0).
    assert (Hb : THREE.Qltb t 0 || THREE.Qltb 1 t = true).
    { apply orb_true_iff.
      destruct (Qlt_le_dec t 0) as [Hl|Hl]; [left; apply Qltb_true; exact Hl|].
      right. apply Qltb_true. destruct Hs; nra. }
    rewrite Hb. reflexivity.
Qed.

End PlaneFacts.

Section Distance.

Lemma distanceToSquared_nonneg (a b : THREE.Vector3 Q) :
  (0 <= THREE.distanceToSquared a b)%Q.
Proof.
  unfold THREE.distanceToSquared. cbv zeta.
  generalize (THREE.x a - THREE.x b)%Q (THREE.y a - THREE.y b)%Q
    (THREE.z a - THREE.z b)%Q.
  intros dx dy dz.
  assert (forall q : Q, (0 <= q * q)%Q) as Hsq.
  { intros q. destruct (Qlt_le_dec q 0) as [Hq|Hq].
    - setoid_replace (q * q)%Q with ((- q) * (- q))%Q by ring.
      apply Qmult_le_0_compat; lra.
    - apply Qmult_le_0_compat; assumption. }
  pose proof (Hsq dx). pose proof (Hsq dy). pose proof (Hsq dz). lra.
Qed.

(** The test on squares is the test [a.distanceTo(b) < t] of the code. *)
Lemma distanceToLt_sqrt (a b : THREE.Vector3 Q) (t : Q) :
  THREE.distanceToLt a b t = true
  <-> (sqrt (Q2R (THREE.distanceToSquared a b)) < Q2R t)%R.
Proof.
  unfold THREE.distanceToLt. rewrite andb_true_iff, !Qltb_true.
  pose proof (Qle_Rle _ _ (distanceToSquared_nonneg a b)) as Hd.
  rewrite RMicromega.Q2R_0 in Hd.
  set (d := THREE.distanceToSquared a b) in *.
  split.
  - intros [Ht Hlt]. apply Qlt_Rlt in Ht, Hlt.
    rewrite RMicromega.Q2R_0 in Ht. rewrite Q2R_mult in Hlt.
    rewrite <- (sqrt_square (Q2R t)) by lra.
    apply sqrt_lt_1_alt. lra.
  - intros H. pose proof (sqrt_pos (Q2R d)) as Hp.
    pose proof (sqrt_sqrt (Q2R d) Hd) as Hs.
    split; apply Rlt_Qlt.
    + rewrite RMicromega.Q2R_0. lra.
    + rewrite Q2R_mult. nra.
Qed.

End Distance.

Section Crossings.
Local Open Scope Q_scope.

Variable plane : THREE.Plane.

Lemma straddles_spec (s e : ClipPlane.Point3) :
  ClipPlane.straddles plane s e = true
  <-> (0 <= THREE.distanceToPoint plane s /\ THREE.distanceToPoint plane e <= 0)
      \/ (THREE.distanceToPoint plane s <= 0 /\ 0 <= THREE.distanceToPoint plane e).
Proof.
  unfold ClipPlane.straddles.
  rewrite orb_true_iff, !andb_true_iff, !Qle_bool_iff. reflexivity.
Qed.

Lemma intersectLine_crossingPoint (s e : ClipPlane.Point3) :
  ClipPlane.straddles plane s e = true ->
  THREE.intersectLine plane (THREE.mkLine3 s e)
  = Some (ClipPlane.crossingPoint plane s e)
  /\ THREE.distanceToPoint plane (ClipPlane.crossingPoint plane s e) == 0.
Proof.
  intros Hs. apply straddles_spec in Hs.
  destruct (intersectLine_straddle plane s e Hs) as (q & Hq & Hd).
  assert (E : q = ClipPlane.crossingPoint plane s e).
  { revert Hq. unfold THREE.intersectLine, ClipPlane.crossingPoint, THREE.delta.
    cbn [THREE.start THREE.end_].
    destruct (Qeq_bool _ 0).
    - destruct (Qeq_bool _ 0); congruence.
    - destruct (_ || _); congruence. }
  subst q. split; assumption.
Qed.

(** The scan of an edge adds the crossing point exactly when the edge
    straddles the plane. *)
Lemma crossEdge_head (s e : ClipPlane.Point3) (rest acc : list ClipPlane.Point3) :
  ClipPlane.crossEdge (s :: e :: rest) plane acc 0
  = acc ++ (if ClipPlane.straddles plane s e
            then [ClipPlane.crossingPoint plane s e] else []).
Proof.
  unfold ClipPlane.crossEdge. cbn [nth_error Nat.add].
  fold (ClipPlane.straddles plane s e).
  destruct (ClipPlane.straddles plane s e) eqn:Hs.
  - destruct (intersectLine_crossingPoint s e Hs) as [-> _]. reflexivity.
  - symmetry. apply app_nil_r.
Qed.

Lemma crossEdge_shift (s : ClipPlane.Point3) (pts acc : list ClipPlane.Point3)
    (a k : nat) :
  fold_left (ClipPlane.crossEdge (s :: pts) plane) (seq (S a) k) acc
  = fold_left (ClipPlane.crossEdge pts plane) (seq a k) acc.
Proof.
  revert a acc. induction k as [|k IH]; intros a acc; [reflexivity|].
  cbn [seq fold_left]. rewrite IH. reflexivity.
Qed.

Lemma crossEdge_fold (pts acc : list ClipPlane.Point3) :
  fold_left (ClipPlane.crossEdge pts plane) (seq 0 (length pts - 1)) acc
  = acc ++ ClipPlane.crossings plane pts.
Proof.
  revert acc. induction pts as [|s pts IH]; intros acc.
  - simpl. symmetry. apply app_nil_r.
  - destruct pts as [|e rest].
    + simpl. symmetry. apply app_nil_r.
    + replace (length (s :: e :: rest) - 1)%nat
        with (S (length (e :: rest) - 1)) by (simpl; lia).
      cbn [seq fold_left]. rewrite crossEdge_head, crossEdge_shift, IH.
      rewrite <- app_assoc. reflexivity.
Qed.

End Crossings.

Section AnyArithmetic.

Context {Point Plane Number : Type}.
Variable nonNegative : Number -> bool.
Variable nonPositive : Number -> bool.
Variable distanceToPoint : Plane -> Point -> Number.
Variable intersectLine : Plane -> Point -> Point -> option Point.
Variable plane : Plane.

Abbreviation crossEdgeWith :=
  (ClipPlane.crossEdgeWith nonNegative nonPositive distanceToPoint
     intersectLine).
Abbreviation emitted :=
  (ClipPlane.emitted nonNegative nonPositive distanceToPoint intersectLine).

(** The scan of the first edge. *)
Lemma crossEdgeWith_head (s e : Point) (rest acc : list Point) :
  crossEdgeWith (s :: e :: rest) plane acc 0 = acc ++ emitted plane [s; e].
Proof.
  unfold ClipPlane.crossEdgeWith, ClipPlane.emitted, ClipPlane.signsDiffer,
    ClipPlane.consecutive.
  cbn [nth_error Nat.add tl combine flat_map fst snd].
  destruct (_ || _).
  - destruct (intersectLine plane s e); rewrite ?app_nil_r; reflexivity.
  - rewrite app_nil_r. reflexivity.
Qed.

Lemma crossEdgeWith_shift (s : Point) (pts acc : list Point) (a k : nat) :
  fold_left (crossEdgeWith (s :: pts) plane) (seq (S a) k) acc
  = fold_left (crossEdgeWith pts plane) (seq a k) acc.
Proof.
  revert a acc. induction k as [|k IH]; intros a acc; [reflexivity|].
  cbn [seq fold_left]. rewrite IH. reflexivity.
Qed.

Lemma emitted_cons (s e : Point) (rest : list Point) :
  emitted plane (s :: e :: rest)
  = emitted plane [s; e] ++ emitted plane (e :: rest).
Proof.
  unfold ClipPlane.emitted, ClipPlane.consecutive.
  cbn [tl combine flat_map]. rewrite app_nil_r. reflexivity.
Qed.

(** The loop over the indices visits the consecutive pairs in order. *)
Lemma crossEdgeWith_fold (pts acc : list Point) :
  fold_left (crossEdgeWith pts plane) (seq 0 (length pts - 1)) acc
  = acc ++ emitted plane pts.
Proof.
  revert acc. induction pts as [|s pts IH]; intros acc.
  - simpl. symmetry. apply app_nil_r.
  - destruct pts as [|e rest].
    + simpl. symmetry. apply app_nil_r.
    + replace (length (s :: e :: rest) - 1)%nat
        with (S (length (e :: rest) - 1)) by (simpl; lia).
      cbn [seq fold_left].
      rewrite crossEdgeWith_head, crossEdgeWith_shift, IH.
      rewrite (emitted_cons s e rest), app_assoc. reflexivity.
Qed.

End AnyArithmetic.

(** On doubles the ends of [grazingEdge] are on opposite sides of
    [tiltedPlane], yet the rounded [t] is above 1 and the edge gives no
    point. *)
Lemma rounding_drops_a_crossing :
  ClipPlane.signsDiffer Doubles.nonNegative Doubles.nonPositive
    Doubles.distanceToPoint Examples.tiltedPlane
    Examples.grazingStart Examples.grazingEnd
  = true
  /\ Doubles.getContourPlaneIntersection (Some Examples.grazingEdge)
       Examples.tiltedPlane
     = JS.Ok [].
Proof.
  split; vm_compute; reflexivity.
Qed.


Section Triangles.
Local Open Scope Q_scope.

Variable mesh : ClipPlane.Mesh.
Variable localPlane : THREE.Plane.

Lemma edgePoints_length (tri : THREE.Triangle) :
  (length (ClipPlane.edgePoints localPlane tri) <= 3)%nat.
Proof.
  unfold ClipPlane.edgePoints. cbn [fold_left fst snd].
  repeat match goal with
         | |- context [THREE.intersectLine ?p ?l] =>
             destruct (THREE.intersectLine p l)
         end; cbn [app length]; lia.
Qed.

Lemma deduplicate_length (points : list ClipPlane.Point3) :
  (length points <= 3)%nat ->
  (length (ClipPlane.deduplicate points) <= 2)%nat
  /\ (length points = 3%nat -> length (ClipPlane.deduplicate points) = 2%nat)
  /\ (length points <> 3%nat -> ClipPlane.deduplicate points = points).
Proof.
  intros H.
  destruct points as [|p0 [|p1 [|p2 [|p3 l]]]]; cbn [length] in *;
    try (split; [cbn; lia | split; [lia | reflexivity]]); try lia.
  unfold ClipPlane.deduplicate.
  destruct (THREE.distanceToLt p0 p1 _); [|destruct (THREE.distanceToLt p1 p2 _)];
    (split; [cbn; lia | split; [reflexivity | cbn; lia]]).
Qed.

Lemma strictlyOnSide_edgePoints (sign : bool) (tri : THREE.Triangle) :
  ClipPlane.strictlyOnSide sign localPlane tri = true ->
  ClipPlane.edgePoints localPlane tri = [].
Proof.
  unfold ClipPlane.strictlyOnSide. rewrite !andb_true_iff.
  intros [[Ha Hb] Hc].
  assert (Hside :
    (0 < THREE.distanceToPoint localPlane (THREE.a tri)
     /\ 0 < THREE.distanceToPoint localPlane (THREE.b tri)
     /\ 0 < THREE.distanceToPoint localPlane (THREE.c tri))
    \/ (THREE.distanceToPoint localPlane (THREE.a tri) < 0
        /\ THREE.distanceToPoint localPlane (THREE.b tri) < 0
        /\ THREE.distanceToPoint localPlane (THREE.c tri) < 0)).
  { destruct sign; [left|right]; repeat split; apply Qltb_true; assumption. }
  unfold ClipPlane.edgePoints. cbn [fold_left fst snd].
  rewrite !intersectLine_same_side; [reflexivity| | |]; tauto.
Qed.

Lemma intersectsTriangle_miss (sign : bool) (tri : THREE.Triangle)
    (segs : list (ClipPlane.Segment ClipPlane.Point3)) :
  ClipPlane.strictlyOnSide sign localPlane tri = true ->
  ClipPlane.intersectsTriangle mesh localPlane segs tri = segs.
Proof.
  intros H. unfold ClipPlane.intersectsTriangle.
  rewrite (strictlyOnSide_edgePoints sign tri H). reflexivity.
Qed.

Lemma fold_intersectsTriangle_miss (sign : bool) (tris : list THREE.Triangle)
    (segs : list (ClipPlane.Segment ClipPlane.Point3)) :
  forallb (ClipPlane.strictlyOnSide sign localPlane) tris = true ->
  fold_left (ClipPlane.intersectsTriangle mesh localPlane) tris segs = segs.
Proof.
  revert segs. induction tris as [|t l IH]; intros segs H; [reflexivity|].
  cbn [forallb] in H. apply andb_true_iff in H as [H1 H2].
  cbn [fold_left]. rewrite (intersectsTriangle_miss sign t segs H1). auto.
Qed.

Lemma shapecast_miss (sign : bool) (keep : THREE.Box3 -> bool)
    (n : MeshBVH.Node) (segs : list (ClipPlane.Segment ClipPlane.Point3)) :
  forallb (ClipPlane.strictlyOnSide sign localPlane) (ClipPlane.triangles n)
  = true ->
  MeshBVH.shapecast keep (ClipPlane.intersectsTriangle mesh localPlane) n segs
  = segs.
Proof.
  revert segs. induction n as [bx tris|bx l IHl r IHr]; intros segs H.
  - apply (fold_intersectsTriangle_miss sign). exact H.
  - cbn [ClipPlane.triangles] in H. rewrite forallb_app in H.
    apply andb_true_iff in H as [Hl Hr].
    cbn [MeshBVH.shapecast].
    destruct (keep (MeshBVH.bounds l)); destruct (keep (MeshBVH.bounds r));
      rewrite ?IHl, ?IHr; auto.
Qed.

End Triangles.

Lemma contourSegments_miss (mesh : ClipPlane.Mesh) (plane : THREE.Plane) :
  ClipPlane.planeMissesMesh mesh plane = true ->
  ClipPlane.contourSegments mesh plane = [].
Proof.
  unfold ClipPlane.planeMissesMesh, ClipPlane.contourSegments.
  intros H. apply orb_true_iff in H as [H|H].
  - apply (shapecast_miss mesh _ true). exact H.
  - apply (shapecast_miss mesh _ false). exact H.
Qed.

(** Claim C6 against the code.  When the plane misses the mesh, the
    extraction collects no segment, [getIntersectionContour] returns
    [undefined] (the first element of an empty array), and the
    contour-plane intersection applied to it throws a [TypeError]. *)
Theorem plane_missing_mesh_breaks_pipeline (mesh : ClipPlane.Mesh)
    (plane secondPlane : THREE.Plane) :
  ClipPlane.planeMissesMesh mesh plane = true ->
  ClipPlane.contourSegments mesh plane = []
  /\ ClipPlane.getIntersectionContour mesh plane = None
  /\ JS.isOk (ClipPlane.getContourPlaneIntersection
                (ClipPlane.getIntersectionContour mesh plane) secondPlane)
     = false.
Proof.
  intros H. pose proof (contourSegments_miss mesh plane H) as Hs.
  assert (Hc : ClipPlane.getIntersectionContour mesh plane = None).
  { unfold ClipPlane.getIntersectionContour. rewrite Hs. reflexivity. }
  rewrite Hc. repeat split; auto.
Qed.

Lemma plane_missing_mesh_breaks_pipeline_witness :
  ClipPlane.planeMissesMesh (Examples.meshOf [Examples.highTriangle])
    Examples.planeZ0 = true
  /\ ClipPlane.getContourPlaneIntersection
       (ClipPlane.getIntersectionContour
          (Examples.meshOf [Examples.highTriangle]) Examples.planeZ0)
       Examples.planeX0
     = JS.TypeError "Cannot read properties of undefined (reading 'length')".
Proof.
  split; [reflexivity|].
  destruct (plane_missing_mesh_breaks_pipeline
              (Examples.meshOf [Examples.highTriangle]) Examples.planeZ0
              Examples.planeX0 eq_refl) as (_ & -> & _).
  reflexivity.
Defined.

(** Claim C2, as the code has it.  A triangle collects at most 3 points.
    With 3 points the second is removed when it is within [1e-5] of the
    first, else the third when it is within [1e-5] of the second, else
    the first one without any distance test; 2 points remain.  A segment
    is stored exactly when 2 points are left, from these 2 points. *)
Theorem deduplicate_keeps_two (mesh : ClipPlane.Mesh)
    (localPlane : THREE.Plane) (tri : THREE.Triangle)
    (segs : list (ClipPlane.Segment ClipPlane.Point3)) :
  let points := ClipPlane.edgePoints localPlane tri in
  let kept := ClipPlane.deduplicate points in
  (length points <= 3)%nat
  /\ match points with
     | [p0; p1; p2] =>
         kept = (if THREE.distanceToLt p0 p1 ClipPlane.dedupTolerance
                 then [p0; p2]
                 else if THREE.distanceToLt p1 p2 ClipPlane.dedupTolerance
                      then [p0; p1]
                      else [p1; p2])
         /\ length kept = 2%nat
     | _ => kept = points /\ (length kept <= 2)%nat
     end
  /\ match kept with
     | [q0; q1] =>
         ClipPlane.intersectsTriangle mesh localPlane segs tri
         = segs ++ [ClipPlane.mkSegment (ClipPlane.toWorld mesh q0)
                      (ClipPlane.toWorld mesh q1)]
     | _ =>
         (length kept < 2)%nat
         /\ ClipPlane.intersectsTriangle mesh localPlane segs tri = segs
     end.
Proof.
  intros points kept.
  pose proof (edgePoints_length localPlane tri) as Hlen. fold points in Hlen.
  destruct (deduplicate_length points Hlen) as (H2 & H3 & Hn). fold kept in H2, H3, Hn.
  split; [exact Hlen|]. split.
  - destruct points as [|p0 [|p1 [|p2 [|p3 l]]]]; cbn [length] in *;
      try (split; [apply Hn; lia | lia]).
    split; [reflexivity | apply H3; reflexivity].
  - unfold ClipPlane.intersectsTriangle. fold points. fold kept.
    destruct kept as [|q0 [|q1 [|q2 l]]]; cbn [length] in *;
      try (split; [lia | reflexivity]); try reflexivity; lia.
Qed.

(** Claim C2 as stated fails: for a triangle lying in the plane the
    three edges report the three vertices, and the vertex that is
    discarded is at distance 1 from both others, far beyond [1e-5]. *)
Lemma deduplicate_discards_distant_point :
  ClipPlane.edgePoints Examples.planeZ0 Examples.coplanarTriangle
  = [Examples.vec 0 0 0; Examples.vec 1 0 0; Examples.vec 0 1 0]
  /\ ClipPlane.deduplicate
       (ClipPlane.edgePoints Examples.planeZ0 Examples.coplanarTriangle)
     = [Examples.vec 1 0 0; Examples.vec 0 1 0]
  /\ THREE.distanceToLt (Examples.vec 0 0 0) (Examples.vec 1 0 0)
       ClipPlane.dedupTolerance = false
  /\ THREE.distanceToLt (Examples.vec 0 0 0) (Examples.vec 0 1 0)
       ClipPlane.dedupTolerance = false.
Proof. repeat split; vm_compute; reflexivity. Qed.

(** Claim C5 against the code.  When the first attempt yields no point
    the second one is made; when it yields none either, [handleApply]
    still sets [aligned] to [true] and [points] to the empty array,
    starts no rotation, and the effect that follows throws a [TypeError]
    on [points[0]]. *)
Theorem both_attempts_empty_crashes (st : App.State)
    (sel1 sel2 : App.PlaneSelection)
    (shapeA shapeB : option (list ClipPlane.Point3)) :
  App.plane1 st = Some sel1 ->
  App.plane2 st = Some sel2 ->
  App.contourOf (App.getObjectByName st (App.meshName sel1))
    (App.planeInstance sel1) = JS.Ok shapeA ->
  ClipPlane.getContourPlaneIntersection shapeA (App.planeInstance sel2)
  = JS.Ok [] ->
  App.contourOf (App.getObjectByName st (App.meshName sel2))
    (App.planeInstance sel2) = JS.Ok shapeB ->
  ClipPlane.getContourPlaneIntersection shapeB (App.planeInstance sel1)
  = JS.Ok [] ->
  exists st1,
    App.handleApply st = JS.Ok st1
    /\ App.aligned st1 = Some true
    /\ App.points st1 = Some []
    /\ App.tweens st1 = App.tweens st
    /\ App.alignEffect st1
       = JS.TypeError "Cannot read properties of undefined".
Proof.
  intros H1 H2 HA HA0 HB HB0.
  unfold App.handleApply.
  cbn [App.plane1 App.plane2 App.setActivePlane App.getObjectByName].
  rewrite H1, H2, HA. cbn [JS.bind]. rewrite HA0. cbn [JS.bind length Nat.eqb].
  rewrite HB. cbn [JS.bind]. rewrite HB0. cbn [JS.bind].
  eexists. split; [reflexivity|]. repeat split.
Qed.

Lemma both_attempts_empty_crashes_witness :
  exists st1,
    App.handleApply Examples.farApartState = JS.Ok st1
    /\ App.aligned st1 = Some true
    /\ App.points st1 = Some []
    /\ App.tweens st1 = App.tweens Examples.farApartState
    /\ App.alignEffect st1
       = JS.TypeError "Cannot read properties of undefined".
Proof.
  apply (both_attempts_empty_crashes Examples.farApartState
           Examples.selection1 Examples.selection2
           (ClipPlane.getIntersectionContour Examples.meshA
              (App.planeInstance Examples.selection1))
           (ClipPlane.getIntersectionContour Examples.meshB
              (App.planeInstance Examples.selection2)));
    vm_compute; reflexivity.
Defined.

Section UsedFlags.

Lemma nth_assign_eq {A} (l : list A) i v d :
  i < length l -> nth i (JS.assign l i v) d = v.
Proof.
  revert i; induction l as [|h t IH]; intros [|i] H; simpl in *; try lia; auto.
  apply IH; lia.
Qed.

Lemma nth_assign_ne {A} (l : list A) i j v d :
  i <> j -> nth j (JS.assign l i v) d = nth j l d.
Proof.
  revert i j; induction l as [|h t IH]; intros [|i] [|j] H; simpl; auto;
    congruence.
Qed.

Lemma unusedCount_assign (used : list bool) (i : nat) :
  i < length used -> nth i used false = false ->
  S (ClipPlane.unusedCount (JS.assign used i true)) = ClipPlane.unusedCount used.
Proof.
  unfold ClipPlane.unusedCount.
  revert i; induction used as [|u t IH]; intros [|i] H Hn; simpl in *; try lia.
  - subst u. reflexivity.
  - destruct u; simpl; rewrite <- (IH i) by (auto; lia); reflexivity.
Qed.

Lemma unusedCount_le (used : list bool) :
  ClipPlane.unusedCount used <= length used.
Proof. apply filter_length_le. Qed.

Lemma unusedCount_repeat (k : nat) :
  ClipPlane.unusedCount (repeat false k) = k.
Proof.
  unfold ClipPlane.unusedCount. induction k; simpl; congruence.
Qed.

End UsedFlags.

Section StitchFacts.

Context {Point : Type}.
Variable samePoint : Point -> Point -> bool.
Variable segments : list (ClipPlane.Segment Point).

Abbreviation tryConnect := (ClipPlane.tryConnect samePoint segments).
Abbreviation connect := (ClipPlane.connect samePoint).
Abbreviation scan := (ClipPlane.scan samePoint segments).
Abbreviation extendLoop :=
  (fun fuel => ClipPlane.extendLoop samePoint fuel segments).

Abbreviation NoMatch := (ClipPlane.NoMatch samePoint segments).

Lemma tryConnect_unfold (pl : list Point) (used : list bool) (ext : bool)
    (j : nat) :
  tryConnect (pl, used, ext) j
  = if nth j used false then (pl, used, ext)
    else match nth_error segments j with
         | None => (pl, used, ext)
         | Some s =>
             match connect pl s with
             | Some pl' => (pl', JS.assign used j true, true)
             | None => (pl, used, ext)
             end
         end.
Proof.
  unfold ClipPlane.tryConnect, ClipPlane.connect.
  destruct (nth j used false); [reflexivity|].
  destruct (nth_error segments j) as [s|]; [|reflexivity].
  repeat match goal with
         | |- context [ClipPlane.samePointAt ?f ?a ?b] =>
             destruct (ClipPlane.samePointAt f a b)
         end; reflexivity.
Qed.

(** What one step of the scan does. *)
Lemma tryConnect_cases (pl : list Point) (used : list bool) (ext : bool)
    (j : nat) :
  tryConnect (pl, used, ext) j = (pl, used, ext)
  /\ (nth j used false = true \/ nth_error segments j = None
      \/ exists s, nth_error segments j = Some s /\ connect pl s = None)
  \/ exists s pl',
       nth j used false = false /\ nth_error segments j = Some s
       /\ connect pl s = Some pl'
       /\ tryConnect (pl, used, ext) j = (pl', JS.assign used j true, true).
Proof.
  rewrite tryConnect_unfold.
  destruct (nth j used false) eqn:Hu; [left; auto|].
  destruct (nth_error segments j) as [s|] eqn:Hs; [|left; auto].
  destruct (connect pl s) as [pl'|] eqn:Hc.
  - right. exists s, pl'. auto.
  - left. split; [reflexivity|]. right. right. exists s. auto.
Qed.

Lemma fold_tryConnect_sticky (js : list nat) (pl : list Point)
    (used : list bool) :
  exists pl' used', fold_left tryConnect js (pl, used, true) = (pl', used', true).
Proof.
  revert pl used. induction js as [|j js IH]; intros pl used.
  - exists pl, used. reflexivity.
  - cbn [fold_left].
    destruct (tryConnect_cases pl used true j)
      as [[E _]|(s & pl1 & _ & _ & _ & E)]; rewrite E; apply IH.
Qed.

(** A pass that does not set [extended] changes nothing and has found no
    segment to connect. *)
Lemma fold_tryConnect_idle (js : list nat) (pl pl' : list Point)
    (used used' : list bool) :
  fold_left tryConnect js (pl, used, false) = (pl', used', false) ->
  pl' = pl /\ used' = used
  /\ forall j s, In j js -> nth j used false = false ->
                 nth_error segments j = Some s -> connect pl s = None.
Proof.
  revert pl used. induction js as [|j js IH]; intros pl used H.
  - cbn [fold_left] in H. injection H as E1 E2; subst. repeat split. intros j s [].
  - cbn [fold_left] in H.
    destruct (tryConnect_cases pl used false j)
      as [[E Hno]|(s & pl1 & _ & _ & _ & E)]; rewrite E in H.
    + destruct (IH _ _ H) as (-> & -> & Hrest). repeat split.
      intros j' s' [<-|Hin] Hu' Hs'; [|eauto].
      destruct Hno as [Hno|[Hno|(s0 & Hs0 & Hc0)]]; congruence.
    + destruct (fold_tryConnect_sticky js pl1 (JS.assign used j true))
        as (a & b & E'). congruence.
Qed.

(** A pass that sets [extended] has used up at least one segment. *)
Lemma fold_tryConnect_count (js : list nat) (pl pl' : list Point)
    (used used' : list bool) (ext ext' : bool) :
  length used = length segments ->
  fold_left tryConnect js (pl, used, ext) = (pl', used', ext') ->
  length used' = length segments
  /\ ClipPlane.unusedCount used' <= ClipPlane.unusedCount used
  /\ (ext' = true ->
      ext = true \/ ClipPlane.unusedCount used' < ClipPlane.unusedCount used)
  /\ (forall k, nth k used false = true -> nth k used' false = true).
Proof.
  revert pl used ext. induction js as [|j js IH]; intros pl used ext Hlen H.
  - cbn [fold_left] in H. injection H as E1 E2 E3; subst. repeat split; auto.
  - cbn [fold_left] in H.
    destruct (tryConnect_cases pl used ext j)
      as [[E _]|(s & pl1 & Hu & Hs & _ & E)]; rewrite E in H.
    + apply (IH _ _ _ Hlen H).
    + assert (Hj : j < length used)
        by (rewrite Hlen; apply nth_error_Some; congruence).
      pose proof (unusedCount_assign used j Hj Hu) as Hcnt.
      assert (Hlen1 : length (JS.assign used j true) = length segments)
        by (rewrite assign_length; exact Hlen).
      destruct (IH _ _ _ Hlen1 H) as (H1 & H2 & H3 & H4).
      repeat split; auto; try lia.
      intros k Hk. apply H4.
        destruct (Nat.eq_dec j k) as [<-|Hne]; [congruence|].
        rewrite nth_assign_ne by exact Hne. exact Hk.
Qed.

Section Invariant.

Variable I : list Point -> list bool -> Prop.

Hypothesis I_step : forall pl used j s pl',
  I pl used -> length used = length segments ->
  nth j used false = false -> nth_error segments j = Some s ->
  connect pl s = Some pl' ->
  I pl' (JS.assign used j true).

Lemma fold_tryConnect_inv (js : list nat) (pl pl' : list Point)
    (used used' : list bool) (ext ext' : bool) :
  I pl used -> length used = length segments ->
  fold_left tryConnect js (pl, used, ext) = (pl', used', ext') ->
  I pl' used'.
Proof.
  revert pl used ext. induction js as [|j js IH]; intros pl used ext HI Hlen H.
  - cbn [fold_left] in H. injection H as E1 E2 E3; subst. exact HI.
  - cbn [fold_left] in H.
    destruct (tryConnect_cases pl used ext j)
      as [[E _]|(s & pl1 & Hu & Hs & Hc & E)]; rewrite E in H.
    + apply (IH _ _ _ HI Hlen H).
    + refine (IH _ _ _ _ _ H); [eauto|].
      rewrite assign_length; exact Hlen.
Qed.

(** The [while] loop keeps the invariant and stops on a polyline that no
    unused segment connects to. *)
Lemma extendLoop_inv (fuel : nat) (pl pl' : list Point)
    (used used' : list bool) :
  I pl used -> length used = length segments ->
  extendLoop fuel pl used = Some (pl', used') ->
  I pl' used' /\ length used' = length segments /\ NoMatch pl' used'
  /\ (forall k, nth k used false = true -> nth k used' false = true).
Proof.
  revert pl used. induction fuel as [|fuel IH]; intros pl used HI Hlen H;
    [discriminate|].
  cbn [ClipPlane.extendLoop] in H.
  destruct (scan pl used) as [[pl1 used1] ext] eqn:Hscan.
  unfold ClipPlane.scan in Hscan.
  pose proof (fold_tryConnect_inv _ _ _ _ _ _ _ HI Hlen Hscan) as HI1.
  destruct (fold_tryConnect_count _ _ _ _ _ _ _ Hlen Hscan)
    as (Hlen1 & _ & _ & Hmono).
  destruct ext.
  - destruct (IH _ _ HI1 Hlen1 H) as (H1 & H2 & H3 & H4).
    repeat split; auto.
  - injection H as <- <-.
    destruct (fold_tryConnect_idle _ _ _ _ _ Hscan) as (-> & -> & Hno).
    repeat split; auto.
    intros j s Hu Hs. apply (Hno j s); auto.
    apply in_seq. split; [lia|]. apply nth_error_Some. congruence.
Qed.

End Invariant.

(** The [while] loop stops: a pass that extends uses up a segment. *)
Lemma extendLoop_total (fuel : nat) (pl : list Point) (used : list bool) :
  length used = length segments ->
  ClipPlane.unusedCount used < fuel ->
  exists r, extendLoop fuel pl used = Some r.
Proof.
  revert pl used. induction fuel as [|fuel IH]; intros pl used Hlen Hc; [lia|].
  cbn [ClipPlane.extendLoop].
  destruct (scan pl used) as [[pl1 used1] ext] eqn:Hscan.
  unfold ClipPlane.scan in Hscan.
  destruct (fold_tryConnect_count _ _ _ _ _ _ _ Hlen Hscan)
    as (Hlen1 & Hle & Hlt & _).
  destruct ext; [|eauto].
  apply IH; [exact Hlen1|].
  destruct (Hlt eq_refl) as [?|?]; [discriminate|lia].
Qed.

Lemma extendLoop_mono (fuel fuel' : nat) (pl : list Point) (used : list bool)
    (r : list Point * list bool) :
  fuel <= fuel' ->
  extendLoop fuel pl used = Some r -> extendLoop fuel' pl used = Some r.
Proof.
  revert fuel' pl used. induction fuel as [|fuel IH]; intros fuel' pl used Hle H;
    [discriminate|].
  destruct fuel' as [|fuel']; [lia|].
  cbn [ClipPlane.extendLoop] in *.
  destruct (scan pl used) as [[pl1 used1] ext].
  destruct ext; [|exact H]. apply IH; [lia|exact H].
Qed.


(** A proof rule for [stitchSegments]: [Out] holds between two polylines,
    [Inside] while a polyline grows. *)
Section Rule.

Variable Out : list (list Point) -> list bool -> Prop.
Variable Inside : list (list Point) -> list Point -> list bool -> Prop.

Hypothesis Out_init : Out [] (repeat false (length segments)).

Hypothesis Inside_seed : forall done used i s,
  Out done used -> length used = length segments ->
  nth i used false = false -> nth_error segments i = Some s ->
  Inside done [ClipPlane.start s; ClipPlane.end_ s] (JS.assign used i true).

Hypothesis Inside_step : forall done pl used j s pl',
  Inside done pl used -> length used = length segments ->
  nth j used false = false -> nth_error segments j = Some s ->
  connect pl s = Some pl' ->
  Inside done pl' (JS.assign used j true).

Hypothesis Out_finish : forall done pl used,
  Inside done pl used -> length used = length segments ->
  NoMatch pl used ->
  Out (done ++ [pl]) used.

Lemma seedPolyline_fold (indices : list nat) (done : list (list Point))
    (used : list bool) :
  Out done used -> length used = length segments ->
  exists done' used',
    (forall fuel, length segments < fuel ->
       fold_left (ClipPlane.seedPolyline samePoint fuel segments) indices
         (Some (done, used)) = Some (done', used'))
    /\ Out done' used' /\ length used' = length segments
    /\ (forall k, nth k used false = true -> nth k used' false = true)
    /\ (forall i, In i indices -> i < length segments ->
                  nth i used' false = true).
Proof.
  revert done used. induction indices as [|i indices IH];
    intros done used HO Hlen.
  - exists done, used. repeat split; auto.
  - destruct (nth i used false) eqn:Hu.
    { destruct (IH done used HO Hlen) as (d' & u' & Hrun & H1 & H2 & H3 & H4).
      exists d', u'. repeat split; auto.
      - intros fuel Hf. cbn [fold_left ClipPlane.seedPolyline]. rewrite Hu.
        apply Hrun, Hf.
      - intros i' [<-|Hin] Hi'; auto. }
    destruct (nth_error segments i) as [s|] eqn:Hs.
    2:{ destruct (IH done used HO Hlen) as (d' & u' & Hrun & H1 & H2 & H3 & H4).
        exists d', u'. repeat split; auto.
        - intros fuel Hf. cbn [fold_left ClipPlane.seedPolyline].
          rewrite Hu, Hs. apply Hrun, Hf.
        - intros i' [<-|Hin] Hi'; auto.
          apply nth_error_None in Hs. lia. }
    assert (Hi : i < length used)
      by (rewrite Hlen; apply nth_error_Some; congruence).
    pose proof (unusedCount_assign used i Hi Hu) as Hcnt.
    pose proof (unusedCount_le used) as Hle.
    assert (Hlen1 : length (JS.assign used i true) = length segments)
      by (rewrite assign_length; exact Hlen).
    destruct (extendLoop_total (S (length segments))
                [ClipPlane.start s; ClipPlane.end_ s] (JS.assign used i true)
                Hlen1 ltac:(lia)) as ([pl used1] & Hloop).
    destruct (extendLoop_inv (Inside done) (Inside_step done) _ _ _ _ _
                (Inside_seed _ _ _ _ HO Hlen Hu Hs) Hlen1 Hloop)
      as (HI1 & Hlen2 & Hno & Hmono).
    pose proof (Out_finish _ _ _ HI1 Hlen2 Hno) as HO1.
    destruct (IH _ _ HO1 Hlen2) as (d' & u' & Hrun & H1 & H2 & H3 & H4).
    exists d', u'. repeat split; auto.
    + intros fuel Hf. cbn [fold_left ClipPlane.seedPolyline].
      rewrite Hu, Hs.
      rewrite (extendLoop_mono (S (length segments)) fuel _ _ _ ltac:(lia) Hloop).
      apply Hrun, Hf.
    + intros k Hk. apply H3, Hmono.
      destruct (Nat.eq_dec i k) as [<-|Hne].
      * apply nth_assign_eq. exact Hi.
      * rewrite nth_assign_ne by exact Hne. exact Hk.
    + intros i' [<-|Hin] Hi'; auto.
      apply H3, Hmono, nth_assign_eq. exact Hi.
Qed.

Theorem stitch_rule :
  exists used,
    (forall fuel, length segments < fuel ->
       ClipPlane.stitchLoop samePoint fuel segments
       = Some (ClipPlane.stitchWith samePoint segments, used))
    /\ Out (ClipPlane.stitchWith samePoint segments) used
    /\ length used = length segments
    /\ (forall j, j < length segments -> nth j used false = true).
Proof.
  destruct (seedPolyline_fold (seq 0 (length segments)) [] _ Out_init
              (repeat_length _ _)) as (d & u & Hrun & H1 & H2 & _ & H4).
  assert (E : ClipPlane.stitchWith samePoint segments = d).
  { unfold ClipPlane.stitchWith, ClipPlane.stitchFuel, ClipPlane.stitchLoop.
    rewrite (Hrun (S (length segments))) by lia. reflexivity. }
  rewrite E. exists u. repeat split; auto.
  intros j Hj. apply H4; [|exact Hj]. apply in_seq. lia.
Qed.

End Rule.

End StitchFacts.

Section StitchConservation.

Context {Point : Type}.
Variable samePoint : Point -> Point -> bool.
Variable segments : list (ClipPlane.Segment Point).

Abbreviation connect := (ClipPlane.connect samePoint).
Abbreviation Owns := (ClipPlane.Owns segments).
Abbreviation Conserved := (ClipPlane.Conserved segments).
Abbreviation Conserving := (ClipPlane.Conserving segments).

(** What [connect] answers: the polyline with one endpoint of the segment
    added at the end or at the front, the other endpoint being the one
    that coincides with the end or the front. *)
Lemma connect_Some (pl pl' : list Point) (s : ClipPlane.Segment Point) :
  connect pl s = Some pl' ->
  exists a b,
    ((a = ClipPlane.start s /\ b = ClipPlane.end_ s)
     \/ (a = ClipPlane.end_ s /\ b = ClipPlane.start s))
    /\ ((ClipPlane.samePointAt samePoint
           (nth_error pl (length pl - 1)) a = true /\ pl' = pl ++ [b])
        \/ (ClipPlane.samePointAt samePoint (nth_error pl 0) a = true
            /\ pl' = b :: pl)).
Proof.
  unfold ClipPlane.connect. intros H.
  destruct (ClipPlane.samePointAt samePoint (nth_error pl (length pl - 1))
              (ClipPlane.start s)) eqn:E1.
  { injection H as <-. exists (ClipPlane.start s), (ClipPlane.end_ s). auto. }
  destruct (ClipPlane.samePointAt samePoint (nth_error pl (length pl - 1))
              (ClipPlane.end_ s)) eqn:E2.
  { injection H as <-. exists (ClipPlane.end_ s), (ClipPlane.start s). auto. }
  destruct (ClipPlane.samePointAt samePoint (nth_error pl 0)
              (ClipPlane.end_ s)) eqn:E3.
  { injection H as <-. exists (ClipPlane.end_ s), (ClipPlane.start s). auto. }
  destruct (ClipPlane.samePointAt samePoint (nth_error pl 0)
              (ClipPlane.start s)) eqn:E4; [|discriminate].
  injection H as <-. exists (ClipPlane.start s), (ClipPlane.end_ s). auto.
Qed.

Lemma connect_None (pl : list Point) (s : ClipPlane.Segment Point) :
  connect pl s = None ->
  forall a, a = ClipPlane.start s \/ a = ClipPlane.end_ s ->
    ClipPlane.samePointAt samePoint (nth_error pl (length pl - 1)) a = false
    /\ ClipPlane.samePointAt samePoint (nth_error pl 0) a = false.
Proof.
  unfold ClipPlane.connect. intros H.
  destruct (ClipPlane.samePointAt samePoint (nth_error pl (length pl - 1))
              (ClipPlane.start s)) eqn:E1; [discriminate|].
  destruct (ClipPlane.samePointAt samePoint (nth_error pl (length pl - 1))
              (ClipPlane.end_ s)) eqn:E2; [discriminate|].
  destruct (ClipPlane.samePointAt samePoint (nth_error pl 0)
              (ClipPlane.end_ s)) eqn:E3; [discriminate|].
  destruct (ClipPlane.samePointAt samePoint (nth_error pl 0)
              (ClipPlane.start s)) eqn:E4; [discriminate|].
  intros a [->| ->]; auto.
Qed.

(** Adding a point of segment [j] to a polyline that owns [js]. *)
Lemma Owns_connect (pl pl' : list Point) (js : list nat) (j : nat)
    (s : ClipPlane.Segment Point) :
  Owns pl js -> nth_error segments j = Some s -> connect pl s = Some pl' ->
  Owns pl' (j :: js).
Proof.
  intros [Hlen Hpts] Hs Hc.
  assert (Hold : forall p, In p pl ->
            exists j0 s0, In j0 (j :: js) /\ nth_error segments j0 = Some s0
              /\ (p = ClipPlane.start s0 \/ p = ClipPlane.end_ s0)).
  { intros p Hp. destruct (Hpts p Hp) as (j0 & s0 & H1 & H2 & H3).
    exists j0, s0. repeat split; auto. right. exact H1. }
  destruct (connect_Some pl pl' s Hc) as (a & b & Hab & [[_ ->]|[_ ->]]).
  - split; [rewrite length_app; cbn [length]; lia|].
    intros p Hp. apply in_app_or in Hp as [Hp|[<-|[]]]; [auto|].
    exists j, s. repeat split; auto; [left; reflexivity|].
    destruct Hab as [[_ ->]|[_ ->]]; auto.
  - split; [cbn [length]; lia|].
    intros p [<-|Hp]; [|auto].
    exists j, s. repeat split; auto; [left; reflexivity|].
    destruct Hab as [[_ ->]|[_ ->]]; auto.
Qed.

Lemma used_assign (used : list bool) (i j : nat) :
  length used = length segments -> i < length segments ->
  (j < length segments /\ nth j (JS.assign used i true) false = true)
  <-> j = i \/ (j < length segments /\ nth j used false = true).
Proof.
  intros Hlen Hi. destruct (Nat.eq_dec i j) as [<-|Hne].
  - rewrite nth_assign_eq by lia. intuition.
  - rewrite nth_assign_ne by exact Hne. intuition congruence.
Qed.

Lemma stitch_conserved :
  exists owners : list (list nat),
    Forall2 Owns (ClipPlane.stitchWith samePoint segments) owners
    /\ Permutation (concat owners) (seq 0 (length segments)).
Proof.
  destruct (stitch_rule samePoint segments Conserved Conserving)
    as (used & _ & (owners & HF & Hnd & Hin) & Hlen & Hall).
  - exists []. split; [constructor|]. split; [constructor|].
    intros j. cbn [concat In]. split; [intros []|intros [_ H]].
    rewrite nth_repeat in H. discriminate.
  - intros done used i s (owners & HF & Hnd & Hin) Hlen Hu Hs.
    assert (Hi : i < length segments) by (apply nth_error_Some; congruence).
    exists owners, [i]. split; [exact HF|]. split; [|split].
    + split; [reflexivity|].
      intros p [<-|[<-|[]]]; exists i, s; repeat split; auto; left; reflexivity.
    + cbn [app]. constructor; [|exact Hnd].
      intros H. apply Hin in H as [_ H]. congruence.
    + intros j. cbn [app In]. rewrite used_assign, <- Hin by assumption.
      intuition congruence.
  - intros done pl used j s pl' (owners & js & HF & HO & Hnd & Hin) Hlen Hu Hs Hc.
    assert (Hj : j < length segments) by (apply nth_error_Some; congruence).
    exists owners, (j :: js). split; [exact HF|]. split; [|split].
    + apply (Owns_connect pl pl' js j s HO Hs Hc).
    + cbn [app]. constructor; [|exact Hnd].
      intros H. apply Hin in H as [_ H]. congruence.
    + intros k. cbn [app In]. rewrite used_assign, <- Hin by assumption.
      intuition congruence.
  - intros done pl used (owners & js & HF & HO & Hnd & Hin) Hlen _.
    exists (owners ++ [js]). rewrite concat_app. cbn [concat]. rewrite app_nil_r.
    split; [|split].
    + apply Forall2_app; [exact HF|]. constructor; [exact HO|constructor].
    + apply (Permutation_NoDup (Permutation_app_comm _ _) Hnd).
    + intros j. rewrite <- Hin, !in_app_iff. tauto.
  - exists owners. split; [exact HF|].
    apply NoDup_Permutation; [exact Hnd|apply seq_NoDup|].
    intros j. rewrite Hin, in_seq. split; [intros [? _]; lia|].
    intros [_ Hj]. split; [exact Hj|apply Hall, Hj].
Qed.

Lemma Owns_pairs (polylines : list (list Point)) (owners : list (list nat)) :
  Forall2 Owns polylines owners ->
  list_sum (map (@ClipPlane.pairCount Point) polylines) = length (concat owners).
Proof.
  induction 1 as [|pl js pls jss [Hlen _] _ IH]; [reflexivity|].
  unfold list_sum in *. cbn [map fold_right concat].
  rewrite length_app, IH. unfold ClipPlane.pairCount. lia.
Qed.

(** The bound on the number of polylines. *)
Lemma stitch_length :
  length (ClipPlane.stitchWith samePoint segments) <= length segments.
Proof.
  destruct (stitch_rule samePoint segments
    (fun done used =>
       length done + ClipPlane.unusedCount used <= length segments)
    (fun done pl used =>
       S (length done) + ClipPlane.unusedCount used <= length segments))
    as (used & _ & H & _).
  - rewrite unusedCount_repeat. cbn [length]. lia.
  - intros done used i s H Hlen Hu Hs.
    assert (Hi : i < length used)
      by (rewrite Hlen; apply nth_error_Some; congruence).
    pose proof (unusedCount_assign used i Hi Hu). lia.
  - intros done pl used j s pl' H Hlen Hu Hs _.
    assert (Hj : j < length used)
      by (rewrite Hlen; apply nth_error_Some; congruence).
    pose proof (unusedCount_assign used j Hj Hu). lia.
  - intros done pl used H _ _. rewrite length_app. cbn [length]. lia.
  - lia.
Qed.

Lemma stitchFuel_enough (fuel : nat) :
  length segments < fuel ->
  ClipPlane.stitchFuel samePoint fuel segments
  = Some (ClipPlane.stitchWith samePoint segments).
Proof.
  intros Hf.
  destruct (stitch_rule samePoint segments (fun _ _ => True)
              (fun _ _ _ => True)) as (used & Hrun & _); auto.
  unfold ClipPlane.stitchFuel. rewrite (Hrun fuel Hf). reflexivity.
Qed.

(** One pass of the scan: it uses up a segment or changes nothing, and
    then the [while] loop stops. *)
Lemma scan_progress (pl pl' : list Point) (used used' : list bool)
    (ext : bool) :
  length used = length segments ->
  ClipPlane.scan samePoint segments pl used = (pl', used', ext) ->
  if ext
  then ClipPlane.unusedCount used' < ClipPlane.unusedCount used
  else pl' = pl /\ used' = used
       /\ forall fuel,
            ClipPlane.extendLoop samePoint (S fuel) segments pl used
            = Some (pl, used).
Proof.
  intros Hlen Hscan. destruct ext.
  - unfold ClipPlane.scan in Hscan.
    destruct (fold_tryConnect_count _ _ _ _ _ _ _ _ _ Hlen Hscan)
      as (_ & _ & H & _).
    destruct (H eq_refl) as [?|?]; [discriminate|assumption].
  - pose proof Hscan as Hscan'. unfold ClipPlane.scan in Hscan'.
    destruct (fold_tryConnect_idle _ _ _ _ _ _ _ Hscan') as (-> & -> & _).
    repeat split. intros fuel. cbn [ClipPlane.extendLoop]. rewrite Hscan.
    reflexivity.
Qed.

End StitchConservation.

Section ChainLists.

Context {A : Type}.

Abbreviation adjacent := (@ClipPlane.adjacent A).

Lemma NoDup_split_unique (x : A) (l1 l2 m1 m2 : list A) :
  NoDup (l1 ++ x :: l2) -> l1 ++ x :: l2 = m1 ++ x :: m2 ->
  l1 = m1 /\ l2 = m2.
Proof.
  revert m1. induction l1 as [|a l1 IH]; intros m1 Hnd E.
  - destruct m1 as [|b m1]; cbn [app] in *.
    + injection E as E. auto.
    + injection E as E1 E2. inversion Hnd as [|? ? Hx _]; subst.
      exfalso. apply Hx. apply in_elt.
  - destruct m1 as [|b m1]; cbn [app] in *.
    + injection E as E1 E2. inversion Hnd as [|? ? Hx _]; subst.
      exfalso. apply Hx. apply in_elt.
    + injection E as E1 E2. inversion Hnd as [|? ? _ Hnd']; subst.
      destruct (IH m1 Hnd' E2) as [-> ->]. auto.
Qed.

Lemma adjacent_In (c : list A) (u v : A) :
  adjacent c u v -> In u c /\ In v c.
Proof.
  intros (l1 & l2 & ->). split; apply in_or_app; right; cbn; auto.
Qed.

Lemma adjacent_rev (c : list A) (u v : A) :
  adjacent c u v -> adjacent (rev c) v u.
Proof.
  intros (l1 & l2 & ->). exists (rev l2), (rev l1).
  rewrite rev_app_distr. cbn [rev]. rewrite <- !app_assoc. reflexivity.
Qed.

(** In a list without repetition, the point after [x] ... *)
Lemma adjacent_after (l1 l2 : list A) (x b : A) :
  NoDup (l1 ++ x :: l2) -> adjacent (l1 ++ x :: l2) x b ->
  exists l2', l2 = b :: l2'.
Proof.
  intros Hnd (m1 & m2 & E).
  destruct (NoDup_split_unique x l1 l2 m1 (b :: m2) Hnd E) as [_ ->]. eauto.
Qed.

(** ... and the point before it. *)
Lemma adjacent_before (l1 l2 : list A) (x b : A) :
  NoDup (l1 ++ x :: l2) -> adjacent (l1 ++ x :: l2) b x ->
  exists l1', l1 = l1' ++ [b].
Proof.
  intros Hnd (m1 & m2 & E).
  replace (m1 ++ b :: x :: m2) with ((m1 ++ [b]) ++ x :: m2) in E
    by (rewrite <- app_assoc; reflexivity).
  destruct (NoDup_split_unique x l1 l2 (m1 ++ [b]) m2 Hnd E) as [-> _]. eauto.
Qed.

Lemma NoDup_concat_In (L : list (list A)) (c : list A) :
  NoDup (concat L) -> In c L -> NoDup c.
Proof.
  induction L as [|d L IH]; intros Hnd []; cbn [concat] in Hnd.
  - subst d. apply (NoDup_app_remove_r _ _ Hnd).
  - apply IH; [apply (NoDup_app_remove_l _ _ Hnd)|assumption].
Qed.

Lemma NoDup_app_disjoint (l m : list A) (x : A) :
  NoDup (l ++ m) -> In x l -> In x m -> False.
Proof.
  induction l as [|a l IH]; intros Hnd Hl Hm; [destruct Hl|].
  cbn [app] in Hnd. inversion Hnd as [|? ? Ha Hnd']; subst.
  destruct Hl as [->|Hl]; [|eauto].
  apply Ha, in_or_app. right. exact Hm.
Qed.

Lemma NoDup_concat_unique (L : list (list A)) (c d : list A) (x : A) :
  NoDup (concat L) -> In c L -> In d L -> In x c -> In x d -> c = d.
Proof.
  induction L as [|e L IH]; intros Hnd Hc Hd Hxc Hxd; [destruct Hc|].
  cbn [concat] in Hnd.
  destruct Hc as [->|Hc], Hd as [->|Hd]; auto.
  - exfalso. apply (NoDup_app_disjoint _ _ x Hnd Hxc).
    apply in_concat. eauto.
  - exfalso. apply (NoDup_app_disjoint _ _ x Hnd Hxd).
    apply in_concat. eauto.
  - apply IH; auto. apply (NoDup_app_remove_l _ _ Hnd).
Qed.

Lemma nth_error_last (l : list A) (x : A) :
  nth_error (l ++ [x]) (length (l ++ [x]) - 1) = Some x.
Proof.
  rewrite length_app. cbn [length].
  replace (length l + 1 - 1) with (length l) by lia.
  rewrite nth_error_app2 by lia. rewrite Nat.sub_diag. reflexivity.
Qed.

Lemma nth_error_rev_first (l : list A) :
  nth_error (rev l) 0 = nth_error l (length l - 1).
Proof.
  destruct l as [|a l] using rev_ind; [reflexivity|].
  rewrite rev_app_distr, nth_error_last. reflexivity.
Qed.

Lemma nth_error_rev_last (l : list A) :
  nth_error (rev l) (length (rev l) - 1) = nth_error l 0.
Proof.
  pose proof (nth_error_rev_first (rev l)) as H.
  rewrite rev_involutive in H. symmetry. exact H.
Qed.

End ChainLists.

Section RingLists.

Context {A : Type}.

Abbreviation adjacent := (@ClipPlane.adjacent A).
Abbreviation rotation := (@ClipPlane.rotation A).
Abbreviation closeRing := (@ClipPlane.closeRing A).
Abbreviation wraps := (@ClipPlane.wraps A).
Abbreviation cyc := (@ClipPlane.cyc A).

Lemma adjacent_app (l m : list A) (u v : A) :
  adjacent (l ++ m) u v
  <-> adjacent l u v \/ adjacent m u v
      \/ ((exists l', l = l' ++ [u]) /\ (exists m', m = v :: m')).
Proof.
  split.
  - intros (l1 & l2 & E). revert l1 E. induction l as [|a l IH]; intros l1 E.
    + cbn [app] in E. right. left. exists l1, l2. exact E.
    + destruct l1 as [|b l1]; cbn [app] in E.
      * injection E as -> E. destruct l as [|a' l]; cbn [app] in E.
        -- right. right. split; [exists []; reflexivity|eauto].
        -- injection E as -> E. left. exists [], l. reflexivity.
      * injection E as -> E. destruct (IH l1 E) as [(k1 & k2 & ->)|[H|[(l' & ->) H]]].
        -- left. exists (b :: k1), k2. reflexivity.
        -- right. left. exact H.
        -- right. right. split; [exists (b :: l'); reflexivity|exact H].
  - intros [(l1 & l2 & ->)|[(l1 & l2 & ->)|[(l' & ->) (m' & ->)]]].
    + exists l1, (l2 ++ m). rewrite <- app_assoc. reflexivity.
    + exists (l ++ l1), l2. rewrite <- app_assoc. reflexivity.
    + exists l', m'. rewrite <- app_assoc. reflexivity.
Qed.

Lemma adjacent_nil (u v : A) : ~ adjacent [] u v.
Proof. intros ([|? ?] & l2 & E); discriminate. Qed.

Lemma adjacent_single (a u v : A) : ~ adjacent [a] u v.
Proof. intros ([|? [|? ?]] & l2 & E); discriminate. Qed.

Lemma adjacent_rev_iff (l : list A) (u v : A) :
  adjacent (rev l) u v <-> adjacent l v u.
Proof.
  split; intros H.
  - apply adjacent_rev in H. rewrite rev_involutive in H. exact H.
  - apply adjacent_rev, H.
Qed.

Lemma wraps_rev (l : list A) (u v : A) : wraps (rev l) u v <-> wraps l v u.
Proof.
  assert (H : forall l u v, wraps l v u -> wraps (rev l) u v).
  { intros l0 u0 v0 [(l1 & E1) (l2 & E2)]. split.
    - exists (rev l2). rewrite E2. reflexivity.
    - exists (rev l1). rewrite E1, rev_app_distr. reflexivity. }
  split; intros Hw; [|apply H, Hw].
  rewrite <- (rev_involutive l). apply H, Hw.
Qed.

Lemma cyc_rev (l : list A) (u v : A) : cyc (rev l) u v <-> cyc l v u.
Proof. unfold ClipPlane.cyc. rewrite adjacent_rev_iff, wraps_rev. reflexivity. Qed.

Lemma adjacent_closeRing (l : list A) (u v : A) :
  adjacent (closeRing l) u v <-> cyc l u v.
Proof.
  unfold ClipPlane.closeRing, ClipPlane.cyc, ClipPlane.wraps. rewrite adjacent_app.
  destruct l as [|a l]; cbn [firstn].
  - split.
    + intros [H|[H|[_ (m' & E)]]]; [auto|destruct (adjacent_nil _ _ H)|discriminate].
    + intros [H|[_ (m' & E)]]; [auto|discriminate].
  - split.
    + intros [H|[H|[H (m' & E)]]].
      * left. exact H.
      * destruct (adjacent_single _ _ _ H).
      * injection E as E _. subst v. right. split; [exact H|eauto].
    + intros [H|[H (m' & E)]].
      * left. exact H.
      * injection E as E _. subst v. right. right. split; [exact H|eauto].
Qed.

Lemma cyc_rotation (r P : list A) (u v : A) :
  rotation r P -> cyc r u v -> cyc P u v.
Proof.
  intros (l1 & l2 & -> & ->).
  destruct l1 as [|a1 l1]; [rewrite app_nil_r; auto|].
  destruct l2 as [|a2 l2]; [rewrite app_nil_r; auto|].
  unfold ClipPlane.cyc, ClipPlane.wraps. rewrite !adjacent_app.
  intros [[H|[H|[H1 H2]]]|[(k1 & E1) (k2 & E2)]].
  - left. right. left. exact H.
  - left. left. exact H.
  - right. split.
    + destruct H1 as (l' & ->). exists ((a2 :: l2) ++ l').
      rewrite <- app_assoc. reflexivity.
    + destruct H2 as (m' & E). injection E as E1 E2. subst.
      eexists. reflexivity.
  - left. right. right. split.
    + destruct (exists_last (l := a2 :: l2) ltac:(discriminate)) as (l' & z & Ez).
      rewrite Ez in E1 |- *. rewrite app_assoc in E1.
      apply app_inj_tail in E1 as [_ E1]. subst z. exists l'. reflexivity.
    + cbn [app] in E2. injection E2 as E2 _. subst v. exists l1. reflexivity.
Qed.

Lemma rotation_sym (r P : list A) : rotation r P -> rotation P r.
Proof. intros (l1 & l2 & -> & ->). exists l2, l1. auto. Qed.

Lemma rotation_refl (r : list A) : rotation r r.
Proof. exists [], r. rewrite app_nil_r. auto. Qed.

Lemma rotation_Permutation (r P : list A) : rotation r P -> Permutation r P.
Proof. intros (l1 & l2 & -> & ->). apply Permutation_app_comm. Qed.

Lemma rotation_rev (r P : list A) : rotation r P -> rotation (rev r) (rev P).
Proof.
  intros (l1 & l2 & -> & ->). exists (rev l2), (rev l1).
  rewrite !rev_app_distr. auto.
Qed.

(** A rotation of a rotation is a rotation. *)
Lemma rotation_trans (r P Q : list A) :
  rotation r P -> rotation P Q -> rotation r Q.
Proof.
  intros (l1 & l2 & -> & ->) (m1 & m2 & E & ->).
  (* l2 ++ l1 = m1 ++ m2 *)
  apply app_eq_app in E as (k & [[-> ->]|[-> ->]]).
  - (* l2 = m1 ++ k, m2 = k ++ l1 *)
    exists (l1 ++ m1), k. rewrite <- !app_assoc. auto.
  - (* m1 = l2 ++ k, l1 = k ++ m2 *)
    exists k, (m2 ++ l2). rewrite <- !app_assoc. auto.
Qed.

(** A cyclic edge can be brought to the front. *)
Lemma cyc_front (r : list A) (a b : A) :
  2 <= length r -> cyc r a b -> exists rest, rotation r (a :: b :: rest).
Proof.
  intros Hlen [(l1 & l2 & ->)|[(l' & E1) (l'' & E2)]].
  - exists (l2 ++ l1), l1, (a :: b :: l2). auto.
  - destruct l' as [|c l'].
    + subst r. cbn in Hlen. lia.
    + rewrite E1 in E2. cbn [app] in E2. injection E2 as -> _.
      exists l', (b :: l'), [a]. split; [exact E1|reflexivity].
Qed.

End RingLists.

Section Components.

Context {Point : Type}.
Variable samePoint : Point -> Point -> bool.
Variables chains rings : list (list Point).
Variable segments : list (ClipPlane.Segment Point).

Hypothesis comps_ok : ClipPlane.Components samePoint chains rings segments.

Abbreviation connect := (ClipPlane.connect samePoint).
Abbreviation NoMatch := (ClipPlane.NoMatch samePoint segments).
Abbreviation adjacent := (@ClipPlane.adjacent Point).
Abbreviation rotation := (@ClipPlane.rotation Point).
Abbreviation closeRing := (@ClipPlane.closeRing Point).
Abbreviation ends := (@ClipPlane.ends Point).
Abbreviation wraps := (@ClipPlane.wraps Point).
Abbreviation cyc := (@ClipPlane.cyc Point).
Abbreviation ChainLine := (ClipPlane.ChainLine chains).
Abbreviation RingLine := (ClipPlane.RingLine rings).
Abbreviation Line := (ClipPlane.Line chains rings).
Abbreviation LineEdge := (ClipPlane.LineEdge rings).
Abbreviation edgeOf := (@ClipPlane.edgeOf Point).
Abbreviation Joined := (ClipPlane.Joined segments).
Abbreviation Complete := (ClipPlane.Complete chains rings).
Abbreviation Apart := (@ClipPlane.Apart Point).
Abbreviation Open := (ClipPlane.Open chains rings segments).
Abbreviation Closed := (ClipPlane.Closed chains rings segments).
Abbreviation Inside := (ClipPlane.Inside chains rings segments).
Abbreviation Finished := (ClipPlane.Finished chains rings segments).

Lemma points_chain (c : list Point) (x : Point) :
  In c chains -> In x c -> In x (concat (chains ++ rings)).
Proof.
  intros Hc Hx. apply in_concat. exists c. split; [|exact Hx].
  apply in_or_app. left. exact Hc.
Qed.

Lemma points_ring (r : list Point) (x : Point) :
  In r rings -> In x r -> In x (concat (chains ++ rings)).
Proof.
  intros Hr Hx. apply in_concat. exists r. split; [|exact Hx].
  apply in_or_app. right. exact Hr.
Qed.

Lemma In_rev_iff (P : list Point) (x : Point) : In x (rev P) <-> In x P.
Proof. symmetry. apply in_rev. Qed.

Lemma In_rotation (r P : list Point) (x : Point) :
  rotation r P -> (In x P <-> In x r).
Proof.
  intros (l1 & l2 & -> & ->). rewrite !in_app_iff. tauto.
Qed.

(** The points of a ring line are those of its ring. *)
Lemma RingLine_points (P r : list Point) (x : Point) :
  rotation r P \/ rotation (rev r) P -> (In x P <-> In x r).
Proof.
  intros [H|H].
  - apply In_rotation, H.
  - rewrite (In_rotation _ _ x H). apply In_rev_iff.
Qed.

Lemma chains_rings_apart (c r : list Point) (x : Point) :
  In c chains -> In r rings -> In x c -> In x r -> False.
Proof.
  destruct comps_ok as (Hnd & _). rewrite concat_app in Hnd.
  intros Hc Hr Hxc Hxr.
  apply (NoDup_app_disjoint _ _ x Hnd); apply in_concat; eauto.
Qed.

Lemma chains_unique (c d : list Point) (x : Point) :
  In c chains -> In d chains -> In x c -> In x d -> c = d.
Proof.
  destruct comps_ok as (Hnd & _). intros Hc Hd.
  apply (NoDup_concat_unique (chains ++ rings) c d x Hnd);
    apply in_or_app; left; assumption.
Qed.

Lemma rings_unique (c d : list Point) (x : Point) :
  In c rings -> In d rings -> In x c -> In x d -> c = d.
Proof.
  destruct comps_ok as (Hnd & _). intros Hc Hd.
  apply (NoDup_concat_unique (chains ++ rings) c d x Hnd);
    apply in_or_app; right; assumption.
Qed.

Lemma chain_NoDup (c : list Point) : In c chains -> NoDup c.
Proof.
  destruct comps_ok as (Hnd & _). intros Hc.
  apply (NoDup_concat_In (chains ++ rings) c Hnd).
  apply in_or_app. left. exact Hc.
Qed.

Lemma ring_NoDup (r : list Point) : In r rings -> NoDup r.
Proof.
  destruct comps_ok as (Hnd & _). intros Hr.
  apply (NoDup_concat_In (chains ++ rings) r Hnd).
  apply in_or_app. right. exact Hr.
Qed.

Lemma ChainLine_rev (P : list Point) : ChainLine P -> ChainLine (rev P).
Proof.
  intros [H|H]; [right; rewrite rev_involutive|left]; exact H.
Qed.

Lemma RingLine_rev (P : list Point) : RingLine P -> RingLine (rev P).
Proof.
  intros (r & Hr & [H|H]); exists r; split; auto.
  - right. apply rotation_rev, H.
  - left. apply rotation_rev in H. rewrite rev_involutive in H. exact H.
Qed.

Lemma RingLine_rotation (P Q : list Point) :
  RingLine P -> rotation P Q -> RingLine Q.
Proof.
  intros (r & Hr & [H|H]) HPQ; exists r; split; auto.
  - left. apply (rotation_trans _ _ _ H HPQ).
  - right. apply (rotation_trans _ _ _ H HPQ).
Qed.

Lemma Line_NoDup (P : list Point) : Line P -> NoDup P.
Proof.
  intros [[H|H]|(r & Hr & [H|H])].
  - apply chain_NoDup, H.
  - rewrite <- (rev_involutive P). apply NoDup_rev, chain_NoDup, H.
  - apply (Permutation_NoDup (rotation_Permutation _ _ H)), ring_NoDup, Hr.
  - apply (Permutation_NoDup (rotation_Permutation _ _ H)), NoDup_rev,
      ring_NoDup, Hr.
Qed.

Lemma RingLine_length (P : list Point) : RingLine P -> 3 <= length P.
Proof.
  destruct comps_ok as (_ & _ & Hlen & _).
  intros (r & Hr & [H|H]); rewrite <- (Permutation_length (rotation_Permutation _ _ H)).
  - apply Hlen, Hr.
  - rewrite length_rev. apply Hlen, Hr.
Qed.

Lemma Line_point (P : list Point) (x : Point) :
  Line P -> In x P -> In x (concat (chains ++ rings)).
Proof.
  intros [[H|H]|(r & Hr & H)] Hx.
  - apply (points_chain P x H Hx).
  - apply (points_chain (rev P) x H). apply In_rev_iff, Hx.
  - apply (points_ring r x Hr). apply (RingLine_points P r x H), Hx.
Qed.

Lemma exact_coincidence (a b : Point) :
  In a (concat (chains ++ rings)) -> In b (concat (chains ++ rings)) ->
  (samePoint a b = true <-> a = b).
Proof. destruct comps_ok as (_ & _ & _ & H & _). apply H. Qed.

(** Two lines that share a point have the same points. *)
Lemma Line_shared (P Q : list Point) (y z : Point) :
  Line P -> Line Q -> In y P -> In y Q -> In z P -> In z Q.
Proof.
  intros HP HQ HyP HyQ Hz.
  assert (HcP : forall P, ChainLine P ->
                  exists c, In c chains /\ forall x, In x P <-> In x c).
  { intros P0 [H|H].
    - exists P0. split; [exact H|reflexivity].
    - exists (rev P0). split; [exact H|].
      intros x. symmetry. apply In_rev_iff. }
  assert (HrP : forall P, RingLine P ->
                  exists r, In r rings /\ forall x, In x P <-> In x r).
  { intros P0 (r & Hr & H). exists r. split; [exact Hr|].
    intros x. apply RingLine_points, H. }
  destruct HP as [HP|HP], HQ as [HQ|HQ].
  - destruct (HcP _ HP) as (c & Hc1 & Ec), (HcP _ HQ) as (d & Hd1 & Ed).
    apply Ed. apply Ec in HyP, Hz. apply Ed in HyQ.
    rewrite <- (chains_unique c d y Hc1 Hd1 HyP HyQ). exact Hz.
  - destruct (HcP _ HP) as (c & Hc1 & Ec), (HrP _ HQ) as (r & Hr1 & Er).
    exfalso. apply (chains_rings_apart c r y Hc1 Hr1); [apply Ec|apply Er]; auto.
  - destruct (HrP _ HP) as (r & Hr1 & Er), (HcP _ HQ) as (c & Hc1 & Ec).
    exfalso. apply (chains_rings_apart c r y Hc1 Hr1); [apply Ec|apply Er]; auto.
  - destruct (HrP _ HP) as (c & Hc1 & Ec), (HrP _ HQ) as (d & Hd1 & Ed).
    apply Ed. apply Ec in HyP, Hz. apply Ed in HyQ.
    rewrite <- (rings_unique c d y Hc1 Hd1 HyP HyQ). exact Hz.
Qed.

Lemma LineEdge_cyc (P : list Point) (u v : Point) :
  RingLine P -> (LineEdge P u v <-> cyc P u v).
Proof. unfold ClipPlane.LineEdge, ClipPlane.cyc. tauto. Qed.

(** A segment that touches a line is an edge of it, in one direction or
    the other. *)
Lemma seg_line_edge (P : list Point) (j : nat) (s : ClipPlane.Segment Point)
    (a b : Point) :
  Line P -> nth_error segments j = Some s -> ends s a b -> In a P ->
  LineEdge P a b \/ LineEdge P b a.
Proof.
  destruct comps_ok as (_ & _ & _ & _ & H & _).
  intros HP Hs He Ha. apply nth_error_In in Hs.
  destruct (H s Hs) as (E & HE & Hadj).
  assert (Hadj' : adjacent E a b \/ adjacent E b a).
  { destruct He as [[-> ->]|[-> ->]]; tauto. }
  clear Hadj.
  assert (HaE : In a E).
  { destruct Hadj' as [H1|H1]; apply (adjacent_In _ _ _ H1). }
  apply in_app_or in HE as [HE|HE].
  - (* a chain *)
    destruct HP as [[HP|HP]|(r & Hr & Hrot)].
    + rewrite (chains_unique P E a HP HE Ha HaE). unfold ClipPlane.LineEdge. tauto.
    + assert (E1 : rev P = E).
      { apply (chains_unique (rev P) E a HP HE); auto. apply In_rev_iff, Ha. }
      rewrite <- E1, !adjacent_rev_iff in Hadj'. unfold ClipPlane.LineEdge. tauto.
    + exfalso. apply (chains_rings_apart E r a HE Hr HaE).
      apply (RingLine_points P r a Hrot), Ha.
  - (* a ring *)
    apply in_map_iff in HE as (r & <- & Hr).
    rewrite !adjacent_closeRing in Hadj'.
    assert (Har : In a r).
    { unfold ClipPlane.closeRing in HaE. apply in_app_or in HaE as [?|HaE]; auto.
      destruct r as [|h r]; [destruct HaE|].
      cbn [firstn In] in HaE. destruct HaE as [<-|[]]. left. reflexivity. }
    destruct HP as [[HP|HP]|(r' & Hr' & Hrot)].
    + exfalso. apply (chains_rings_apart P r a HP Hr Ha Har).
    + exfalso. apply (chains_rings_apart (rev P) r a HP Hr); auto.
      apply In_rev_iff, Ha.
    + assert (E1 : r' = r).
      { apply (rings_unique r' r a Hr' Hr); auto.
        apply (RingLine_points P r' a Hrot), Ha. }
      subst r'.
      assert (HR : RingLine P) by (exists r; auto).
      rewrite !(LineEdge_cyc P _ _ HR).
      destruct Hrot as [Hrot|Hrot].
      * destruct Hadj' as [H1|H1]; [left|right]; apply (cyc_rotation r P _ _ Hrot H1).
      * destruct Hadj' as [H1|H1]; [right|left];
          apply (cyc_rotation (rev r) P _ _ Hrot), cyc_rev, H1.
Qed.

(** Every edge of a line is a segment. *)
Lemma line_edge_seg (P : list Point) (u v : Point) :
  Line P -> LineEdge P u v ->
  exists j s, nth_error segments j = Some s /\ ends s u v.
Proof.
  destruct comps_ok as (_ & _ & _ & _ & _ & H & _).
  assert (Hseg : forall E a b, In E (chains ++ map closeRing rings) ->
            adjacent E a b \/ adjacent E b a ->
            exists j s, nth_error segments j = Some s /\ ends s a b).
  { intros E a b HE [Hadj|Hadj];
      destruct (H E _ _ HE Hadj) as (s & Hs & He);
      destruct (In_nth_error _ _ Hs) as (j & Hj);
      exists j, s; (split; [exact Hj|]); unfold ClipPlane.ends; intuition. }
  intros HP He.
  assert (Hring : RingLine P -> cyc P u v ->
            exists j s, nth_error segments j = Some s /\ ends s u v).
  { intros (r & Hr & Hrot) Hc.
    apply (Hseg (closeRing r)); [apply in_or_app; right; apply in_map, Hr|].
    rewrite !adjacent_closeRing.
    destruct Hrot as [Hrot|Hrot].
    - left. apply (cyc_rotation P r _ _ (rotation_sym _ _ Hrot) Hc).
    - right. apply cyc_rev.
      apply (cyc_rotation P (rev r) _ _ (rotation_sym _ _ Hrot) Hc). }
  destruct He as [Hadj|[HR Hw]]; [|apply Hring; [exact HR|right; exact Hw]].
  destruct HP as [[HP|HP]|HR].
  - apply (Hseg P); [apply in_or_app; left; exact HP|left; exact Hadj].
  - apply (Hseg (rev P)); [apply in_or_app; left; exact HP|].
    right. apply adjacent_rev_iff, Hadj.
  - apply Hring; [exact HR|left; exact Hadj].
Qed.

(** Two segments with the same endpoints are the same segment. *)
Lemma seg_inj (j k : nat) (s s' : ClipPlane.Segment Point) (a b : Point) :
  nth_error segments j = Some s -> nth_error segments k = Some s' ->
  ends s a b -> ends s' a b -> j = k.
Proof.
  destruct comps_ok as (_ & _ & _ & _ & _ & _ & Hnd & Hflip).
  intros Hj Hk He He'.
  assert (Hcase : s' = s \/ s' = ClipPlane.flip s).
  { destruct s as [s0 s1], s' as [t0 t1]. unfold ClipPlane.ends, ClipPlane.flip in *.
    cbn [ClipPlane.start ClipPlane.end_] in *.
    destruct He as [[-> ->]|[-> ->]], He' as [[E1 E2]|[E1 E2]]; subst; auto. }
  destruct Hcase as [-> | ->].
  - apply (proj1 (NoDup_nth_error segments) Hnd).
    + apply nth_error_Some. congruence.
    + congruence.
  - exfalso. apply (Hflip s); eapply nth_error_In; eassumption.
Qed.


Lemma seg_point (j : nat) (s : ClipPlane.Segment Point) (a b : Point) :
  nth_error segments j = Some s -> ends s a b ->
  exists P, Line P /\ In a P.
Proof.
  destruct comps_ok as (_ & _ & _ & _ & H & _).
  intros Hs He. apply nth_error_In in Hs.
  destruct (H s Hs) as (E & HE & Hadj).
  assert (HaE : In a E).
  { destruct He as [[-> _]|[-> _]], Hadj as [H1|H1];
      apply (adjacent_In _ _ _ H1). }
  apply in_app_or in HE as [HE|HE].
  - exists E. split; [left; left; exact HE|exact HaE].
  - apply in_map_iff in HE as (r & <- & Hr). exists r. split.
    + right. exists r. split; [exact Hr|left; apply rotation_refl].
    + unfold ClipPlane.closeRing in HaE. apply in_app_or in HaE as [?|HaE]; auto.
      destruct r as [|h r]; [destruct HaE|].
      cbn [firstn In] in HaE. destruct HaE as [<-|[]]. left. reflexivity.
Qed.

Lemma edgeOf_rev (L : list Point) (s : ClipPlane.Segment Point) :
  edgeOf (rev L) s <-> edgeOf L s.
Proof. unfold ClipPlane.edgeOf. rewrite !adjacent_rev_iff. tauto. Qed.

Lemma edgeOf_ends (L : list Point) (s : ClipPlane.Segment Point) (a b : Point) :
  ends s a b -> (edgeOf L s <-> adjacent L a b \/ adjacent L b a).
Proof. unfold ClipPlane.edgeOf. intros [[-> ->]|[-> ->]]; tauto. Qed.

Lemma adjacent_snoc (l : list Point) (x b u v : Point) :
  adjacent ((l ++ [x]) ++ [b]) u v
  <-> adjacent (l ++ [x]) u v \/ (u = x /\ v = b).
Proof.
  rewrite (adjacent_app (l ++ [x]) [b]). split.
  - intros [H|[H|[(l' & E) (m' & E')]]].
    + left. exact H.
    + destruct (adjacent_single _ _ _ H).
    + apply app_inj_tail in E as [_ E]. injection E' as E' _.
      right. split; congruence.
  - intros [H|[-> ->]]; [left; exact H|].
    right. right. split; [exists l|exists []]; reflexivity.
Qed.

Lemma edgeOf_snoc (l : list Point) (x b : Point) (t : ClipPlane.Segment Point) :
  edgeOf ((l ++ [x]) ++ [b]) t <-> edgeOf (l ++ [x]) t \/ ends t x b.
Proof.
  unfold ClipPlane.edgeOf, ClipPlane.ends. rewrite !adjacent_snoc. intuition.
Qed.

Lemma edgeOf_pair (a b : Point) (t : ClipPlane.Segment Point) :
  edgeOf [a; b] t <-> ends t a b.
Proof.
  change [a; b] with (([] ++ [a]) ++ [b]). rewrite edgeOf_snoc.
  split; [intros [[H|H]|H]|]; auto; destruct (adjacent_single _ _ _ H).
Qed.

Lemma Joined_ext (pls pls' : list (list Point)) (used : list bool) :
  (forall t, (exists L, In L pls /\ edgeOf L t)
             <-> (exists L, In L pls' /\ edgeOf L t)) ->
  Joined pls used -> Joined pls' used.
Proof.
  intros E H j s Hs. rewrite (H j s Hs). apply E.
Qed.

(** Using segment [j], which joins the new pair of consecutive points. *)
Lemma Joined_assign (done : list (list Point)) (pl pl' : list Point)
    (used : list bool) (j : nat) (s : ClipPlane.Segment Point) (a b : Point) :
  length used = length segments ->
  nth_error segments j = Some s -> ends s a b ->
  (forall t, edgeOf pl' t <-> edgeOf pl t \/ ends t a b) ->
  Joined (pl :: done) used ->
  Joined (pl' :: done) (JS.assign used j true).
Proof.
  intros Hlen Hs He Hnew HJ k t Hk.
  destruct (Nat.eq_dec j k) as [<-|Hne].
  - rewrite nth_assign_eq
      by (rewrite Hlen; apply nth_error_Some; congruence).
    assert (t = s) by congruence. subst t.
    split; [intros _|reflexivity].
    exists pl'. split; [left; reflexivity|]. apply Hnew. right. exact He.
  - rewrite nth_assign_ne by exact Hne. rewrite (HJ k t Hk). split.
    + intros (L & [<-|HL] & HeL).
      * exists pl'. split; [left; reflexivity|]. apply Hnew. left. exact HeL.
      * exists L. split; [right; exact HL|exact HeL].
    + intros (L & [<-|HL] & HeL).
      * apply Hnew in HeL as [HeL|HeL].
        -- exists pl. split; [left; reflexivity|exact HeL].
        -- exfalso. apply Hne. apply (seg_inj j k s t a b); assumption.
      * exists L. split; [right; exact HL|exact HeL].
Qed.

Lemma Apart_ext (done : list (list Point)) (P Q : list Point) :
  (forall y, In y Q -> In y P) -> Apart done P -> Apart done Q.
Proof. intros E H D y HD Hy. apply (H D y HD). apply E, Hy. Qed.

Lemma Joined_rev (done : list (list Point)) (pl : list Point)
    (used : list bool) :
  Joined (pl :: done) used -> Joined (rev pl :: done) used.
Proof.
  apply Joined_ext. intros t. split.
  - intros (L & [<-|HL] & HeL).
    + exists (rev pl). split; [left; reflexivity|apply edgeOf_rev, HeL].
    + exists L. split; [right; exact HL|exact HeL].
  - intros (L & [<-|HL] & HeL).
    + exists pl. split; [left; reflexivity|apply edgeOf_rev, HeL].
    + exists L. split; [right; exact HL|exact HeL].
Qed.

Lemma Open_rev (done : list (list Point)) (pl : list Point)
    (used : list bool) :
  Open done pl used -> Open done (rev pl) used.
Proof.
  intros (Hlen & (P & pre & post & EP & HP & Hap) & Hdone & HJ).
  split; [rewrite length_rev; exact Hlen|]. split; [|split; [exact Hdone|]].
  - destruct HP as [HP|[HP ->]].
    + exists (rev P), (rev post), (rev pre). split; [|split].
      * rewrite EP, !rev_app_distr, <- app_assoc. reflexivity.
      * left. apply ChainLine_rev, HP.
      * apply (Apart_ext done P); [|exact Hap]. intros y. apply In_rev_iff.
    + cbn [app] in EP. exists (rev pl ++ rev post), [], (rev post).
      split; [reflexivity|split].
      * right. split; [|reflexivity].
        apply (RingLine_rotation (rev P)); [apply RingLine_rev, HP|].
        exists (rev post), (rev pl). rewrite EP, rev_app_distr. auto.
      * apply (Apart_ext done P); [|exact Hap]. intros y.
        rewrite EP, !in_app_iff, !In_rev_iff. tauto.
  - apply Joined_rev, HJ.
Qed.


Lemma closeRing_cons (h : Point) (t : list Point) :
  closeRing (h :: t) = (h :: t) ++ [h].
Proof. reflexivity. Qed.

(** The edges of a ring line are the consecutive pairs of its closed
    polyline. *)
Lemma LineEdge_closeRing (P : list Point) (u v : Point) :
  RingLine P -> LineEdge P u v -> adjacent (closeRing P) u v.
Proof.
  intros HR H. apply adjacent_closeRing, (LineEdge_cyc P u v HR), H.
Qed.

Lemma ChainLine_RingLine (P : list Point) (x : Point) :
  ChainLine P -> RingLine P -> In x P -> False.
Proof.
  intros HC (r & Hr & Hrot) Hx.
  pose proof (proj1 (RingLine_points P r x Hrot) Hx) as Hxr.
  destruct HC as [HC|HC].
  - apply (chains_rings_apart P r x HC Hr Hx Hxr).
  - apply (chains_rings_apart (rev P) r x HC Hr); auto. apply In_rev_iff, Hx.
Qed.

(** A finished polyline has the points and the edges of a line. *)
Lemma Complete_line (D : list Point) :
  Complete D ->
  exists Q, Line Q /\ (forall x, In x D <-> In x Q)
            /\ (forall u v, LineEdge Q u v -> adjacent D u v).
Proof.
  intros [HC|(P & HR & ->)].
  - exists D. split; [left; exact HC|]. split; [reflexivity|].
    intros u v [H|[HR Hw]]; [exact H|exfalso].
    destruct Hw as [_ (l' & E)].
    apply (ChainLine_RingLine D v HC HR). rewrite E. left. reflexivity.
  - exists P. split; [right; exact HR|]. split.
    + intros x. unfold ClipPlane.closeRing. rewrite in_app_iff.
      split; [intros [H|H]|auto]; auto.
      destruct P as [|h P]; [destruct H|].
      cbn [firstn In] in H. destruct H as [<-|[]]. left. reflexivity.
    + intros u v. apply LineEdge_closeRing, HR.
Qed.

(** A segment that touches a finished polyline is one of its edges. *)
Lemma Complete_edge (D : list Point) (j : nat) (s : ClipPlane.Segment Point)
    (a b : Point) :
  Complete D -> nth_error segments j = Some s -> ends s a b -> In a D ->
  edgeOf D s.
Proof.
  intros HD Hs He Ha.
  destruct (Complete_line D HD) as (Q & HQ & Hpts & Hedges).
  apply (edgeOf_ends D s a b He).
  destruct (seg_line_edge Q j s a b HQ Hs He (proj1 (Hpts a) Ha)) as [H|H];
    [left|right]; apply Hedges, H.
Qed.

(** The last point of an open polyline has no edge left on its line but
    the one that leads back into the polyline. *)
Lemma last_edge_used (done : list (list Point)) (pl0 : list Point)
    (x b : Point) (used : list bool) (j : nat) (s : ClipPlane.Segment Point)
    (P : list Point) :
  NoDup (pl0 ++ [x]) -> In x P -> Apart done P ->
  Joined ((pl0 ++ [x]) :: done) used ->
  nth_error segments j = Some s -> ends s x b ->
  nth j used false = true ->
  exists pl00, pl0 = pl00 ++ [b].
Proof.
  intros Hnd HxP Hap HJ Hs He Hu.
  apply (HJ j s Hs) in Hu as (L & [<-|HL] & HeL).
  - apply (edgeOf_ends _ s x b He) in HeL as [H|H].
    + exfalso. destruct (adjacent_after pl0 [] x b Hnd H) as (l & E).
      discriminate.
    + apply (adjacent_before pl0 [] x b Hnd H).
  - exfalso. apply (Hap L x HL HxP).
    apply (edgeOf_ends _ s x b He) in HeL as [H|H];
      apply (adjacent_In _ _ _ H).
Qed.

Lemma NoDup_stretch (P pre pl post : list Point) :
  NoDup P -> P = pre ++ pl ++ post -> NoDup pl.
Proof.
  intros Hnd ->. apply NoDup_app_remove_l in Hnd.
  apply (NoDup_app_remove_r _ _ Hnd).
Qed.

(** The polyline grows at its end by the other endpoint of an unused
    segment that coincides with its last point. *)
Lemma Open_append (done : list (list Point)) (pl0 : list Point) (x : Point)
    (used : list bool) (j : nat) (s : ClipPlane.Segment Point) (a b : Point) :
  Open done (pl0 ++ [x]) used ->
  length used = length segments ->
  nth j used false = false -> nth_error segments j = Some s ->
  ends s a b -> samePoint x a = true ->
  Inside done ((pl0 ++ [x]) ++ [b]) (JS.assign used j true).
Proof.
  intros (Hlen & (P & pre & post & EP & HP & Hap) & Hdone & HJ)
    Hused Hu Hs He Hsame.
  assert (HL : Line P) by (destruct HP as [?|[? _]]; [left|right]; assumption).
  pose proof (Line_NoDup P HL) as HndP.
  pose proof (NoDup_stretch P pre _ post HndP EP) as Hndpl.
  assert (HxP : In x P).
  { rewrite EP, !in_app_iff. cbn [In]. tauto. }
  assert (a = x).
  { symmetry. apply exact_coincidence; auto.
    - apply (Line_point P x HL HxP).
    - destruct (seg_point j s a b Hs He) as (Q & HQ & Ha).
      apply (Line_point Q a HQ Ha). }
  subst a.
  assert (EP' : P = (pre ++ pl0) ++ x :: post).
  { rewrite EP, <- !app_assoc. reflexivity. }
  assert (HJ' : Joined (((pl0 ++ [x]) ++ [b]) :: done) (JS.assign used j true)).
  { apply (Joined_assign done (pl0 ++ [x]) _ used j s x b); auto.
    intros t. apply edgeOf_snoc. }
  assert (Hback : ~ exists pl00, pl0 = pl00 ++ [b] /\ True).
  { intros (pl00 & E & _).
    assert (Htrue : nth j used false = true).
    { apply (HJ j s Hs). exists (pl0 ++ [x]). split; [left; reflexivity|].
      apply (edgeOf_ends _ s x b He). right. rewrite E.
      exists pl00, []. rewrite <- app_assoc. reflexivity. }
    congruence. }
  destruct (seg_line_edge P j s x b HL Hs He HxP) as [[H|[HR Hw]]|[H|[HR Hw]]].
  - (* the next point of the line *)
    rewrite EP' in H, HndP.
    destruct (adjacent_after _ _ _ _ HndP H) as (post' & ->).
    left. split; [rewrite length_app; lia|]. split; [|split; [exact Hdone|exact HJ']].
    exists P, pre, post'. split; [|split; [exact HP|exact Hap]].
    rewrite EP, <- !app_assoc. reflexivity.
  - (* the ring closes *)
    destruct HP as [HC|[_ ->]];
      [exfalso; apply (ChainLine_RingLine P x HC HR HxP)|].
    cbn [app] in EP. destruct Hw as [(l' & E1) (l'' & E2)].
    assert (post = []).
    { rewrite EP in HndP, E1.
      replace ((pl0 ++ [x]) ++ post) with (pl0 ++ x :: post) in HndP, E1
        by (rewrite <- app_assoc; reflexivity).
      replace (l' ++ [x]) with (l' ++ x :: []) in E1 by reflexivity.
      apply (NoDup_split_unique x _ _ _ _ HndP E1). }
    subst post. rewrite app_nil_r in EP.
    right. split; [|split; [exact Hdone|exact HJ']].
    exists P. split; [exact HR|]. split; [|exact Hap].
    rewrite <- EP, E2. reflexivity.
  - (* back into the polyline *)
    exfalso. rewrite EP' in H, HndP.
    destruct (adjacent_before _ _ _ _ HndP H) as (l1 & E1).
    destruct pl0 as [|y pl0] using rev_ind;
      [rewrite length_app in Hlen; cbn in Hlen; lia|].
    rewrite app_assoc in E1. apply app_inj_tail in E1 as [_ ->].
    apply Hback. exists pl0. auto.
  - (* the first point of a ring line is not the last of the polyline *)
    exfalso. destruct HP as [HC|[_ ->]];
      [apply (ChainLine_RingLine P x HC HR HxP)|].
    cbn [app] in EP. destruct Hw as [_ (l'' & E2)].
    rewrite EP in HndP, E2.
    replace ((pl0 ++ [x]) ++ post) with (pl0 ++ x :: post) in HndP, E2
      by (rewrite <- app_assoc; reflexivity).
    change (x :: l'') with ([] ++ x :: l'') in E2.
    destruct (NoDup_split_unique x _ _ _ _ HndP E2) as [E _].
    subst pl0. cbn in Hlen. lia.
Qed.


Lemma In_closeRing (P : list Point) (x : Point) :
  In x (closeRing P) <-> In x P.
Proof.
  unfold ClipPlane.closeRing. rewrite in_app_iff.
  split; [intros [H|H]|auto]; auto.
  destruct P as [|h P]; [destruct H|].
  cbn [firstn In] in H. destruct H as [<-|[]]. left. reflexivity.
Qed.

(** A closed ring read backwards is a closed ring. *)
Lemma closeRing_rev (P : list Point) :
  RingLine P ->
  exists P', RingLine P' /\ rev (closeRing P) = closeRing P'
             /\ forall x, In x P' <-> In x P.
Proof.
  intros HR. destruct P as [|h t].
  - exists []. split; [exact HR|]. split; reflexivity.
  - exists (h :: rev t). split; [|split].
    + apply (RingLine_rotation (rev (h :: t))); [apply RingLine_rev, HR|].
      exists (rev t), [h]. auto.
    + rewrite !closeRing_cons, rev_app_distr. reflexivity.
    + intros x. cbn [In]. rewrite In_rev_iff. reflexivity.
Qed.

Lemma Inside_rev (done : list (list Point)) (pl : list Point)
    (used : list bool) :
  Inside done pl used -> Inside done (rev pl) used.
Proof.
  intros [H|((P & HR & -> & Hap) & Hdone & HJ)]; [left; apply Open_rev, H|].
  right. destruct (closeRing_rev P HR) as (P' & HR' & E & Hpts).
  split; [|split; [exact Hdone|apply Joined_rev, HJ]].
  exists P'. split; [exact HR'|]. split; [exact E|].
  apply (Apart_ext done P); [apply Hpts|exact Hap].
Qed.

Lemma samePointAt_Some (o : option Point) (a : Point) :
  ClipPlane.samePointAt samePoint o a = true ->
  exists x, o = Some x /\ samePoint x a = true.
Proof. destruct o as [x|]; [eauto|discriminate]. Qed.

Lemma last_split (pl : list Point) (x : Point) :
  nth_error pl (length pl - 1) = Some x -> exists pl0, pl = pl0 ++ [x].
Proof.
  destruct pl as [|y pl] using rev_ind; [discriminate|].
  rewrite nth_error_last. intros [= ->]. eauto.
Qed.

(** No unused segment touches a polyline that has gone round its ring. *)
Lemma Closed_stuck (done : list (list Point)) (pl0 : list Point) (x : Point)
    (used : list bool) (j : nat) (s : ClipPlane.Segment Point) (a b : Point) :
  Closed done (pl0 ++ [x]) used ->
  nth j used false = false -> nth_error segments j = Some s ->
  ends s a b -> samePoint x a = true -> False.
Proof.
  intros ((P & HR & E & Hap) & Hdone & HJ) Hu Hs He Hsame.
  assert (HxP : In x P).
  { apply In_closeRing. rewrite <- E. apply in_elt. }
  assert (a = x).
  { symmetry. apply exact_coincidence; auto.
    - apply (Line_point P x (or_intror HR) HxP).
    - destruct (seg_point j s a b Hs He) as (Q & HQ & Ha).
      apply (Line_point Q a HQ Ha). }
  subst a.
  assert (Htrue : nth j used false = true).
  { apply (HJ j s Hs). exists (pl0 ++ [x]). split; [left; reflexivity|].
    rewrite E. apply (edgeOf_ends _ s x b He).
    destruct (seg_line_edge P j s x b (or_intror HR) Hs He HxP) as [H|H];
      [left|right]; apply (LineEdge_closeRing P _ _ HR H). }
  congruence.
Qed.

Lemma Inside_append (done : list (list Point)) (pl0 : list Point) (x : Point)
    (used : list bool) (j : nat) (s : ClipPlane.Segment Point) (a b : Point) :
  Inside done (pl0 ++ [x]) used ->
  length used = length segments ->
  nth j used false = false -> nth_error segments j = Some s ->
  ends s a b -> samePoint x a = true ->
  Inside done ((pl0 ++ [x]) ++ [b]) (JS.assign used j true).
Proof.
  intros [HO|HC] Hlen Hu Hs He Hsame.
  - apply (Open_append done pl0 x used j s a b); assumption.
  - destruct (Closed_stuck done pl0 x used j s a b HC Hu Hs He Hsame).
Qed.

(** Each of the four branches of the scan keeps the invariant. *)
Lemma Inside_step (done : list (list Point)) (pl pl' : list Point)
    (used : list bool) (j : nat) (s : ClipPlane.Segment Point) :
  Inside done pl used -> length used = length segments ->
  nth j used false = false -> nth_error segments j = Some s ->
  connect pl s = Some pl' ->
  Inside done pl' (JS.assign used j true).
Proof.
  intros HG Hlen Hu Hs Hc.
  destruct (connect_Some samePoint pl pl' s Hc)
    as (a & b & Hab & [[Hsame ->]|[Hsame ->]]).
  - destruct (samePointAt_Some _ _ Hsame) as (x & Hx & Hxa).
    destruct (last_split pl x Hx) as (pl0 & ->).
    apply (Inside_append done pl0 x used j s a b); auto.
  - destruct (samePointAt_Some _ _ Hsame) as (x & Hx & Hxa).
    rewrite <- nth_error_rev_last in Hx.
    destruct (last_split (rev pl) x Hx) as (pl0 & E).
    apply Inside_rev in HG. rewrite E in HG.
    pose proof (Inside_append done pl0 x used j s a b HG Hlen Hu Hs Hab Hxa)
      as HG'.
    apply Inside_rev in HG'. rewrite <- E in HG'.
    rewrite rev_app_distr, rev_involutive in HG'. exact HG'.
Qed.

(** The line on which a new polyline is seeded. *)
Lemma seed_line (i : nat) (s : ClipPlane.Segment Point) :
  nth_error segments i = Some s ->
  exists P pre post,
    P = pre ++ [ClipPlane.start s; ClipPlane.end_ s] ++ post
    /\ (ChainLine P \/ (RingLine P /\ pre = [])).
Proof.
  intros Hs. set (a := ClipPlane.start s). set (b := ClipPlane.end_ s).
  assert (He : ends s a b) by (left; auto).
  destruct (seg_point i s a b Hs He) as (Q & HQ & Ha).
  assert (Hring : forall R, RingLine R -> cyc R a b ->
            exists P pre post, P = pre ++ [a; b] ++ post
              /\ (ChainLine P \/ (RingLine P /\ pre = []))).
  { intros R HR Hc. pose proof (RingLine_length R HR) as Hlen.
    destruct (cyc_front R a b ltac:(lia) Hc) as (rest & Hrot).
    exists (a :: b :: rest), [], rest. split; [reflexivity|].
    right. split; [|reflexivity]. apply (RingLine_rotation R _ HR Hrot). }
  assert (Hchain : forall C, ChainLine C -> adjacent C a b ->
            exists P pre post, P = pre ++ [a; b] ++ post
              /\ (ChainLine P \/ (RingLine P /\ pre = []))).
  { intros C HC (l1 & l2 & E). exists C, l1, l2. split; [exact E|left; exact HC]. }
  destruct HQ as [HC|HR].
  - destruct (seg_line_edge Q i s a b (or_introl HC) Hs He Ha)
      as [[H|[HR _]]|[H|[HR _]]];
      try (exfalso; apply (ChainLine_RingLine Q a HC HR Ha)).
    + apply (Hchain Q HC H).
    + apply (Hchain (rev Q) (ChainLine_rev Q HC)). apply adjacent_rev_iff, H.
  - destruct (seg_line_edge Q i s a b (or_intror HR) Hs He Ha) as [H|H];
      apply (LineEdge_cyc Q _ _ HR) in H.
    + apply (Hring Q HR H).
    + apply (Hring (rev Q) (RingLine_rev Q HR)). apply cyc_rev, H.
Qed.

(** A new polyline is seeded on an edge that no finished polyline
    touches. *)
Lemma Open_seed (done : list (list Point)) (used : list bool) (i : nat)
    (s : ClipPlane.Segment Point) :
  Finished done used -> length used = length segments ->
  nth i used false = false -> nth_error segments i = Some s ->
  Inside done [ClipPlane.start s; ClipPlane.end_ s] (JS.assign used i true).
Proof.
  intros (Hdone & HJ) Hlen Hu Hs.
  destruct (seed_line i s Hs) as (P & pre & post & EP & HP).
  assert (HL : Line P) by (destruct HP as [?|[? _]]; [left|right]; assumption).
  assert (He : ends s (ClipPlane.start s) (ClipPlane.end_ s)) by (left; auto).
  assert (HaP : In (ClipPlane.start s) P).
  { rewrite EP, !in_app_iff. cbn [In]. tauto. }
  left. split; [cbn; lia|]. split; [|split; [exact Hdone|]].
  - exists P, pre, post. split; [exact EP|]. split; [exact HP|].
    intros D y HD Hy HyD.
    destruct (Complete_line D (Hdone D HD)) as (Q & HQ & Hpts & _).
    assert (HaD : In (ClipPlane.start s) D).
    { apply Hpts. apply (Line_shared P Q y _ HL HQ Hy); auto. apply Hpts, HyD. }
    pose proof (Complete_edge D i s _ _ (Hdone D HD) Hs He HaD) as HeD.
    assert (Htrue : nth i used false = true)
      by (apply (HJ i s Hs); exists D; auto).
    congruence.
  - apply (Joined_assign done [] _ used i s
             (ClipPlane.start s) (ClipPlane.end_ s)); auto.
    + intros t. rewrite edgeOf_pair. split; [auto|].
      intros [[H|H]|H]; auto; destruct (adjacent_nil _ _ H).
    + refine (Joined_ext _ _ _ _ HJ). intros t. split.
      * intros (L & HL' & HeL). exists L. split; [right; exact HL'|exact HeL].
      * intros (L & [<-|HL'] & HeL); [|eauto].
        destruct HeL as [H|H]; destruct (adjacent_nil _ _ H).
Qed.


Lemma NoMatch_rev (pl : list Point) (used : list bool) :
  NoMatch pl used -> NoMatch (rev pl) used.
Proof.
  intros H j s Hu Hs.
  pose proof (connect_None samePoint pl s (H j s Hu Hs)) as Hn.
  destruct (Hn (ClipPlane.start s) (or_introl eq_refl)) as [H1 H2].
  destruct (Hn (ClipPlane.end_ s) (or_intror eq_refl)) as [H3 H4].
  unfold ClipPlane.connect.
  rewrite nth_error_rev_last, nth_error_rev_first, H1, H2, H3, H4.
  reflexivity.
Qed.

(** When no unused segment connects, an edge of the line at the last
    point of the polyline leads back into the polyline. *)
Lemma last_edge_back (done : list (list Point)) (pl0 : list Point)
    (x b : Point) (used : list bool) (P : list Point) :
  Line P -> In x P -> NoDup (pl0 ++ [x]) -> Apart done P ->
  Joined ((pl0 ++ [x]) :: done) used ->
  NoMatch (pl0 ++ [x]) used ->
  LineEdge P x b ->
  exists pl00, pl0 = pl00 ++ [b].
Proof.
  intros HL HxP Hnd Hap HJ Hno He.
  destruct (line_edge_seg P x b HL He) as (j & s & Hs & Hends).
  destruct (nth j used false) eqn:Hu.
  - apply (last_edge_used done pl0 x b used j s P); assumption.
  - exfalso.
    pose proof (connect_None samePoint _ s (Hno j s Hu Hs)) as Hn.
    destruct (Hn x) as [H1 _].
    { destruct Hends as [[E _]|[E _]]; auto. }
    rewrite nth_error_last in H1. cbn [ClipPlane.samePointAt] in H1.
    pose proof (Line_point P x HL HxP) as Hx.
    pose proof (proj2 (exact_coincidence x x Hx Hx) eq_refl). congruence.
Qed.

(** When no unused segment connects, the stretch reaches the end of its
    line. *)
Lemma stretch_reaches_end (done : list (list Point))
    (pl P pre post : list Point) (used : list bool) :
  2 <= length pl -> Line P -> P = pre ++ pl ++ post ->
  Apart done P -> Joined (pl :: done) used -> NoMatch pl used ->
  post = [].
Proof.
  intros Hlen HL EP Hap HJ Hno.
  destruct post as [|b post']; [reflexivity|exfalso].
  destruct pl as [|x pl0 _] using rev_ind; [cbn in Hlen; lia|].
  pose proof (Line_NoDup P HL) as HndP.
  pose proof (NoDup_stretch P pre _ _ HndP EP) as Hndpl.
  assert (HxP : In x P).
  { rewrite EP, !in_app_iff. cbn [In]. tauto. }
  assert (Hadj : LineEdge P x b).
  { left. exists (pre ++ pl0), post'. rewrite EP, <- !app_assoc. reflexivity. }
  destruct (last_edge_back done pl0 x b used P HL HxP Hndpl Hap HJ Hno Hadj)
    as (pl00 & E).
  rewrite EP, E in HndP. apply NoDup_app_remove_l in HndP.
  rewrite <- !app_assoc in HndP. apply NoDup_app_remove_l in HndP.
  cbn [app] in HndP. apply NoDup_cons_iff in HndP as [Hnin _].
  apply Hnin. right. left. reflexivity.
Qed.

(** When no unused segment connects, the polyline is a whole chain or a
    whole closed ring. *)
Lemma Finished_finish (done : list (list Point)) (pl : list Point)
    (used : list bool) :
  Inside done pl used -> NoMatch pl used -> Finished (done ++ [pl]) used.
Proof.
  intros HG Hno.
  assert (HJ' : forall (HJ : Joined (pl :: done) used),
            Joined (done ++ [pl]) used).
  { apply Joined_ext. intros t. split; intros (L & HL & HeL); exists L;
      (split; [|exact HeL]).
    - apply in_app_iff. cbn [In]. cbn [In] in HL. tauto.
    - apply in_app_iff in HL. cbn [In] in *. tauto. }
  destruct HG as [(Hlen & (P & pre & post & EP & HP & Hap) & Hdone & HJ)
                 |((P & HR & E & Hap) & Hdone & HJ)].
  - assert (HL : Line P)
      by (destruct HP as [?|[? _]]; [left|right]; assumption).
    assert (Hpost : post = [])
      by (apply (stretch_reaches_end done pl P pre post used); auto).
    assert (Hpre : pre = []).
    { assert (Er : rev pre = []).
      { apply (stretch_reaches_end done (rev pl) (rev P) (rev post) (rev pre)
                 used).
        - rewrite length_rev. exact Hlen.
        - destruct HL as [H|H]; [left; apply ChainLine_rev, H
                                |right; apply RingLine_rev, H].
        - rewrite EP, !rev_app_distr, <- app_assoc. reflexivity.
        - apply (Apart_ext done P); [|exact Hap]. intros y. apply In_rev_iff.
        - apply Joined_rev, HJ.
        - apply NoMatch_rev, Hno. }
      rewrite <- (rev_involutive pre), Er. reflexivity. }
    subst pre post. cbn [app] in EP. rewrite app_nil_r in EP. subst P.
    split; [|apply HJ', HJ].
    intros D HD. apply in_app_iff in HD as [HD|[<-|[]]]; [apply Hdone, HD|].
    destruct HP as [HC|[HR _]]; [left; exact HC|exfalso].
    (* a ring line that is not closed still has its closing edge *)
    pose proof (RingLine_length pl HR) as Hl3.
    pose proof (Line_NoDup pl HL) as Hnd.
    destruct pl as [|h l]; [cbn in Hl3; lia|].
    destruct (exists_last (l := h :: l) ltac:(discriminate)) as (pl0 & x & E).
    rewrite E in *.
    assert (Hw : LineEdge (pl0 ++ [x]) x h).
    { right. split; [exact HR|]. split; [exists pl0; reflexivity|].
      exists l. symmetry. exact E. }
    destruct (last_edge_back done pl0 x h used (pl0 ++ [x]) HL
                ltac:(apply in_elt) Hnd Hap HJ Hno Hw) as (pl00 & E0).
    subst pl0. destruct pl00 as [|g pl00].
    + cbn in Hl3. lia.
    + cbn [app] in E. injection E as E _. subst g.
      rewrite <- !app_assoc in Hnd. cbn [app] in Hnd.
      apply NoDup_cons_iff in Hnd as [Hnin _]. apply Hnin.
      rewrite in_app_iff. cbn [In]. tauto.
  - split; [|apply HJ', HJ].
    intros D HD. apply in_app_iff in HD as [HD|[<-|[]]]; [apply Hdone, HD|].
    right. exists P. auto.
Qed.

(** [stitchSegments] returns the chains, each in one of its two
    directions, and the rings, each closed, from one of its points and in
    one of its two directions. *)
Theorem stitch_components :
  ClipPlane.Outlines chains rings (ClipPlane.stitchWith samePoint segments).
Proof.
  destruct (stitch_rule samePoint segments Finished Inside)
    as (used & _ & (Hdone & HJ) & Hlen & Hall).
  - split; [intros D []|].
    intros j s Hs. rewrite nth_repeat. split; [discriminate|].
    intros (L & [] & _).
  - intros done used i s HS Hlen Hu Hs. apply Open_seed; assumption.
  - intros done pl used j s pl' HG Hlen Hu Hs Hc.
    apply (Inside_step done pl pl' used j s); assumption.
  - intros done pl used HG _ Hno. apply Finished_finish; assumption.
  - assert (Hshape : forall D, Complete D ->
              (exists c, In c chains /\ ClipPlane.chainOutline c D)
              \/ (exists r, In r rings /\ ClipPlane.ringOutline r D)).
    { intros D [[H|H]|(P & (r & Hr & Hrot) & ->)].
      - left. exists D. split; [exact H|left; reflexivity].
      - left. exists (rev D). split; [exact H|right].
        symmetry. apply rev_involutive.
      - right. exists r. split; [exact Hr|]. exists P. auto. }
    assert (Hfound : forall L u v, Line L -> LineEdge L u v ->
              exists D, In D (ClipPlane.stitchWith samePoint segments)
                        /\ Complete D /\ In u D).
    { intros L u v HL He.
      destruct (line_edge_seg L u v HL He) as (j & s & Hs & Hends).
      assert (Hj : j < length segments) by (apply nth_error_Some; congruence).
      destruct (proj1 (HJ j s Hs) (Hall j Hj)) as (D & HD & HeD).
      exists D. split; [exact HD|]. split; [apply Hdone, HD|].
      apply (edgeOf_ends D s u v Hends) in HeD as [H|H];
        apply (adjacent_In _ _ _ H). }
    split; [intros D HD; apply Hshape, Hdone, HD|]. split.
    + intros c Hc.
      destruct comps_ok as (_ & Hlen2 & _).
      pose proof (Hlen2 c Hc) as Hl.
      destruct c as [|u [|v l]]; cbn [length] in Hl; try lia.
      destruct (Hfound (u :: v :: l) u v) as (D & HD & HcD & HuD).
      { left. left. exact Hc. }
      { left. exists [], l. reflexivity. }
      exists D. split; [exact HD|].
      destruct HcD as [[H|H]|(P & (r & Hr & Hrot) & ->)].
      * left. apply (chains_unique D _ u H Hc HuD). left. reflexivity.
      * right.
        rewrite <- (chains_unique (rev D) _ u H Hc);
          [symmetry; apply rev_involutive|apply In_rev_iff, HuD
          |left; reflexivity].
      * exfalso. apply (chains_rings_apart _ r u Hc Hr); [left; reflexivity|].
        apply (RingLine_points P r u Hrot). apply In_closeRing, HuD.
    + intros r Hr.
      destruct comps_ok as (_ & _ & Hlen3 & _).
      pose proof (Hlen3 r Hr) as Hl.
      destruct r as [|u [|v l]]; cbn [length] in Hl; try lia.
      destruct (Hfound (u :: v :: l) u v) as (D & HD & HcD & HuD).
      { right. exists (u :: v :: l). split; [exact Hr|left].
        apply rotation_refl. }
      { left. exists [], l. reflexivity. }
      exists D. split; [exact HD|].
      destruct HcD as [[H|H]|(P & (r' & Hr' & Hrot) & ->)].
      * exfalso. apply (chains_rings_apart D _ u H Hr HuD). left. reflexivity.
      * exfalso. apply (chains_rings_apart (rev D) _ u H Hr);
          [apply In_rev_iff, HuD|left; reflexivity].
      * assert (r' = u :: v :: l).
        { apply (rings_unique r' _ u Hr' Hr); [|left; reflexivity].
          apply (RingLine_points P r' u Hrot). apply In_closeRing, HuD. }
        subst r'. exists P. auto.
Qed.

End Components.

Section Polylines.

Context {Point : Type}.

Lemma sameUpToReversal_sym (p q : list Point) :
  ClipPlane.sameUpToReversal p q -> ClipPlane.sameUpToReversal q p.
Proof.
  intros [-> | ->]; [left; reflexivity|right].
  symmetry. apply rev_involutive.
Qed.

(** Being the edges of chains and rings does not depend on the order of
    the segments. *)
Lemma Components_Permutation (samePoint : Point -> Point -> bool)
    (chains rings : list (list Point))
    (segments segments' : list (ClipPlane.Segment Point)) :
  Permutation segments segments' ->
  ClipPlane.Components samePoint chains rings segments ->
  ClipPlane.Components samePoint chains rings segments'.
Proof.
  intros Hp (H1 & H2 & H3 & H4 & H5 & H6 & H7 & H8).
  pose proof (Permutation_sym Hp) as Hp'.
  split; [exact H1|]. split; [exact H2|]. split; [exact H3|].
  split; [exact H4|]. split; [|split; [|split]].
  - intros s Hs. apply H5. apply (Permutation_in _ Hp' Hs).
  - intros c u v Hc Hadj. destruct (H6 c u v Hc Hadj) as (s & Hs & He).
    exists s. split; [apply (Permutation_in _ Hp Hs)|exact He].
  - apply (Permutation_NoDup Hp H7).
  - intros s Hs Hf. apply (H8 s); eapply Permutation_in; eassumption.
Qed.

Lemma chainOutline_same (c p q : list Point) :
  ClipPlane.chainOutline c p -> ClipPlane.chainOutline c q ->
  ClipPlane.sameUpToReversal p q.
Proof.
  intros [-> | ->] [-> | ->]; unfold ClipPlane.sameUpToReversal;
    rewrite ?rev_involutive; auto.
Qed.

(** Two lists of polylines that are the same chains and rings hold the
    same polylines, up to reversal and to the start of the rings. *)
Lemma Outlines_sameShapes (chains rings : list (list Point))
    (ps qs : list (list Point)) :
  ClipPlane.Outlines chains rings ps -> ClipPlane.Outlines chains rings qs ->
  ClipPlane.sameShapes ps qs.
Proof.
  assert (Hhalf : forall ps qs,
            ClipPlane.Outlines chains rings ps ->
            ClipPlane.Outlines chains rings qs ->
            forall p, In p ps ->
              exists q, In q qs
                /\ (ClipPlane.sameUpToReversal p q
                    \/ exists ring, ClipPlane.ringOutline ring p
                                    /\ ClipPlane.ringOutline ring q)).
  { clear ps qs. intros ps qs (Hp & _ & _) (_ & Hqc & Hqr) p Hin.
    destruct (Hp p Hin) as [(c & Hc & Ho)|(r & Hr & Ho)].
    - destruct (Hqc c Hc) as (q & Hq & Ho'). exists q. split; [exact Hq|].
      left. apply (chainOutline_same c); assumption.
    - destruct (Hqr r Hr) as (q & Hq & Ho'). exists q. split; [exact Hq|].
      right. exists r. auto. }
  intros Hps Hqs. split.
  - intros p Hp. apply (Hhalf ps qs Hps Hqs p Hp).
  - intros q Hq. destruct (Hhalf qs ps Hqs Hps q Hq) as (p & Hp & [E|E]).
    + exists p. split; [exact Hp|]. left. apply sameUpToReversal_sym, E.
    + exists p. split; [exact Hp|]. right.
      destruct E as (ring & E1 & E2). exists ring. auto.
Qed.

(** Without rings they are the same up to reversal. *)
Lemma Outlines_samePolylines (chains : list (list Point))
    (ps qs : list (list Point)) :
  ClipPlane.Outlines chains [] ps -> ClipPlane.Outlines chains [] qs ->
  ClipPlane.samePolylines ps qs.
Proof.
  assert (Hhalf : forall ps qs,
            ClipPlane.Outlines chains [] ps ->
            ClipPlane.Outlines chains [] qs ->
            forall p, In p ps ->
              exists q, In q qs /\ ClipPlane.sameUpToReversal p q).
  { clear ps qs. intros ps qs (Hp & _ & _) (_ & Hqc & _) p Hin.
    destruct (Hp p Hin) as [(c & Hc & Ho)|(r & [] & _)].
    destruct (Hqc c Hc) as (q & Hq & Ho'). exists q. split; [exact Hq|].
    apply (chainOutline_same c); assumption. }
  intros Hps Hqs. split.
  - intros p Hp. apply (Hhalf ps qs Hps Hqs p Hp).
  - intros q Hq. destruct (Hhalf qs ps Hqs Hps q Hq) as (p & Hp & E).
    exists p. split; [exact Hp|]. apply sameUpToReversal_sym, E.
Qed.

(** A closed ring ends where it starts. *)
Lemma ringOutline_closed (ring p : list Point) :
  ClipPlane.ringOutline ring p ->
  nth_error p (length p - 1) = nth_error p 0.
Proof.
  intros (P & _ & ->). destruct P as [|h t]; [reflexivity|].
  change (ClipPlane.closeRing (h :: t)) with ((h :: t) ++ [h]).
  rewrite nth_error_last. reflexivity.
Qed.

(** The edges of a chain, read off the list. *)
Lemma adjacent_combine (c : list Point) (u v : Point) :
  ClipPlane.adjacent c u v -> In (u, v) (combine c (tl c)).
Proof.
  intros (l1 & l2 & ->). induction l1 as [|a l1 IH].
  - left. reflexivity.
  - cbn [app tl]. destruct (l1 ++ u :: v :: l2) as [|b l] eqn:E.
    + destruct l1; discriminate.
    + right. exact IH.
Qed.

End Polylines.

(** Claim C9.  [stitchSegments] terminates: every bound above the number
    of segments lets all its loops run to their end with the same
    result; a pass of the scan either uses up a segment that was not
    used before or changes nothing, and then the [while] loop stops; and
    there are at most as many polylines as segments. *)
Theorem stitchSegments_terminates
    (segments : list (ClipPlane.Segment ClipPlane.Point3)) (tolerance : Q) :
  (forall fuel, length segments < fuel ->
     ClipPlane.stitchFuel (ClipPlane.samePoint tolerance) fuel segments
     = Some (ClipPlane.stitchSegments segments tolerance))
  /\ (forall polyline used polyline' used' extended,
        length used = length segments ->
        ClipPlane.scan (ClipPlane.samePoint tolerance) segments polyline used
        = (polyline', used', extended) ->
        if extended
        then ClipPlane.unusedCount used' < ClipPlane.unusedCount used
        else polyline' = polyline /\ used' = used
             /\ forall fuel,
                  ClipPlane.extendLoop (ClipPlane.samePoint tolerance)
                    (S fuel) segments polyline used
                  = Some (polyline, used))
  /\ length (ClipPlane.stitchSegments segments tolerance) <= length segments.
Proof.
  split; [|split].
  - intros fuel Hf. apply stitchFuel_enough, Hf.
  - intros polyline used polyline' used' extended Hlen Hscan.
    apply (scan_progress _ _ _ _ _ _ _ Hlen Hscan).
  - apply stitch_length.
Qed.

Lemma stitchSegments_terminates_witness :
  ClipPlane.stitchFuel (ClipPlane.samePoint ClipPlane.defaultTolerance) 4
    Examples.ringSegments
  = Some (ClipPlane.stitchSegments Examples.ringSegments
            ClipPlane.defaultTolerance).
Proof.
  apply (proj1 (stitchSegments_terminates Examples.ringSegments
                  ClipPlane.defaultTolerance)).
  cbn [length Examples.ringSegments]. lia.
Defined.


(** Claim C1, as the code has it.  When the segments are the edges of
    disjoint simple open chains and simple closed rings whose points
    coincide only when equal, [stitchSegments] returns these chains, each
    in one of its two directions, and these rings, each closed, started
    at one of its points and in one of its two directions; hence every
    permutation of the segments gives the same polylines up to reversal
    and, for the rings, up to the point they start from, and without
    rings the same polylines up to reversal. *)
Theorem stitchSegments_permutation_on_chains_and_rings
    (chains rings : list (list ClipPlane.Point3))
    (segments segments' : list (ClipPlane.Segment ClipPlane.Point3))
    (tolerance : Q) :
  ClipPlane.Components (ClipPlane.samePoint tolerance) chains rings segments ->
  Permutation segments segments' ->
  ClipPlane.Outlines chains rings
    (ClipPlane.stitchSegments segments tolerance)
  /\ ClipPlane.sameShapes (ClipPlane.stitchSegments segments tolerance)
       (ClipPlane.stitchSegments segments' tolerance)
  /\ (rings = [] ->
      ClipPlane.samePolylines (ClipPlane.stitchSegments segments tolerance)
        (ClipPlane.stitchSegments segments' tolerance)).
Proof.
  intros HC Hp.
  pose proof (stitch_components _ chains rings segments HC) as H1.
  pose proof (stitch_components _ chains rings segments'
                (Components_Permutation _ _ _ _ _ Hp HC)) as H2.
  split; [exact H1|]. split.
  - apply (Outlines_sameShapes chains rings); assumption.
  - intros ->. apply (Outlines_samePolylines chains); assumption.
Qed.

Lemma components_example :
  ClipPlane.Components (ClipPlane.samePoint ClipPlane.defaultTolerance)
    Examples.mixedChains Examples.mixedRings Examples.mixedSegments.
Proof.
  unfold ClipPlane.Components, Examples.mixedChains, Examples.mixedRings,
    Examples.mixedSegments, Examples.seg.
  split; [|split; [|split; [|split; [|split; [|split; [|split]]]]]].
  - cbn [concat app]. repeat constructor; cbn [In]; intuition discriminate.
  - intros c [<-|[]]; cbn [length]; lia.
  - intros c [<-|[]]; cbn [length]; lia.
  - cbn [concat app In]. intros a b Ha Hb.
    repeat match goal with
           | H : _ \/ _ |- _ => destruct H as [H|H]
           | H : False |- _ => destruct H
           end; subst a b;
      (split; [intros H; vm_compute in H; first [reflexivity|discriminate]
              |intros H; first [vm_compute; reflexivity|discriminate]]).
  - cbn [In map app ClipPlane.closeRing firstn].
    intros s [<-|[<-|[<-|[<-|[<-|[]]]]]];
      cbn [ClipPlane.start ClipPlane.end_].
    + eexists. split; [right; left; reflexivity|]. left.
      exists [Examples.vec 0 0 0], [Examples.vec 0 0 0]. reflexivity.
    + eexists. split; [left; reflexivity|]. left.
      exists [Examples.vec 0 5 0], []. reflexivity.
    + eexists. split; [right; left; reflexivity|]. left.
      exists [], [Examples.vec 0 1 0; Examples.vec 0 0 0]. reflexivity.
    + eexists. split; [left; reflexivity|]. right.
      exists [], [Examples.vec 2 5 0]. reflexivity.
    + eexists. split; [right; left; reflexivity|]. left.
      exists [Examples.vec 0 0 0; Examples.vec 1 0 0], []. reflexivity.
  - intros c u v Hc Hadj. apply adjacent_combine in Hadj.
    cbn [In map app ClipPlane.closeRing firstn] in Hc.
    destruct Hc as [<-|[<-|[]]]; cbn [combine tl In] in Hadj;
      repeat match goal with
             | H : _ \/ _ |- _ => destruct H as [H|H]
             | H : False |- _ => destruct H
             | H : (_, _) = (_, _) |- _ => injection H as <- <-
             end.
    + eexists. split; [right; right; right; left; reflexivity|]. right. auto.
    + eexists. split; [right; left; reflexivity|]. left. auto.
    + eexists. split; [right; right; left; reflexivity|]. left. auto.
    + eexists. split; [left; reflexivity|]. left. auto.
    + eexists. split; [right; right; right; right; left; reflexivity|].
      left. auto.
  - repeat constructor; cbn [In]; intuition discriminate.
  - cbn [In]. intros s [<-|[<-|[<-|[<-|[<-|[]]]]]]; unfold ClipPlane.flip;
      cbn [ClipPlane.start ClipPlane.end_]; intuition discriminate.
Qed.

Lemma stitchSegments_permutation_on_chains_and_rings_witness :
  ClipPlane.Outlines Examples.mixedChains Examples.mixedRings
    (ClipPlane.stitchSegments Examples.mixedSegments
       ClipPlane.defaultTolerance)
  /\ ClipPlane.sameShapes
       (ClipPlane.stitchSegments Examples.mixedSegments
          ClipPlane.defaultTolerance)
       (ClipPlane.stitchSegments Examples.mixedShuffled
          ClipPlane.defaultTolerance)
  /\ (Examples.mixedRings = [] ->
      ClipPlane.samePolylines
        (ClipPlane.stitchSegments Examples.mixedSegments
           ClipPlane.defaultTolerance)
        (ClipPlane.stitchSegments Examples.mixedShuffled
           ClipPlane.defaultTolerance)).
Proof.
  apply (stitchSegments_permutation_on_chains_and_rings
           Examples.mixedChains Examples.mixedRings
           Examples.mixedSegments Examples.mixedShuffled
           ClipPlane.defaultTolerance components_example).
  exact (Permutation_cons_append
           [Examples.seg (Examples.vec 1 5 0) (Examples.vec 2 5 0);
            Examples.seg (Examples.vec 0 0 0) (Examples.vec 1 0 0);
            Examples.seg (Examples.vec 1 5 0) (Examples.vec 0 5 0);
            Examples.seg (Examples.vec 0 1 0) (Examples.vec 0 0 0)]
           (Examples.seg (Examples.vec 1 0 0) (Examples.vec 0 1 0))).
Defined.

(** At a point shared by three segments, and with two distinct points
    within the tolerance, the polylines depend on the order of the
    segments even up to the start of closed rings. *)
Lemma stitchSegments_order_beyond_rings :
  ~ ClipPlane.sameShapes
      (ClipPlane.stitchSegments Examples.branchSegments
         ClipPlane.defaultTolerance)
      (ClipPlane.stitchSegments Examples.branchShuffled
         ClipPlane.defaultTolerance)
  /\ ~ ClipPlane.sameShapes
         (ClipPlane.stitchSegments Examples.nearSegments
            ClipPlane.defaultTolerance)
         (ClipPlane.stitchSegments Examples.nearShuffled
            ClipPlane.defaultTolerance).
Proof.
  split.
  - assert (E1 : ClipPlane.stitchSegments Examples.branchSegments
                   ClipPlane.defaultTolerance
                 = [[Examples.vec 0 0 0; Examples.vec 1 0 0;
                     Examples.vec 2 0 0];
                    [Examples.vec 1 0 0; Examples.vec 1 1 0]])
      by (vm_compute; reflexivity).
    assert (E2 : ClipPlane.stitchSegments Examples.branchShuffled
                   ClipPlane.defaultTolerance
                 = [[Examples.vec 0 0 0; Examples.vec 1 0 0;
                     Examples.vec 1 1 0];
                    [Examples.vec 1 0 0; Examples.vec 2 0 0]])
      by (vm_compute; reflexivity).
    rewrite E1, E2. intros [H _].
    destruct (H _ (or_introl eq_refl))
      as (q & [<-|[<-|[]]] & [[E|E]|(ring & Hp & _)]);
      try (cbn [rev app] in E; discriminate);
      apply ringOutline_closed in Hp; discriminate.
  - assert (E1 : ClipPlane.stitchSegments Examples.nearSegments
                   ClipPlane.defaultTolerance
                 = [[Examples.vec 0 0 0; Examples.vec 1 0 0;
                     Examples.vec 2 0 0]])
      by (vm_compute; reflexivity).
    assert (E2 : ClipPlane.stitchSegments Examples.nearShuffled
                   ClipPlane.defaultTolerance
                 = [[Examples.vec 0 0 0;
                     Examples.vec (10000001 # 10000000) 0 0;
                     Examples.vec 2 0 0]])
      by (vm_compute; reflexivity).
    rewrite E1, E2. intros [H _].
    destruct (H _ (or_introl eq_refl))
      as (q & [<-|[]] & [[E|E]|(ring & Hp & _)]);
      try (cbn [rev app] in E; discriminate);
      apply ringOutline_closed in Hp; discriminate.
Qed.

(** Claim C1 as stated fails: the three segments of a closed triangle
    give, in another order, the same ring started at another vertex,
    which is neither the first polyline nor its reverse; three segments
    that share a point are split into two polylines in another way; and
    of two segments whose ends are [1e-7] apart either end can become
    the point of the polyline. *)
Lemma stitchSegments_depends_on_order :
  Permutation Examples.ringSegments Examples.ringShuffled
  /\ ~ ClipPlane.samePolylines
         (ClipPlane.stitchSegments Examples.ringSegments
            ClipPlane.defaultTolerance)
         (ClipPlane.stitchSegments Examples.ringShuffled
            ClipPlane.defaultTolerance)
  /\ Permutation Examples.branchSegments Examples.branchShuffled
  /\ ~ ClipPlane.samePolylines
         (ClipPlane.stitchSegments Examples.branchSegments
            ClipPlane.defaultTolerance)
         (ClipPlane.stitchSegments Examples.branchShuffled
            ClipPlane.defaultTolerance)
  /\ Permutation Examples.nearSegments Examples.nearShuffled
  /\ ~ ClipPlane.samePolylines
         (ClipPlane.stitchSegments Examples.nearSegments
            ClipPlane.defaultTolerance)
         (ClipPlane.stitchSegments Examples.nearShuffled
            ClipPlane.defaultTolerance).
Proof.
  split; [|split; [|split; [|split; [|split]]]].
  - exact (Permutation_cons_append
             [Examples.seg (Examples.vec 1 0 0) (Examples.vec 0 1 0);
              Examples.seg (Examples.vec 0 1 0) (Examples.vec 0 0 0)]
             (Examples.seg (Examples.vec 0 0 0) (Examples.vec 1 0 0))).
  - assert (E1 : ClipPlane.stitchSegments Examples.ringSegments
                   ClipPlane.defaultTolerance
                 = [[Examples.vec 0 0 0; Examples.vec 1 0 0;
                     Examples.vec 0 1 0; Examples.vec 0 0 0]])
      by (vm_compute; reflexivity).
    assert (E2 : ClipPlane.stitchSegments Examples.ringShuffled
                   ClipPlane.defaultTolerance
                 = [[Examples.vec 1 0 0; Examples.vec 0 1 0;
                     Examples.vec 0 0 0; Examples.vec 1 0 0]])
      by (vm_compute; reflexivity).
    rewrite E1, E2. intros [H _].
    destruct (H _ (or_introl eq_refl)) as (q & [<-|[]] & [E|E]);
      cbn [rev app] in E; discriminate.
  - unfold Examples.branchSegments, Examples.branchShuffled.
    apply perm_skip, perm_swap.
  - assert (E1 : ClipPlane.stitchSegments Examples.branchSegments
                   ClipPlane.defaultTolerance
                 = [[Examples.vec 0 0 0; Examples.vec 1 0 0;
                     Examples.vec 2 0 0];
                    [Examples.vec 1 0 0; Examples.vec 1 1 0]])
      by (vm_compute; reflexivity).
    assert (E2 : ClipPlane.stitchSegments Examples.branchShuffled
                   ClipPlane.defaultTolerance
                 = [[Examples.vec 0 0 0; Examples.vec 1 0 0;
                     Examples.vec 1 1 0];
                    [Examples.vec 1 0 0; Examples.vec 2 0 0]])
      by (vm_compute; reflexivity).
    rewrite E1, E2. intros [H _].
    destruct (H _ (or_introl eq_refl)) as (q & [<-|[<-|[]]] & [E|E]);
      cbn [rev app] in E; discriminate.
  - apply perm_swap.
  - assert (E1 : ClipPlane.stitchSegments Examples.nearSegments
                   ClipPlane.defaultTolerance
                 = [[Examples.vec 0 0 0; Examples.vec 1 0 0;
                     Examples.vec 2 0 0]])
      by (vm_compute; reflexivity).
    assert (E2 : ClipPlane.stitchSegments Examples.nearShuffled
                   ClipPlane.defaultTolerance
                 = [[Examples.vec 0 0 0;
                     Examples.vec (10000001 # 10000000) 0 0;
                     Examples.vec 2 0 0]])
      by (vm_compute; reflexivity).
    rewrite E1, E2. intros [H _].
    destruct (H _ (or_introl eq_refl)) as (q & [<-|[]] & [E|E]);
      cbn [rev app] in E; discriminate.
Qed.

(** * Further properties of the code *)

Section Equalizing.
Local Open Scope R_scope.

(** The angle [atan2 y x] points along [(x, y)]. *)
Lemma atan2_cross (y x : R) :
  x * sin (Utils.atan2 y x) = y * cos (Utils.atan2 y x).
Proof.
  assert (Hatan : forall t, sin (atan t) = t * cos (atan t)).
  { intros t. rewrite sin_atan, cos_atan. field.
    apply Rgt_not_eq, sqrt_lt_R0. unfold Rsqr. nra. }
  unfold Utils.atan2.
  destruct (Rlt_dec 0 x) as [Hx|Hx].
  - rewrite Hatan. field. lra.
  - destruct (Rlt_dec x 0) as [Hx'|Hx'].
    + destruct (Rle_dec 0 y).
      * rewrite neg_sin, neg_cos, Hatan. field. lra.
      * unfold Rminus. rewrite sin_plus, cos_plus, sin_neg, cos_neg, sin_PI, cos_PI, Hatan.
        field. lra.
    + assert (x = 0) by lra. subst x.
      destruct (Rlt_dec 0 y); [rewrite cos_PI2; ring|].
      destruct (Rlt_dec y 0); [rewrite cos_neg, cos_PI2; ring|].
      assert (y = 0) by lra. subst y. ring.
Qed.

Lemma atan2_along (y x : R) :
  0 <= x * cos (Utils.atan2 y x) + y * sin (Utils.atan2 y x).
Proof.
  assert (Hcos : forall t, 0 < cos (atan t)).
  { intros t. rewrite cos_atan. apply Rdiv_lt_0_compat; [lra|].
    apply sqrt_lt_R0. unfold Rsqr. nra. }
  assert (Hatan : forall t, sin (atan t) = t * cos (atan t)).
  { intros t. rewrite sin_atan, cos_atan. field.
    apply Rgt_not_eq, sqrt_lt_R0. unfold Rsqr. nra. }
  unfold Utils.atan2.
  destruct (Rlt_dec 0 x) as [Hx|Hx].
  - rewrite Hatan. pose proof (Hcos (y / x)) as Hc.
    replace (x * cos (atan (y / x)) + y * (y / x * cos (atan (y / x))))
      with (cos (atan (y / x)) * ((x * x + y * y) / x)) by (field; lra).
    apply Rmult_le_pos; [lra|]. apply Rlt_le, Rdiv_lt_0_compat; nra.
  - destruct (Rlt_dec x 0) as [Hx'|Hx'].
    + assert (E : forall a, a = atan (y / x) + PI \/ a = atan (y / x) - PI ->
                   0 <= x * cos a + y * sin a).
      { intros a Ha.
        assert (Hc : cos a = - cos (atan (y / x)) /\ sin a = - sin (atan (y / x))).
        { destruct Ha as [-> | ->].
          - rewrite neg_sin, neg_cos. auto.
          - unfold Rminus.
            rewrite sin_plus, cos_plus, sin_neg, cos_neg, sin_PI, cos_PI.
            split; ring. }
        destruct Hc as [-> ->]. rewrite Hatan.
        pose proof (Hcos (y / x)) as Hc.
        replace (x * - cos (atan (y / x)) + y * - (y / x * cos (atan (y / x))))
          with (cos (atan (y / x)) * ((x * x + y * y) / (- x)))
          by (field; lra).
        apply Rmult_le_pos; [lra|]. apply Rlt_le, Rdiv_lt_0_compat; nra. }
      destruct (Rle_dec 0 y); apply E; auto.
    + assert (x = 0) by lra. subst x.
      destruct (Rlt_dec 0 y); [rewrite sin_PI2; lra|].
      destruct (Rlt_dec y 0); [rewrite sin_neg, sin_PI2; lra|].
      assert (y = 0) by lra. subst y. lra.
Qed.

Lemma applyAxisAngle_x (angle : R) (p : THREE.Vector3 R) :
  THREE.applyAxisAngle p (THREE.mkVector3 1 0 0) angle
  = THREE.mkVector3 (THREE.x p)
      (THREE.y p * cos angle - THREE.z p * sin angle)
      (THREE.y p * sin angle + THREE.z p * cos angle).
Proof.
  unfold THREE.applyAxisAngle, THREE.applyQuaternion, THREE.setFromAxisAngle.
  cbn [THREE.qx THREE.qy THREE.qz THREE.qw THREE.x THREE.y THREE.z].
  replace (cos angle) with (1 - 2 * sin (angle / 2) * sin (angle / 2))
    by (rewrite <- cos_2a_sin; f_equal; field).
  replace (sin angle) with (2 * sin (angle / 2) * cos (angle / 2))
    by (rewrite <- sin_2a; f_equal; field).
  f_equal; ring.
Qed.

Lemma rotateY_formula (angle : R) (p : THREE.Vector3 R) :
  Utils.rotateY angle p
  = THREE.mkVector3 (THREE.x p * cos angle + THREE.z p * sin angle)
      (THREE.y p)
      (THREE.z p * cos angle - THREE.x p * sin angle).
Proof.
  unfold Utils.rotateY, THREE.applyAxisAngle, THREE.applyQuaternion,
    THREE.setFromAxisAngle.
  cbn [THREE.qx THREE.qy THREE.qz THREE.qw THREE.x THREE.y THREE.z].
  replace (cos angle) with (1 - 2 * sin (angle / 2) * sin (angle / 2))
    by (rewrite <- cos_2a_sin; f_equal; field).
  replace (sin angle) with (2 * sin (angle / 2) * cos (angle / 2))
    by (rewrite <- sin_2a; f_equal; field).
  f_equal; ring.
Qed.

Lemma rotateZ_formula (angle : R) (p : THREE.Vector3 R) :
  Utils.rotateZ angle p
  = THREE.mkVector3 (THREE.x p * cos angle - THREE.y p * sin angle)
      (THREE.x p * sin angle + THREE.y p * cos angle)
      (THREE.z p).
Proof.
  unfold Utils.rotateZ, THREE.applyAxisAngle, THREE.applyQuaternion,
    THREE.setFromAxisAngle.
  cbn [THREE.qx THREE.qy THREE.qz THREE.qw THREE.x THREE.y THREE.z].
  replace (cos angle) with (1 - 2 * sin (angle / 2) * sin (angle / 2))
    by (rewrite <- cos_2a_sin; f_equal; field).
  replace (sin angle) with (2 * sin (angle / 2) * cos (angle / 2))
    by (rewrite <- sin_2a; f_equal; field).
  f_equal; ring.
Qed.

(** Property X1 ([Utils.angleToEqualizeZ]).  The angle does what the
    name says: after [applyAxisAngle] about the X axis by
    [angleToEqualizeZ p1 p2] the two points have the same [z], the first
    one has the larger (or the same) [y], and [x] is unchanged. *)
Theorem angleToEqualizeZ_levels (p1 p2 : THREE.Vector3 R) :
  let angle := Utils.angleToEqualizeZ p1 p2 in
  let q1 := THREE.applyAxisAngle p1 (THREE.mkVector3 1 0 0) angle in
  let q2 := THREE.applyAxisAngle p2 (THREE.mkVector3 1 0 0) angle in
  THREE.z q1 = THREE.z q2
  /\ THREE.y q2 <= THREE.y q1
  /\ THREE.x q1 = THREE.x p1 /\ THREE.x q2 = THREE.x p2.
Proof.
  intros angle q1 q2. subst q1 q2. rewrite !applyAxisAngle_x.
  cbn [THREE.x THREE.y THREE.z].
  pose proof (atan2_cross (THREE.z p2 - THREE.z p1) (THREE.y p1 - THREE.y p2))
    as Hc.
  pose proof (atan2_along (THREE.z p2 - THREE.z p1) (THREE.y p1 - THREE.y p2))
    as Ha.
  fold (Utils.angleToEqualizeZ p1 p2) in Hc, Ha. fold angle in Hc, Ha.
  repeat split; lra.
Qed.

(** Property X2 ([Utils.angleZToEqualizeX]).  After [applyAxisAngle]
    about the Z axis by [angleZToEqualizeX p1 p2] the two points have the
    same [x], the first one has the larger (or the same) [y], and [z] is
    unchanged. *)
Theorem angleZToEqualizeX_levels (p1 p2 : THREE.Vector3 R) :
  let angle := Utils.angleZToEqualizeX p1 p2 in
  let q1 := THREE.applyAxisAngle p1 (THREE.mkVector3 0 0 1) angle in
  let q2 := THREE.applyAxisAngle p2 (THREE.mkVector3 0 0 1) angle in
  THREE.x q1 = THREE.x q2
  /\ THREE.y q2 <= THREE.y q1
  /\ THREE.z q1 = THREE.z p1 /\ THREE.z q2 = THREE.z p2.
Proof.
  intros angle q1 q2. subst q1 q2.
  change (THREE.applyAxisAngle p1 (THREE.mkVector3 0 0 1) angle)
    with (Utils.rotateZ angle p1).
  change (THREE.applyAxisAngle p2 (THREE.mkVector3 0 0 1) angle)
    with (Utils.rotateZ angle p2).
  rewrite !rotateZ_formula. cbn [THREE.x THREE.y THREE.z].
  pose proof (atan2_cross (THREE.x p1 - THREE.x p2) (THREE.y p1 - THREE.y p2))
    as Hc.
  pose proof (atan2_along (THREE.x p1 - THREE.x p2) (THREE.y p1 - THREE.y p2))
    as Ha.
  fold (Utils.angleZToEqualizeX p1 p2) in Hc, Ha. fold angle in Hc, Ha.
  repeat split; lra.
Qed.

End Equalizing.

Section AngleToEqualize.
Local Open Scope R_scope.

(** Property X3 ([Utils.angleToEqualize]).  For the axis ['x'] the
    general function returns the angle of [angleToEqualizeZ], for ['z']
    the angle of [angleZToEqualizeX]; for every axis other than ['x'],
    ['y'] and ['z'] it throws the error [Axis must be 'x', 'y', or 'z']. *)
Theorem angleToEqualize_axes (p1 p2 : THREE.Vector3 R) :
  Utils.angleToEqualize p1 p2 "x" = Utils.Returns (Utils.angleToEqualizeZ p1 p2)
  /\ Utils.angleToEqualize p1 p2 "z"
     = Utils.Returns (Utils.angleZToEqualizeX p1 p2)
  /\ forall axis : string,
       axis <> "x"%string -> axis <> "y"%string -> axis <> "z"%string ->
       Utils.angleToEqualize p1 p2 axis
       = Utils.ThrowsError "Axis must be 'x', 'y', or 'z'".
Proof.
  split; [reflexivity|]. split; [reflexivity|].
  intros axis Hx Hy Hz. unfold Utils.angleToEqualize.
  apply String.eqb_neq in Hx, Hy, Hz. rewrite Hx, Hy, Hz. reflexivity.
Qed.

Lemma angleToEqualize_axes_witness :
  Utils.angleToEqualize (THREE.mkVector3 0 0 0) (THREE.mkVector3 0 1 1) "w"
  = Utils.ThrowsError "Axis must be 'x', 'y', or 'z'".
Proof.
  apply (proj2 (proj2 (angleToEqualize_axes (THREE.mkVector3 0 0 0)
                         (THREE.mkVector3 0 1 1))) "w"%string);
    discriminate.
Defined.

(** Property X4 ([Utils.angleToEqualize], axis ['y']).  For ['y'] the
    sign is the other way round: rotating the two points about the Y
    axis by the opposite of the returned angle gives them the same [z];
    rotating them by the returned angle itself does not, as the points
    (1,0,1) and (0,0,0) show. *)
Theorem angleToEqualize_y_opposite :
  (forall p1 p2 : THREE.Vector3 R,
     exists angle,
       Utils.angleToEqualize p1 p2 "y" = Utils.Returns angle
       /\ THREE.z (Utils.rotateY (- angle) p1)
          = THREE.z (Utils.rotateY (- angle) p2)
       /\ THREE.x (Utils.rotateY (- angle) p2)
          <= THREE.x (Utils.rotateY (- angle) p1))
  /\ (exists (p1 p2 : THREE.Vector3 R) (angle : R),
        Utils.angleToEqualize p1 p2 "y" = Utils.Returns angle
        /\ THREE.z (Utils.rotateY angle p1)
           <> THREE.z (Utils.rotateY angle p2)).
Proof.
  split.
  - intros p1 p2. eexists. split; [reflexivity|].
    rewrite !rotateY_formula. cbn [THREE.x THREE.y THREE.z].
    rewrite cos_neg, sin_neg.
    pose proof (atan2_cross (THREE.z p2 - THREE.z p1)
                  (THREE.x p1 - THREE.x p2)) as Hc.
    pose proof (atan2_along (THREE.z p2 - THREE.z p1)
                  (THREE.x p1 - THREE.x p2)) as Ha.
    split; lra.
  - exists (THREE.mkVector3 1 0 1), (THREE.mkVector3 0 0 0). eexists.
    split; [reflexivity|].
    rewrite !rotateY_formula. cbn [THREE.x THREE.y THREE.z].
    replace (0 - 1) with (-1) by ring. replace (1 - 0) with 1 by ring.
    rewrite atan2_pos_x by lra.
    replace (-1 / 1) with (Ropp 1) by field.
    rewrite atan_opp, atan_1, cos_neg, sin_neg, cos_PI4, sin_PI4.
    assert (0 < 1 / sqrt 2).
    { apply Rdiv_lt_0_compat; [lra|]. apply sqrt_lt_R0. lra. }
    lra.
Qed.

End AngleToEqualize.

Section PlanesIntersectionLine.
Local Open Scope Q_scope.

Lemma getPlanesIntersectionLine_Some (plane1 plane2 : THREE.Plane)
    (line : Utils.IntersectionLine) :
  Utils.getPlanesIntersectionLine plane1 plane2 = Some line ->
  let n1 := THREE.normal plane1 in
  let n2 := THREE.normal plane2 in
  let n1xn2 := THREE.crossVectors n1 n2 in
  ~ THREE.lengthSq n1xn2 == 0
  /\ Utils.point line
     = THREE.divideScalar
         (THREE.addVectors
            (THREE.multiplyScalar (THREE.crossVectors n1xn2 n2)
               (- THREE.constant plane1))
            (THREE.multiplyScalar (THREE.crossVectors n1 n1xn2)
               (- THREE.constant plane2)))
         (THREE.lengthSq n1xn2)
  /\ Utils.direction line = THREE.normalize (THREE.toReal n1xn2).
Proof.
  unfold Utils.getPlanesIntersectionLine.
  destruct (Qeq_bool _ 0) eqn:E; [discriminate|].
  intros [= <-]. cbn [Utils.point Utils.direction].
  split; [|split; reflexivity].
  intros H. apply Qeq_bool_iff in H. congruence.
Qed.

(** Property X6 ([Utils.getPlanesIntersectionLine], the point).  The
    point that is returned is the mirror image, through the origin, of a
    point of the intersection line: its negation lies on both planes, and
    its own signed distance to each plane is twice the constant of that
    plane, so it lies on a plane only when that plane passes through the
    origin. *)
Theorem getPlanesIntersectionLine_point_mirrored
    (plane1 plane2 : THREE.Plane) (line : Utils.IntersectionLine) :
  Utils.getPlanesIntersectionLine plane1 plane2 = Some line ->
  THREE.distanceToPoint plane1 (THREE.negate (Utils.point line)) == 0
  /\ THREE.distanceToPoint plane2 (THREE.negate (Utils.point line)) == 0
  /\ THREE.distanceToPoint plane1 (Utils.point line)
     == 2 * THREE.constant plane1
  /\ THREE.distanceToPoint plane2 (Utils.point line)
     == 2 * THREE.constant plane2.
Proof.
  intros H. destruct (getPlanesIntersectionLine_Some _ _ _ H) as (Hn & -> & _).
  destruct plane1 as [[a1 b1 c1] k1], plane2 as [[a2 b2 c2] k2].
  unfold THREE.distanceToPoint, THREE.dot, THREE.negate, THREE.divideScalar,
    THREE.multiplyScalar, THREE.addVectors, THREE.lengthSq, THREE.crossVectors
    in *.
  cbn [THREE.x THREE.y THREE.z THREE.normal THREE.constant] in *.
  repeat split; field; exact Hn.
Qed.

End PlanesIntersectionLine.

Section PlanesIntersectionDirection.
Local Open Scope R_scope.

Lemma length_normalize (v : THREE.Vector3 R) :
  THREE.length v <> 0 -> THREE.length (THREE.normalize v) = 1.
Proof.
  intros Hl. unfold THREE.normalize.
  destruct (Req_dec_T (THREE.length v) 0) as [E|_]; [contradiction|].
  unfold THREE.length in *. cbn [THREE.x THREE.y THREE.z].
  set (l := sqrt (THREE.x v * THREE.x v + THREE.y v * THREE.y v
                  + THREE.z v * THREE.z v)) in *.
  assert (Hsq : l * l = THREE.x v * THREE.x v + THREE.y v * THREE.y v
                        + THREE.z v * THREE.z v).
  { apply sqrt_sqrt. nra. }
  replace (THREE.x v * (1 / l) * (THREE.x v * (1 / l))
           + THREE.y v * (1 / l) * (THREE.y v * (1 / l))
           + THREE.z v * (1 / l) * (THREE.z v * (1 / l)))
    with ((THREE.x v * THREE.x v + THREE.y v * THREE.y v
           + THREE.z v * THREE.z v) / (l * l)) by (field; exact Hl).
  rewrite <- Hsq. replace (l * l / (l * l)) with 1 by (field; exact Hl).
  apply sqrt_1.
Qed.

Lemma dotR_normalize (n v : THREE.Vector3 R) :
  THREE.dotR n v = 0 -> THREE.dotR n (THREE.normalize v) = 0.
Proof.
  unfold THREE.dotR, THREE.normalize. cbn [THREE.x THREE.y THREE.z].
  intros H.
  set (d := if Req_dec_T (THREE.length v) 0 then 1 else THREE.length v).
  replace (THREE.x n * (THREE.x v * (1 / d)) + THREE.y n * (THREE.y v * (1 / d))
           + THREE.z n * (THREE.z v * (1 / d)))
    with ((THREE.x n * THREE.x v + THREE.y n * THREE.y v
           + THREE.z n * THREE.z v) * (1 / d)) by ring.
  rewrite H. ring.
Qed.

Lemma length_toReal (v : THREE.Vector3 Q) :
  ~ (THREE.lengthSq v == 0)%Q -> THREE.length (THREE.toReal v) <> 0.
Proof.
  intros Hn Hl. apply Hn. unfold THREE.length, THREE.toReal in Hl.
  cbn [THREE.x THREE.y THREE.z] in Hl.
  apply sqrt_eq_0 in Hl; [|nra].
  apply eqR_Qeq. unfold THREE.lengthSq.
  rewrite !Q2R_plus, !Q2R_mult, RMicromega.Q2R_0. exact Hl.
Qed.

(** Property X7 ([Utils.getPlanesIntersectionLine], the direction).
    The direction that is returned has length 1 and is orthogonal to both
    normals. *)
Theorem getPlanesIntersectionLine_direction
    (plane1 plane2 : THREE.Plane) (line : Utils.IntersectionLine) :
  Utils.getPlanesIntersectionLine plane1 plane2 = Some line ->
  THREE.length (Utils.direction line) = 1
  /\ THREE.dotR (THREE.toReal (THREE.normal plane1)) (Utils.direction line) = 0
  /\ THREE.dotR (THREE.toReal (THREE.normal plane2)) (Utils.direction line) = 0.
Proof.
  intros H. destruct (getPlanesIntersectionLine_Some _ _ _ H) as (Hn & _ & ->).
  split; [apply length_normalize, length_toReal, Hn|].
  split; apply dotR_normalize; unfold THREE.dotR, THREE.toReal,
    THREE.crossVectors; cbn [THREE.x THREE.y THREE.z];
    rewrite !Q2R_minus, !Q2R_mult; ring.
Qed.

Lemma getPlanesIntersectionLine_direction_witness :
  exists line,
    Utils.getPlanesIntersectionLine Examples.planeX1 Examples.planeY2
    = Some line
    /\ THREE.length (Utils.direction line) = 1
    /\ THREE.dotR (THREE.toReal (THREE.normal Examples.planeX1))
         (Utils.direction line) = 0
    /\ THREE.dotR (THREE.toReal (THREE.normal Examples.planeY2))
         (Utils.direction line) = 0.
Proof.
  eexists. split; [reflexivity|].
  apply (getPlanesIntersectionLine_direction Examples.planeX1
           Examples.planeY2).
  reflexivity.
Defined.

Lemma getPlanesIntersectionLine_point_mirrored_witness :
  exists line,
    Utils.getPlanesIntersectionLine Examples.planeX1 Examples.planeY2
    = Some line
    /\ (THREE.distanceToPoint Examples.planeX1
          (THREE.negate (Utils.point line)) == 0)%Q
    /\ (THREE.distanceToPoint Examples.planeY2
          (THREE.negate (Utils.point line)) == 0)%Q
    /\ (THREE.distanceToPoint Examples.planeX1 (Utils.point line)
        == 2 * THREE.constant Examples.planeX1)%Q
    /\ (THREE.distanceToPoint Examples.planeY2 (Utils.point line)
        == 2 * THREE.constant Examples.planeY2)%Q.
Proof.
  eexists. split; [reflexivity|].
  apply (getPlanesIntersectionLine_point_mirrored Examples.planeX1
           Examples.planeY2).
  reflexivity.
Defined.

End PlanesIntersectionDirection.

Section BoundsTree.
Local Open Scope Q_scope.

Variable mesh : ClipPlane.Mesh.
Variable localPlane : THREE.Plane.

(** A box the plane does not meet lies strictly on one side of it. *)
Lemma intersectsBox_false (box : THREE.Box3) :
  THREE.intersectsBox localPlane box = false ->
  exists sign : bool,
    forall v, THREE.containsPoint box v = true ->
      if sign then 0 < THREE.distanceToPoint localPlane v
      else THREE.distanceToPoint localPlane v < 0.
Proof.
  unfold THREE.intersectsBox. cbv zeta.
  destruct localPlane as [[nx ny nz] k], box as [[x0 y0 z0] [x1 y1 z1]].
  cbn [THREE.normal THREE.constant THREE.min THREE.max THREE.x THREE.y THREE.z].
  intros H.
  assert (Hin : forall v : THREE.Vector3 Q,
            THREE.containsPoint
              (THREE.mkBox3 (THREE.mkVector3 x0 y0 z0)
                 (THREE.mkVector3 x1 y1 z1)) v = true ->
            x0 <= THREE.x v <= x1 /\ y0 <= THREE.y v <= y1
            /\ z0 <= THREE.z v <= z1).
  { intros v Hv. unfold THREE.containsPoint in Hv.
    cbn [THREE.min THREE.max THREE.x THREE.y THREE.z] in Hv.
    rewrite !andb_true_iff, !Qle_bool_iff in Hv. tauto. }
  assert (Hlo : forall n lo hi t : Q, lo <= t <= hi ->
            (if THREE.Qltb 0 n then n * lo else n * hi) <= n * t).
  { intros n lo hi t Ht. destruct (THREE.Qltb 0 n) eqn:E.
    - apply Qltb_true in E. nra.
    - apply Qltb_false in E. nra. }
  assert (Hhi : forall n lo hi t : Q, lo <= t <= hi ->
            n * t <= (if THREE.Qltb 0 n then n * hi else n * lo)).
  { intros n lo hi t Ht. destruct (THREE.Qltb 0 n) eqn:E.
    - apply Qltb_true in E. nra.
    - apply Qltb_false in E. nra. }
  apply andb_false_iff in H as [H|H].
  - exists true. intros v Hv. apply Hin in Hv as (Hx & Hy & Hz).
    destruct (Qle_bool _ (- k)) eqn:E in H; [discriminate|].
    assert (Hlt : - k < (if THREE.Qltb 0 nx then nx * x0 else nx * x1)
                        + (if THREE.Qltb 0 ny then ny * y0 else ny * y1)
                        + (if THREE.Qltb 0 nz then nz * z0 else nz * z1)).
    { apply Qnot_le_lt. intros Hle. apply Qle_bool_iff in Hle. congruence. }
    pose proof (Hlo nx x0 x1 _ Hx). pose proof (Hlo ny y0 y1 _ Hy).
    pose proof (Hlo nz z0 z1 _ Hz).
    unfold THREE.distanceToPoint, THREE.dot.
    cbn [THREE.normal THREE.constant THREE.x THREE.y THREE.z]. lra.
  - exists false. intros v Hv. apply Hin in Hv as (Hx & Hy & Hz).
    destruct (Qle_bool (- k) _) eqn:E in H; [discriminate|].
    assert (Hlt : (if THREE.Qltb 0 nx then nx * x1 else nx * x0)
                  + (if THREE.Qltb 0 ny then ny * y1 else ny * y0)
                  + (if THREE.Qltb 0 nz then nz * z1 else nz * z0) < - k).
    { apply Qnot_le_lt. intros Hle. apply Qle_bool_iff in Hle. congruence. }
    pose proof (Hhi nx x0 x1 _ Hx). pose proof (Hhi ny y0 y1 _ Hy).
    pose proof (Hhi nz z0 z1 _ Hz).
    unfold THREE.distanceToPoint, THREE.dot.
    cbn [THREE.normal THREE.constant THREE.x THREE.y THREE.z]. lra.
Qed.

(** The triangles of a box the plane does not meet give no segment. *)
Lemma pruned_box_miss (box : THREE.Box3) (tris : list THREE.Triangle)
    (segs : list (ClipPlane.Segment ClipPlane.Point3)) :
  THREE.intersectsBox localPlane box = false ->
  forallb (ClipPlane.boundsTriangle box) tris = true ->
  fold_left (ClipPlane.intersectsTriangle mesh localPlane) tris segs = segs.
Proof.
  intros Hbox Htris. destruct (intersectsBox_false box Hbox) as (sign & Hside).
  apply (fold_intersectsTriangle_miss mesh localPlane sign).
  apply forallb_forall. intros tri Hin.
  pose proof (proj1 (forallb_forall _ _) Htris tri Hin) as Hb.
  unfold ClipPlane.boundsTriangle in Hb.
  apply andb_true_iff in Hb as [Hb Hc]. apply andb_true_iff in Hb as [Ha Hb].
  unfold ClipPlane.strictlyOnSide.
  pose proof (Hside _ Ha) as Sa. pose proof (Hside _ Hb) as Sb.
  pose proof (Hside _ Hc) as Sc.
  destruct sign; rewrite !andb_true_iff; repeat split; apply Qltb_true;
    assumption.
Qed.

Lemma bounded_triangles (n : MeshBVH.Node) :
  ClipPlane.bounded n = true ->
  forallb (ClipPlane.boundsTriangle (MeshBVH.bounds n)) (ClipPlane.triangles n)
  = true.
Proof.
  destruct n as [box tris|box l r]; cbn [ClipPlane.bounded MeshBVH.bounds
    ClipPlane.triangles]; [auto|].
  rewrite !andb_true_iff. tauto.
Qed.

Lemma shapecast_all (n : MeshBVH.Node)
    (segs : list (ClipPlane.Segment ClipPlane.Point3)) :
  ClipPlane.bounded n = true ->
  MeshBVH.shapecast (THREE.intersectsBox localPlane)
    (ClipPlane.intersectsTriangle mesh localPlane) n segs
  = fold_left (ClipPlane.intersectsTriangle mesh localPlane)
      (ClipPlane.triangles n) segs.
Proof.
  revert segs. induction n as [box tris|box l IHl r IHr]; intros segs Hb;
    [reflexivity|].
  cbn [ClipPlane.bounded] in Hb.
  apply andb_true_iff in Hb as [Hb Hr]. apply andb_true_iff in Hb as [_ Hl].
  cbn [MeshBVH.shapecast ClipPlane.triangles]. rewrite fold_left_app.
  assert (El : (if THREE.intersectsBox localPlane (MeshBVH.bounds l)
                then MeshBVH.shapecast (THREE.intersectsBox localPlane)
                       (ClipPlane.intersectsTriangle mesh localPlane) l segs
                else segs)
               = fold_left (ClipPlane.intersectsTriangle mesh localPlane)
                   (ClipPlane.triangles l) segs).
  { destruct (THREE.intersectsBox localPlane (MeshBVH.bounds l)) eqn:E.
    - apply IHl, Hl.
    - symmetry. apply (pruned_box_miss (MeshBVH.bounds l)); [exact E|].
      apply bounded_triangles, Hl. }
  rewrite El.
  destruct (THREE.intersectsBox localPlane (MeshBVH.bounds r)) eqn:E.
  - apply IHr, Hr.
  - symmetry. apply (pruned_box_miss (MeshBVH.bounds r)); [exact E|].
    apply bounded_triangles, Hr.
Qed.

End BoundsTree.

(** Property X8 ([getIntersectionContour], the [shapecast]).  Pruning
    by [intersectsBounds] loses nothing: when every box of the bounds
    tree holds the triangles below it, the segments collected through
    the tree are those collected from all its triangles, in the same
    order. *)
Theorem shapecast_prunes_nothing (mesh : ClipPlane.Mesh)
    (plane : THREE.Plane) :
  ClipPlane.bounded (ClipPlane.boundsTree mesh) = true ->
  ClipPlane.contourSegments mesh plane
  = fold_left
      (ClipPlane.intersectsTriangle mesh (ClipPlane.toLocal mesh plane))
      (ClipPlane.triangles (ClipPlane.boundsTree mesh)) [].
Proof.
  intros H. unfold ClipPlane.contourSegments. apply shapecast_all, H.
Qed.

Section Cuts.
Local Open Scope Q_scope.

Variable mesh : ClipPlane.Mesh.
Variable localPlane : THREE.Plane.

(** A point returned by [intersectLine] is on the plane and on the
    segment. *)
Lemma intersectLine_Some (s e q : ClipPlane.Point3) :
  THREE.intersectLine localPlane (THREE.mkLine3 s e) = Some q ->
  THREE.distanceToPoint localPlane q == 0 /\ ClipPlane.onEdge s e q.
Proof.
  unfold THREE.intersectLine.
  pose proof (denominator_eq localPlane s e) as Hden.
  pose proof (numerator_eq localPlane s) as Hnum.
  cbn [THREE.start].
  set (den := THREE.dot (THREE.normal localPlane)
                (THREE.delta (THREE.mkLine3 s e))) in *.
  set (num := THREE.dot s (THREE.normal localPlane)
              + THREE.constant localPlane) in *.
  destruct (Qeq_bool den 0) eqn:E0.
  - destruct (Qeq_bool (THREE.distanceToPoint localPlane s) 0) eqn:E1;
      [|discriminate].
    intros [= <-]. apply Qeq_bool_iff in E1. split; [exact E1|].
    exists 0. split; [lra|].
    unfold ClipPlane.samePlace, THREE.addScaledVector, THREE.sub.
    cbn [THREE.x THREE.y THREE.z]. repeat split; ring.
  - apply Qeq_bool_false in E0.
    set (t := - num / den).
    assert (Ht : t * den == - num) by (unfold t; field; exact E0).
    destruct (THREE.Qltb t 0 || THREE.Qltb 1 t) eqn:Hb; [discriminate|].
    apply orb_false_iff in Hb as [H0 H1].
    apply Qltb_false in H0, H1.
    intros [= <-]. split.
    + rewrite distance_addScaled. fold t. nra.
    + exists t. split; [split; assumption|].
      unfold ClipPlane.samePlace, THREE.delta. cbn [THREE.start THREE.end_].
      repeat split; reflexivity.
Qed.

Lemma edgePoints_In (tri : THREE.Triangle) (q : ClipPlane.Point3) :
  In q (ClipPlane.edgePoints localPlane tri) ->
  THREE.distanceToPoint localPlane q == 0 /\ ClipPlane.onTriangleEdge tri q.
Proof.
  unfold ClipPlane.edgePoints, ClipPlane.onTriangleEdge.
  cbn [fold_left fst snd].
  destruct (THREE.intersectLine localPlane
              (THREE.mkLine3 (THREE.a tri) (THREE.b tri))) as [p0|] eqn:E0;
    destruct (THREE.intersectLine localPlane
                (THREE.mkLine3 (THREE.b tri) (THREE.c tri))) as [p1|] eqn:E1;
    destruct (THREE.intersectLine localPlane
                (THREE.mkLine3 (THREE.c tri) (THREE.a tri))) as [p2|] eqn:E2;
    cbn [app In]; intros H;
    repeat match goal with
           | H : _ \/ _ |- _ => destruct H as [H|H]
           | H : False |- _ => destruct H
           | H : _ = q |- _ => subst q
           end;
    match goal with
    | E : THREE.intersectLine _ _ = Some ?p |- THREE.distanceToPoint _ ?p == 0 /\ _ =>
        destruct (intersectLine_Some _ _ _ E); split; auto
    end.
Qed.

Lemma deduplicate_In (points : list ClipPlane.Point3) (q : ClipPlane.Point3) :
  In q (ClipPlane.deduplicate points) -> In q points.
Proof.
  destruct points as [|p0 [|p1 [|p2 [|p3 l]]]]; try (intros H; exact H).
  unfold ClipPlane.deduplicate.
  destruct (THREE.distanceToLt p0 p1 _);
    [|destruct (THREE.distanceToLt p1 p2 _)]; cbn [In]; tauto.
Qed.

(** What one call of [intersectsTriangle] can add. *)
Lemma intersectsTriangle_In (tri : THREE.Triangle)
    (segs : list (ClipPlane.Segment ClipPlane.Point3))
    (s : ClipPlane.Segment ClipPlane.Point3) :
  In s (ClipPlane.intersectsTriangle mesh localPlane segs tri) ->
  In s segs \/ ClipPlane.cutOf mesh localPlane tri s.
Proof.
  unfold ClipPlane.intersectsTriangle, ClipPlane.storeSegment.
  destruct (ClipPlane.deduplicate (ClipPlane.edgePoints localPlane tri))
    as [|p0 [|p1 [|p2 l]]] eqn:E; auto.
  intros H. apply in_app_iff in H as [H|[<-|[]]]; [left; exact H|right].
  assert (H0 : In p0 (ClipPlane.edgePoints localPlane tri))
    by (apply deduplicate_In; rewrite E; left; reflexivity).
  assert (H1 : In p1 (ClipPlane.edgePoints localPlane tri))
    by (apply deduplicate_In; rewrite E; right; left; reflexivity).
  apply edgePoints_In in H0 as [? ?], H1 as [? ?].
  exists p0, p1. auto.
Qed.

Lemma fold_intersectsTriangle_In (tris : list THREE.Triangle)
    (segs : list (ClipPlane.Segment ClipPlane.Point3))
    (s : ClipPlane.Segment ClipPlane.Point3) :
  In s (fold_left (ClipPlane.intersectsTriangle mesh localPlane) tris segs) ->
  In s segs
  \/ exists tri, In tri tris /\ ClipPlane.cutOf mesh localPlane tri s.
Proof.
  revert segs. induction tris as [|t l IH]; intros segs H; [left; exact H|].
  cbn [fold_left] in H. apply IH in H as [H|(tri & Hin & Hc)].
  - apply intersectsTriangle_In in H as [H|H]; [left; exact H|right].
    exists t. split; [left; reflexivity|exact H].
  - right. exists tri. split; [right; exact Hin|exact Hc].
Qed.

Lemma shapecast_In (keep : THREE.Box3 -> bool) (n : MeshBVH.Node)
    (segs : list (ClipPlane.Segment ClipPlane.Point3))
    (s : ClipPlane.Segment ClipPlane.Point3) :
  In s (MeshBVH.shapecast keep (ClipPlane.intersectsTriangle mesh localPlane)
          n segs) ->
  In s segs
  \/ exists tri, In tri (ClipPlane.triangles n)
                 /\ ClipPlane.cutOf mesh localPlane tri s.
Proof.
  revert segs. induction n as [box tris|box l IHl r IHr]; intros segs H.
  - apply fold_intersectsTriangle_In, H.
  - cbn [MeshBVH.shapecast ClipPlane.triangles] in *.
    assert (Hl : forall acc,
              In s (if keep (MeshBVH.bounds l)
                    then MeshBVH.shapecast keep
                           (ClipPlane.intersectsTriangle mesh localPlane) l acc
                    else acc) ->
              In s acc
              \/ exists tri, In tri (ClipPlane.triangles l)
                             /\ ClipPlane.cutOf mesh localPlane tri s).
    { intros acc. destruct (keep (MeshBVH.bounds l)); [apply IHl|auto]. }
    assert (Hr : In s (if keep (MeshBVH.bounds l)
                       then MeshBVH.shapecast keep
                              (ClipPlane.intersectsTriangle mesh localPlane)
                              l segs
                       else segs)
                 \/ exists tri, In tri (ClipPlane.triangles r)
                                /\ ClipPlane.cutOf mesh localPlane tri s).
    { destruct (keep (MeshBVH.bounds r)); [apply IHr, H|left; exact H]. }
    destruct Hr as [Hr|(tri & Hin & Hc)].
    + apply Hl in Hr as [Hr|(tri & Hin & Hc)]; [left; exact Hr|right].
      exists tri. split; [apply in_or_app; left; exact Hin|exact Hc].
    + right. exists tri. split; [apply in_or_app; right; exact Hin|exact Hc].
Qed.

End Cuts.

(** Property X9 ([getIntersectionContour], the segments).  Every
    collected segment is the world image of two points of the local
    plane, each on an edge of one and the same triangle of the mesh. *)
Theorem contourSegments_on_plane_and_edges (mesh : ClipPlane.Mesh)
    (plane : THREE.Plane) (s : ClipPlane.Segment ClipPlane.Point3) :
  In s (ClipPlane.contourSegments mesh plane) ->
  exists tri,
    In tri (ClipPlane.triangles (ClipPlane.boundsTree mesh))
    /\ ClipPlane.cutOf mesh (ClipPlane.toLocal mesh plane) tri s.
Proof.
  intros H. unfold ClipPlane.contourSegments in H.
  apply shapecast_In in H as [[]|H]. exact H.
Qed.

Section StitchEdges.

Context {Point : Type}.
Variable samePoint : Point -> Point -> bool.
Variable segments : list (ClipPlane.Segment Point).

Abbreviation connect := (ClipPlane.connect samePoint).
Abbreviation NoMatch := (ClipPlane.NoMatch samePoint segments).
Abbreviation adjacent := (@ClipPlane.adjacent Point).
Abbreviation joinedBy := (ClipPlane.joinedBy samePoint).
Abbreviation Traced := (ClipPlane.Traced samePoint segments).
Abbreviation endOf := (@ClipPlane.endOf Point).
Abbreviation Unjoinable := (ClipPlane.Unjoinable samePoint).
Abbreviation Clear := (ClipPlane.Clear samePoint).

Lemma adjacent_cons (b : Point) (pl : list Point) (u v : Point) :
  adjacent (b :: pl) u v
  <-> (u = b /\ nth_error pl 0 = Some v) \/ adjacent pl u v.
Proof.
  split.
  - intros (l1 & l2 & E). destruct l1 as [|h l1]; cbn [app] in E.
    + injection E as -> ->. left. split; reflexivity.
    + injection E as -> ->. right. exists l1, l2. reflexivity.
  - intros [[-> Hv]|(l1 & l2 & ->)].
    + destruct pl as [|h t]; [discriminate|]. injection Hv as ->.
      exists [], t. reflexivity.
    + exists (b :: l1), l2. reflexivity.
Qed.

Lemma adjacent_last (pl : list Point) (b u v : Point) :
  adjacent (pl ++ [b]) u v
  <-> adjacent pl u v \/ (nth_error pl (length pl - 1) = Some u /\ v = b).
Proof.
  rewrite adjacent_app. split.
  - intros [H|[H|((l' & ->) & (m' & E))]]; [left; exact H| |].
    + destruct (adjacent_single _ _ _ H).
    + injection E as -> _. right. split; [apply nth_error_last|reflexivity].
  - intros [H|[H ->]]; [left; exact H|].
    right. right. split; [|exists []; reflexivity].
    destruct pl as [|h t] using rev_ind; [discriminate|].
    rewrite nth_error_last in H. injection H as ->. exists t. reflexivity.
Qed.

Lemma samePointAt_spec (o : option Point) (a : Point) :
  ClipPlane.samePointAt samePoint o a = true
  <-> exists x, o = Some x /\ samePoint x a = true.
Proof.
  destruct o as [x|]; cbn [ClipPlane.samePointAt].
  - split; [eauto|]. intros (y & [= <-] & H). exact H.
  - split; [discriminate|]. intros (y & [=] & _).
Qed.

(** The pairs of a polyline that [connect] has extended. *)
Lemma connect_joined (pl pl' : list Point) (s : ClipPlane.Segment Point)
    (u v : Point) :
  connect pl s = Some pl' -> adjacent pl' u v ->
  adjacent pl u v \/ joinedBy s u v.
Proof.
  intros Hc Hadj.
  destruct (connect_Some samePoint pl pl' s Hc)
    as (a & b & Hab & [[Hsame ->]|[Hsame ->]]).
  - apply adjacent_last in Hadj as [H|[Hu ->]]; [left; exact H|right].
    apply samePointAt_spec in Hsame as (x & Hx & Hxa).
    rewrite Hu in Hx. injection Hx as <-.
    exists a, b. split; [exact Hab|]. left. split; [|reflexivity].
    right. exact Hxa.
  - apply adjacent_cons in Hadj as [[-> Hv]|H]; [right|left; exact H].
    apply samePointAt_spec in Hsame as (x & Hx & Hxa).
    rewrite Hv in Hx. injection Hx as <-.
    exists b, a. split; [unfold ClipPlane.ends in *; tauto|].
    right. split; [reflexivity|]. right. exact Hxa.
Qed.

(** Every pair of consecutive points of a polyline of [stitchSegments]
    comes from a segment. *)
Lemma stitch_traced : Traced (ClipPlane.stitchWith samePoint segments).
Proof.
  destruct (stitch_rule samePoint segments
              (fun done _ => Traced done)
              (fun done pl _ => Traced (pl :: done)))
    as (used & _ & H & _).
  - intros D u v [].
  - intros done used i s HT _ _ Hs D u v [<-|HD] Hadj; [|eauto].
    exists s. split; [apply (nth_error_In _ _ Hs)|].
    apply adjacent_cons in Hadj as [[-> Hv]|H].
    + injection Hv as <-.
      exists (ClipPlane.start s), (ClipPlane.end_ s).
      split; [left; split; reflexivity|]. left.
      split; [left; reflexivity|reflexivity].
    + destruct (adjacent_single _ _ _ H).
  - intros done pl used j s pl' HT _ _ Hs Hc D u v [<-|HD] Hadj.
    + destruct (connect_joined pl pl' s u v Hc Hadj) as [H|H].
      * apply (HT pl u v); [left; reflexivity|exact H].
      * exists s. split; [apply (nth_error_In _ _ Hs)|exact H].
    + apply (HT D u v); [right; exact HD|exact Hadj].
  - intros done pl used HT _ _ D u v HD Hadj.
    apply (HT D u v); [|exact Hadj].
    apply in_app_iff in HD as [HD|[<-|[]]]; [right; exact HD|left; reflexivity].
  - exact H.
Qed.

Lemma NoMatch_assign (D : list Point) (used : list bool) (i : nat) :
  i < length used -> NoMatch D used -> NoMatch D (JS.assign used i true).
Proof.
  intros Hi H j s Hu Hs. apply (H j s); [|exact Hs].
  destruct (Nat.eq_dec i j) as [<-|Hne].
  - rewrite nth_assign_eq in Hu by exact Hi. discriminate.
  - rewrite nth_assign_ne in Hu by exact Hne. exact Hu.
Qed.

(** An end of a polyline that no unused segment connects to coincides
    with no end of an unused segment. *)
Lemma NoMatch_end (D : list Point) (used : list bool) (j : nat)
    (s : ClipPlane.Segment Point) (e a : Point) :
  NoMatch D used -> nth j used false = false ->
  nth_error segments j = Some s ->
  a = ClipPlane.start s \/ a = ClipPlane.end_ s ->
  endOf D e -> samePoint e a = false.
Proof.
  intros Hno Hu Hs Ha He.
  destruct (connect_None samePoint D s (Hno j s Hu Hs) a Ha) as [H1 H2].
  destruct He as [He|He]; rewrite He in *; assumption.
Qed.

(** No end of a polyline of [stitchSegments] coincides with a point of a
    polyline made after it. *)
Lemma stitch_unjoinable :
  Unjoinable (ClipPlane.stitchWith samePoint segments).
Proof.
  destruct (stitch_rule samePoint segments
              (fun done used =>
                 Unjoinable done /\ forall D, In D done -> NoMatch D used)
              (fun done pl used =>
                 Unjoinable done /\ (forall D, In D done -> NoMatch D used)
                 /\ Clear done pl))
    as (used & _ & [H _] & _).
  - split; [|intros D []].
    intros i k D D' e p _ Hi. destruct i; discriminate.
  - intros done used i s [HU HN] Hlen Hu Hs.
    assert (Hi : i < length used).
    { rewrite Hlen. apply nth_error_Some. congruence. }
    split; [exact HU|]. split.
    + intros D HD. apply NoMatch_assign; auto.
    + intros D e p HD He [<-|[<-|[]]];
        apply (NoMatch_end D used i s e _ (HN D HD) Hu Hs); auto.
  - intros done pl used j s pl' (HU & HN & HC) Hlen Hu Hs Hc.
    assert (Hj : j < length used).
    { rewrite Hlen. apply nth_error_Some. congruence. }
    split; [exact HU|]. split.
    + intros D HD. apply NoMatch_assign; auto.
    + intros D e p HD He Hp.
      destruct (connect_Some samePoint pl pl' s Hc)
        as (a & b & Hab & [[_ ->]|[_ ->]]).
      * apply in_app_iff in Hp as [Hp|[<-|[]]]; [apply (HC D e p); auto|].
        apply (NoMatch_end D used j s e _ (HN D HD) Hu Hs); [|exact He].
        destruct Hab as [[_ ->]|[_ ->]]; auto.
      * destruct Hp as [<-|Hp]; [|apply (HC D e p); auto].
        apply (NoMatch_end D used j s e _ (HN D HD) Hu Hs); [|exact He].
        destruct Hab as [[_ ->]|[_ ->]]; auto.
  - intros done pl used (HU & HN & HC) _ Hno. split.
    + intros i k D D' e p Hik Hi Hk He Hp.
      destruct (Nat.lt_ge_cases k (length done)) as [Hlt|Hge].
      * rewrite nth_error_app1 in Hi, Hk by lia.
        apply (HU i k D D' e p); auto.
      * rewrite nth_error_app2 in Hk by exact Hge.
        destruct (k - length done) as [|n] eqn:Ek;
          [|destruct n; discriminate].
        injection Hk as <-.
        rewrite nth_error_app1 in Hi by lia.
        apply (HC D e p); auto. apply (nth_error_In _ _ Hi).
    + intros D HD. apply in_app_iff in HD as [HD|[<-|[]]]; auto.
  - exact H.
Qed.

End StitchEdges.

(** Property X14 ([stitchSegments], the edges of the polylines).
    Every pair of consecutive points of a polyline comes from an input
    segment: one point of the pair is an end of the segment, the other
    is the other end or coincides with it within the tolerance. *)
Theorem stitchSegments_edges_from_segments
    (segments : list (ClipPlane.Segment ClipPlane.Point3)) (tolerance : Q)
    (polyline : list ClipPlane.Point3) (u v : ClipPlane.Point3) :
  In polyline (ClipPlane.stitchSegments segments tolerance) ->
  ClipPlane.adjacent polyline u v ->
  exists s,
    In s segments
    /\ ClipPlane.joinedBy (ClipPlane.samePoint tolerance) s u v.
Proof.
  intros HD Hadj.
  apply (stitch_traced (ClipPlane.samePoint tolerance) segments polyline u v
           HD Hadj).
Qed.

(** Property X15 ([stitchSegments], nothing left to join).  The first
    and the last point of a polyline do not coincide, within the
    tolerance, with any point of a polyline that comes later in the
    result. *)
Theorem stitchSegments_leaves_nothing_to_join
    (segments : list (ClipPlane.Segment ClipPlane.Point3)) (tolerance : Q)
    (i k : nat) (earlier later : list ClipPlane.Point3)
    (e p : ClipPlane.Point3) :
  i < k ->
  nth_error (ClipPlane.stitchSegments segments tolerance) i = Some earlier ->
  nth_error (ClipPlane.stitchSegments segments tolerance) k = Some later ->
  ClipPlane.endOf earlier e -> In p later ->
  ClipPlane.samePoint tolerance e p = false.
Proof.
  intros Hik Hi Hk He Hp.
  apply (stitch_unjoinable (ClipPlane.samePoint tolerance) segments
           i k earlier later e p Hik Hi Hk He Hp).
Qed.

Section OneComponent.

Context {Point : Type}.
Variable samePoint : Point -> Point -> bool.
Variable segments : list (ClipPlane.Segment Point).

(** Every polyline of [stitchSegments] has at least two points. *)
Lemma stitch_two_points :
  Forall (fun D => 2 <= length D) (ClipPlane.stitchWith samePoint segments).
Proof.
  destruct (stitch_rule samePoint segments
              (fun done _ => Forall (fun D => 2 <= length D) done)
              (fun done pl _ =>
                 Forall (fun D => 2 <= length D) done /\ 2 <= length pl))
    as (used & _ & H & _).
  - constructor.
  - intros done used i s H _ _ _. split; [exact H|]. cbn [length]. lia.
  - intros done pl used j s pl' [H Hl] _ _ _ Hc. split; [exact H|].
    apply connect_Some in Hc as (a & b & _ & [[_ ->]|[_ ->]]);
      [rewrite length_app|]; cbn [length]; lia.
  - intros done pl used [H Hl] _ _. apply Forall_app. split; [exact H|].
    constructor; [exact Hl|constructor].
  - exact H.
Qed.


End OneComponent.


Section Alignment.
Local Open Scope R_scope.

(** The state after the effect and the timer of Phase 2. *)
Lemma alignThenPhase2_state (st : App.State) (r0 r1 : App.Ref)
    (rest : list App.Ref) (p0 p1 : THREE.Vector3 R) :
  App.points st = Some (r0 :: r1 :: rest) ->
  App.aligned st = Some true ->
  App.timers st = [] ->
  r0 <> r1 ->
  nth_error (App.heap st) r0 = Some p0 ->
  nth_error (App.heap st) r1 = Some p1 ->
  let angleX := Utils.angleToEqualizeZ p0 p1 in
  let q0 := App.rotateX angleX p0 in
  let q1 := App.rotateX angleX p1 in
  exists st2,
    App.alignThenPhase2 st = JS.Ok st2
    /\ nth_error (App.heap st2) r0 = Some q0
    /\ nth_error (App.heap st2) r1 = Some q1
    /\ App.tweenAngle st2 App.Group Utils.z
       = Some (Utils.angleZToEqualizeX q0 q1).
Proof.
  intros Hpts Hal Htm Hne H0 H1 angleX q0 q1.
  assert (Hlt0 : (r0 < length (App.heap st))%nat)
    by (apply nth_error_Some; congruence).
  assert (Hlt1 : (r1 < length (App.heap st))%nat)
    by (apply nth_error_Some; congruence).
  assert (Hq0 : nth_error
                  (JS.assign (JS.assign (App.heap st) r0 q0) r1 q1) r0
                = Some q0).
  { rewrite nth_error_assign_ne by congruence.
    apply nth_error_assign_eq. exact Hlt0. }
  assert (Hq1 : nth_error
                  (JS.assign (JS.assign (App.heap st) r0 q0) r1 q1) r1
                = Some q1).
  { apply nth_error_assign_eq. rewrite assign_length. exact Hlt1. }
  unfold App.alignThenPhase2, App.alignEffect.
  rewrite Hpts, Hal.
  rewrite (deref_ok st _ 0 r0 p0), (deref_ok st _ 1%nat r1 p1)
    by (first [reflexivity | assumption]).
  cbn [JS.bind]. fold angleX.
  rewrite exec_animateRotation_x.
  rewrite (runCallback_ok _ r0 r1 rest p0 p1) by assumption.
  cbn [JS.bind]. unfold App.fireTimer.
  cbn [App.timers App.setTimeout App.setPoints App.setHeap App.logInvoke
       App.addTween].
  rewrite Htm. cbn [app]. unfold App.runTimer.
  fold q0 q1.
  rewrite (deref_ok _ _ 0 r0 q0), (deref_ok _ _ 1%nat r1 q1);
    try reflexivity; try assumption.
  cbn [JS.bind]. rewrite exec_animateRotation_z.
  eexists. split; [reflexivity|].
  cbn [App.heap App.addTween App.popTimer App.setTimeout App.setPoints
       App.setHeap App.logInvoke].
  split; [exact Hq0|]. split; [exact Hq1|].
  unfold App.tweenAngle.
  cbn [App.tweens App.addTween App.popTimer App.setTimeout App.setPoints
       App.setHeap App.logInvoke].
  rewrite !rev_app_distr. reflexivity.
Qed.

(** Property X17 (the rotation effect of [App]).  With two landmark
    points held by distinct objects, after Phase 1 the two point objects
    have the same [z]; and rotating them about the Z axis by the angle
    that Phase 2 gives to the group brings them to the same [x] and the
    same [z]: the landmarks end on a line parallel to the Y axis. *)
Theorem alignment_brings_landmarks_in_line (st : App.State)
    (r0 r1 : App.Ref) (rest : list App.Ref) (p0 p1 : THREE.Vector3 R) :
  App.points st = Some (r0 :: r1 :: rest) ->
  App.aligned st = Some true ->
  App.timers st = [] ->
  r0 <> r1 ->
  nth_error (App.heap st) r0 = Some p0 ->
  nth_error (App.heap st) r1 = Some p1 ->
  exists st2 q0 q1 angleZ,
    App.alignThenPhase2 st = JS.Ok st2
    /\ nth_error (App.heap st2) r0 = Some q0
    /\ nth_error (App.heap st2) r1 = Some q1
    /\ App.tweenAngle st2 App.Group Utils.z = Some angleZ
    /\ THREE.z q0 = THREE.z q1
    /\ THREE.x (Utils.rotateZ angleZ q0) = THREE.x (Utils.rotateZ angleZ q1)
    /\ THREE.z (Utils.rotateZ angleZ q0) = THREE.z (Utils.rotateZ angleZ q1).
Proof.
  intros Hpts Hal Htm Hne H0 H1.
  destruct (alignThenPhase2_state st r0 r1 rest p0 p1 Hpts Hal Htm Hne H0 H1)
    as (st2 & Hrun & Hq0 & Hq1 & Hang).
  exists st2. eexists. eexists. eexists.
  split; [exact Hrun|]. split; [exact Hq0|]. split; [exact Hq1|].
  split; [exact Hang|].
  assert (Hz : THREE.z (App.rotateX (Utils.angleToEqualizeZ p0 p1) p0)
               = THREE.z (App.rotateX (Utils.angleToEqualizeZ p0 p1) p1)).
  { rewrite !rotateX_formula. cbn [THREE.z].
    pose proof (atan2_cross (THREE.z p1 - THREE.z p0)
                  (THREE.y p0 - THREE.y p1)) as Hc.
    fold (Utils.angleToEqualizeZ p0 p1) in Hc. lra. }
  split; [exact Hz|].
  rewrite !rotateZ_formula. cbn [THREE.x THREE.z].
  split; [|exact Hz].
  set (q0 := App.rotateX (Utils.angleToEqualizeZ p0 p1) p0) in *.
  set (q1 := App.rotateX (Utils.angleToEqualizeZ p0 p1) p1) in *.
  pose proof (atan2_cross (THREE.x q0 - THREE.x q1)
                (THREE.y q0 - THREE.y q1)) as Hc.
  fold (Utils.angleZToEqualizeX q0 q1) in Hc. lra.
Qed.

Lemma alignment_brings_landmarks_in_line_witness :
  exists st2 q0 q1 angleZ,
    App.alignThenPhase2
      (App.landmarkState (THREE.mkVector3 1 0 0) (THREE.mkVector3 0 1 0))
    = JS.Ok st2
    /\ nth_error (App.heap st2) 0 = Some q0
    /\ nth_error (App.heap st2) 1 = Some q1
    /\ App.tweenAngle st2 App.Group Utils.z = Some angleZ
    /\ THREE.z q0 = THREE.z q1
    /\ THREE.x (Utils.rotateZ angleZ q0) = THREE.x (Utils.rotateZ angleZ q1)
    /\ THREE.z (Utils.rotateZ angleZ q0) = THREE.z (Utils.rotateZ angleZ q1).
Proof.
  apply (alignment_brings_landmarks_in_line
           (App.landmarkState (THREE.mkVector3 1 0 0) (THREE.mkVector3 0 1 0))
           0%nat 1%nat [] (THREE.mkVector3 1 0 0) (THREE.mkVector3 0 1 0));
    first [reflexivity | discriminate].
Defined.

End Alignment.

Section ApplyAndEffect.
Local Open Scope R_scope.

Lemma nth_error_valid {A} (l : list A) (i : nat) :
  (i < length l)%nat -> exists v, nth_error l i = Some v.
Proof.
  intros H. destruct (nth_error l i) as [v|] eqn:E; [eauto|].
  apply nth_error_None in E. lia.
Qed.

(** The effect runs through exactly when the array holds two points. *)
Lemma alignEffect_ok_iff (st : App.State) (pts : list App.Ref) :
  App.points st = Some pts ->
  App.aligned st = Some true ->
  (forall r, In r pts -> (r < length (App.heap st))%nat) ->
  JS.isOk (App.alignEffect st) = true <-> (2 <= length pts)%nat.
Proof.
  intros Hpts Hal Hvalid. unfold App.alignEffect. rewrite Hpts, Hal.
  destruct pts as [|r0 [|r1 rest]].
  - cbn. split; [discriminate|lia].
  - destruct (nth_error_valid (App.heap st) r0) as (v0 & E0);
      [apply Hvalid; left; reflexivity|].
    rewrite (deref_ok st _ 0 r0 v0) by (first [reflexivity|assumption]).
    cbn. split; [discriminate|lia].
  - destruct (nth_error_valid (App.heap st) r0) as (v0 & E0);
      [apply Hvalid; left; reflexivity|].
    destruct (nth_error_valid (App.heap st) r1) as (v1 & E1);
      [apply Hvalid; right; left; reflexivity|].
    rewrite (deref_ok st _ 0 r0 v0), (deref_ok st _ 1%nat r1 v1)
      by (first [reflexivity|assumption]).
    cbn [JS.bind length]. rewrite exec_animateRotation_x.
    unfold App.runCallback.
    rewrite (applyAxisAngleAt_ok _ _ 0 r0 v0)
      by (first [reflexivity|assumption]).
    cbn [JS.bind].
    set (h1 := JS.assign _ r0 _).
    destruct (nth_error_valid h1 r1) as (w1 & F1).
    { unfold h1. rewrite assign_length.
      cbn [App.heap App.logInvoke App.addTween].
      apply Hvalid. right. left. reflexivity. }
    rewrite (applyAxisAngleAt_ok _ _ 1%nat r1 w1)
      by (first [reflexivity|exact F1]).
    cbn. split; [lia|reflexivity].
Qed.


(** Property X19 ([useEffect(..., [aligned])]).  Once [aligned] is
    [true] a click on Apply only runs [handleApply]: the effect does not
    run again, [aligned] stays [true], and no tween and no timer is
    started. *)
Theorem apply_aligns_only_once (st : App.State) :
  App.aligned st = Some true ->
  App.clickApply st = App.handleApply st
  /\ forall st1,
       App.clickApply st = JS.Ok st1 ->
       App.aligned st1 = Some true
       /\ App.tweens st1 = App.tweens st
       /\ App.timers st1 = App.timers st.
Proof.
  intros Hal.
  assert (Hkeep : forall st1, App.handleApply st = JS.Ok st1 ->
            App.aligned st1 = Some true
            /\ App.tweens st1 = App.tweens st
            /\ App.timers st1 = App.timers st).
  { intros st1 H. unfold App.handleApply in H.
    cbn [App.plane1 App.plane2 App.setActivePlane App.getObjectByName] in H.
    destruct (App.plane1 st) as [sel1|]; [|injection H as <-; auto].
    destruct (App.plane2 st) as [sel2|]; [|injection H as <-; auto].
    destruct (App.contourOf _ _) as [shape|msg] in H; [|discriminate].
    cbn [JS.bind] in H.
    destruct (ClipPlane.getContourPlaneIntersection shape _)
      as [point|msg] in H; [|discriminate].
    cbn [JS.bind] in H.
    destruct (length point =? 0)%nat.
    - destruct (App.contourOf _ _) as [shape2|msg] in H; [|discriminate].
      cbn [JS.bind] in H.
      destruct (ClipPlane.getContourPlaneIntersection shape2 _)
        as [point2|msg] in H; [|discriminate].
      cbn [JS.bind] in H. injection H as <-. auto.
    - injection H as <-. auto. }
  assert (E : App.clickApply st = App.handleApply st).
  { unfold App.clickApply.
    destruct (App.handleApply st) as [st1|msg] eqn:H; [|reflexivity].
    cbn [JS.bind]. unfold App.afterRender.
    destruct (Hkeep st1 eq_refl) as (-> & _). rewrite Hal. reflexivity. }
  split; [exact E|]. intros st1 H. rewrite E in H. apply Hkeep, H.
Qed.

End ApplyAndEffect.

Section PointerDown.
Local Open Scope R_scope.

(** A call that gets past the two guards. *)
Lemma handlePointerDown_armed (active : string) (mesh : GLBModel.MeshObject)
    (e : GLBModel.PointerEvent) :
  GLBModel.truthy (Some active) = true ->
  GLBModel.truthy (GLBModel.selectedForPlane mesh) = false ->
  GLBModel.handlePointerDown (Some active) mesh e
  = (GLBModel.markSelected mesh (Some active),
     match GLBModel.face e with
     | None => JS.Ok None
     | Some f =>
         match GLBModel.pickHits mesh e f with
         | None => JS.TypeError "Cannot read properties of null (reading '0')"
         | Some points =>
             match nth_error points 0, nth_error points 1 with
             | Some p0, Some p1 =>
                 JS.Ok
                   (Some
                      (GLBModel.mkSelection active (GLBModel.name mesh)
                         (GLBModel.worldNormalOf mesh f)
                         (THREE.addR (THREE.point p0)
                            (THREE.multiplyScalarR
                               (THREE.negateR (GLBModel.worldNormalOf mesh f))
                               (THREE.distanceToR (THREE.point p0)
                                  (THREE.point p1) / 2)))))
             | _, _ =>
                 JS.TypeError
                   "Cannot read properties of undefined (reading 'point')"
             end
         end
     end).
Proof.
  intros Ha Hm. unfold GLBModel.handlePointerDown. rewrite Ha, Hm.
  reflexivity.
Qed.

(** Property X21 ([handlePointerDown], failure).  With a plane active
    and a mesh not yet selected the handler marks the mesh (selected for
    the plane, red) before anything can fail.  When the event has no
    face it returns without calling [onSelect]; when the ray finds fewer
    than two intersections it throws.  In both cases the mesh stays
    marked, and every later pointer-down on it returns at once without
    calling [onSelect], whatever plane is active. *)
Theorem handlePointerDown_failure_locks_mesh (active : string)
    (mesh : GLBModel.MeshObject) (e : GLBModel.PointerEvent) :
  GLBModel.truthy (Some active) = true ->
  GLBModel.truthy (GLBModel.selectedForPlane mesh) = false ->
  let mesh' := fst (GLBModel.handlePointerDown (Some active) mesh e) in
  let outcome := snd (GLBModel.handlePointerDown (Some active) mesh e) in
  GLBModel.selectedForPlane mesh' = Some active
  /\ GLBModel.color mesh' = "red"%string
  /\ (GLBModel.face e = None -> outcome = JS.Ok None)
  /\ (forall f,
        GLBModel.face e = Some f ->
        (forall p0 p1 rest,
           GLBModel.pickHits mesh e f <> Some (p0 :: p1 :: rest)) ->
        JS.isOk outcome = false)
  /\ (forall activePlane' e',
        GLBModel.handlePointerDown activePlane' mesh' e'
        = (mesh', JS.Ok None)).
Proof.
  intros Ha Hm mesh' outcome. subst mesh' outcome.
  rewrite (handlePointerDown_armed active mesh e Ha Hm). cbn [fst snd].
  split; [reflexivity|]. split; [reflexivity|].
  split; [intros ->; reflexivity|]. split.
  - intros f -> Hfew.
    destruct (GLBModel.pickHits mesh e f) as [[|p0 [|p1 rest]]|];
      try reflexivity.
    destruct (Hfew p0 p1 rest eq_refl).
  - intros activePlane' e'. unfold GLBModel.handlePointerDown.
    destruct activePlane' as [active'|]; [|reflexivity].
    destruct (negb (GLBModel.truthy (Some active'))); [reflexivity|].
    cbn [GLBModel.selectedForPlane GLBModel.markSelected].
    rewrite Ha. reflexivity.
Qed.

Lemma normalize_unit (v : THREE.Vector3 R) :
  THREE.length v <> 0 ->
  let n := THREE.normalize v in
  THREE.x n * THREE.x n + THREE.y n * THREE.y n + THREE.z n * THREE.z n = 1.
Proof.
  intros Hl n. pose proof (length_normalize v Hl) as H1.
  unfold THREE.length in H1. fold n in H1.
  assert (Hsq : sqrt (THREE.x n * THREE.x n + THREE.y n * THREE.y n
                      + THREE.z n * THREE.z n)
                * sqrt (THREE.x n * THREE.x n + THREE.y n * THREE.y n
                        + THREE.z n * THREE.z n)
                = THREE.x n * THREE.x n + THREE.y n * THREE.y n
                  + THREE.z n * THREE.z n)
    by (apply sqrt_sqrt; nra).
  rewrite H1 in Hsq. lra.
Qed.

(** Property X22 ([handlePointerDown], the selected point).  When the
    normal is not zero and the first two intersections lie on the ray,
    the second at distance [s >= 0] behind the first, [onSelect] is
    called with the active plane, the name of the mesh, the unit normal
    and the midpoint of the two intersections. *)
Theorem handlePointerDown_selects_midpoint (active : string)
    (mesh : GLBModel.MeshObject) (e : GLBModel.PointerEvent) (f : GLBModel.Face)
    (p0 p1 : THREE.Intersection) (rest : list THREE.Intersection) (s : R) :
  GLBModel.truthy (Some active) = true ->
  GLBModel.truthy (GLBModel.selectedForPlane mesh) = false ->
  GLBModel.face e = Some f ->
  THREE.length (GLBModel.applyNormalMatrix mesh (GLBModel.normal f)) <> 0 ->
  GLBModel.pickHits mesh e f = Some (p0 :: p1 :: rest) ->
  0 <= s ->
  THREE.point p1
  = THREE.addR (THREE.point p0)
      (THREE.multiplyScalarR
         (THREE.negateR (GLBModel.worldNormalOf mesh f)) s) ->
  exists selection,
    snd (GLBModel.handlePointerDown (Some active) mesh e)
    = JS.Ok (Some selection)
    /\ GLBModel.plane selection = active
    /\ GLBModel.meshName selection = GLBModel.name mesh
    /\ GLBModel.worldNormal selection = GLBModel.worldNormalOf mesh f
    /\ THREE.x (GLBModel.midPoint selection)
       = (THREE.x (THREE.point p0) + THREE.x (THREE.point p1)) / 2
    /\ THREE.y (GLBModel.midPoint selection)
       = (THREE.y (THREE.point p0) + THREE.y (THREE.point p1)) / 2
    /\ THREE.z (GLBModel.midPoint selection)
       = (THREE.z (THREE.point p0) + THREE.z (THREE.point p1)) / 2.
Proof.
  intros Ha Hm Hf Hn Hhits Hs Hp1.
  rewrite (handlePointerDown_armed active mesh e Ha Hm). cbn [snd].
  rewrite Hf, Hhits. cbn [nth_error].
  eexists. split; [reflexivity|].
  cbn [GLBModel.plane GLBModel.meshName GLBModel.worldNormal
       GLBModel.midPoint].
  split; [reflexivity|]. split; [reflexivity|]. split; [reflexivity|].
  pose proof (normalize_unit _ Hn) as Hunit. cbv zeta in Hunit.
  fold (GLBModel.worldNormalOf mesh f) in Hunit.
  set (n := GLBModel.worldNormalOf mesh f) in *.
  assert (Hd : THREE.distanceToR (THREE.point p0) (THREE.point p1) = s).
  { unfold THREE.distanceToR. rewrite Hp1.
    unfold THREE.addR, THREE.multiplyScalarR, THREE.negateR.
    cbn [THREE.x THREE.y THREE.z].
    replace ((THREE.x (THREE.point p0)
              - (THREE.x (THREE.point p0) + - THREE.x n * s))
             * (THREE.x (THREE.point p0)
                - (THREE.x (THREE.point p0) + - THREE.x n * s))
             + (THREE.y (THREE.point p0)
                - (THREE.y (THREE.point p0) + - THREE.y n * s))
               * (THREE.y (THREE.point p0)
                  - (THREE.y (THREE.point p0) + - THREE.y n * s))
             + (THREE.z (THREE.point p0)
                - (THREE.z (THREE.point p0) + - THREE.z n * s))
               * (THREE.z (THREE.point p0)
                  - (THREE.z (THREE.point p0) + - THREE.z n * s)))
      with ((THREE.x n * THREE.x n + THREE.y n * THREE.y n
             + THREE.z n * THREE.z n) * (s * s)) by ring.
    rewrite Hunit, Rmult_1_l. apply sqrt_square, Hs. }
  rewrite Hd, Hp1.
  unfold THREE.addR, THREE.multiplyScalarR, THREE.negateR.
  cbn [THREE.x THREE.y THREE.z]. repeat split; field.
Qed.

End PointerDown.

Section Camera.
Local Open Scope Q_scope.

Lemma max3_spec (a b c : Q) :
  a <= App.max3 a b c /\ b <= App.max3 a b c /\ c <= App.max3 a b c
  /\ (App.max3 a b c == a \/ App.max3 a b c == b \/ App.max3 a b c == c).
Proof.
  unfold App.max3.
  destruct (Qle_bool a b) eqn:E1.
  - apply Qle_bool_iff in E1. destruct (Qle_bool b c) eqn:E2.
    + apply Qle_bool_iff in E2.
      repeat split; first [lra | right; right; reflexivity].
    + assert (c < b).
      { apply Qnot_le_lt. intros H. apply Qle_bool_iff in H. congruence. }
      repeat split; first [lra | right; left; reflexivity].
  - assert (b < a).
    { apply Qnot_le_lt. intros H. apply Qle_bool_iff in H. congruence. }
    destruct (Qle_bool a c) eqn:E2.
    + apply Qle_bool_iff in E2.
      repeat split; first [lra | right; right; reflexivity].
    + assert (c < a).
      { apply Qnot_le_lt. intros H'. apply Qle_bool_iff in H'. congruence. }
      repeat split; first [lra | left; reflexivity].
Qed.

(** Property X20 ([handleModelLoaded]).  Without camera controls no
    call is made.  With them the camera is aimed at the centre of the
    box from a point straight along +Y: same [x] and [z], [y] not
    smaller; for a non-empty box the eye is at or beyond the top face of
    the box, for an empty box the eye is the target itself. *)
Theorem handleModelLoaded_camera (box : THREE.Box3) :
  App.handleModelLoaded false box = None
  /\ exists lookAt,
       App.handleModelLoaded true box = Some lookAt
       /\ App.to lookAt = THREE.getCenter box
       /\ THREE.x (App.from lookAt) == THREE.x (App.to lookAt)
       /\ THREE.z (App.from lookAt) == THREE.z (App.to lookAt)
       /\ THREE.y (App.to lookAt) <= THREE.y (App.from lookAt)
       /\ (THREE.isEmpty box = false ->
           THREE.y (THREE.max box) <= THREE.y (App.from lookAt))
       /\ (THREE.isEmpty box = true ->
           ClipPlane.samePlace (App.from lookAt) (App.to lookAt)).
Proof.
  split; [reflexivity|]. eexists. split; [reflexivity|].
  cbn [App.to App.from]. split; [reflexivity|].
  unfold THREE.addVectors. cbn [THREE.x THREE.y THREE.z].
  destruct (max3_spec (THREE.x (THREE.getSize box))
              (THREE.y (THREE.getSize box)) (THREE.z (THREE.getSize box)))
    as (Mx & My & Mz & _).
  set (m := App.max3 _ _ _) in *.
  split; [ring|]. split; [ring|].
  unfold THREE.getSize, THREE.getCenter in *.
  destruct (THREE.isEmpty box) eqn:E.
  - cbn [THREE.x THREE.y THREE.z] in *.
    assert (Hm : m == 0) by (unfold m, App.max3; reflexivity).
    split; [lra|]. split; [discriminate|].
    intros _. unfold ClipPlane.samePlace. cbn [THREE.x THREE.y THREE.z].
    repeat split; lra.
  - unfold THREE.isEmpty in E.
    apply orb_false_iff in E as [E Ez]. apply orb_false_iff in E as [Ex Ey].
    apply Qltb_false in Ex, Ey, Ez.
    unfold THREE.sub, THREE.multiplyScalar, THREE.addVectors in *.
    cbn [THREE.x THREE.y THREE.z] in *.
    split; [lra|]. split; [intros _; lra|discriminate].
Qed.

End Camera.

Section ContourPoints.

(** Property X16 ([getIntersectionContour], the points).  Every point
    of the returned contour is the world image of a point of the local
    plane that lies on an edge of a triangle of the mesh. *)
Theorem contour_points_on_plane_and_edges (mesh : ClipPlane.Mesh)
    (plane : THREE.Plane) (contour : list ClipPlane.Point3)
    (p : ClipPlane.Point3) :
  ClipPlane.getIntersectionContour mesh plane = Some contour ->
  In p contour ->
  exists tri q,
    In tri (ClipPlane.triangles (ClipPlane.boundsTree mesh))
    /\ p = ClipPlane.toWorld mesh q
    /\ (THREE.distanceToPoint (ClipPlane.toLocal mesh plane) q == 0)%Q
    /\ ClipPlane.onTriangleEdge tri q.
Proof.
  intros Hc Hp. unfold ClipPlane.getIntersectionContour in Hc.
  apply nth_error_In in Hc. unfold ClipPlane.stitchSegments in Hc.
  destruct (stitch_conserved
              (ClipPlane.samePoint ClipPlane.defaultTolerance)
              (ClipPlane.contourSegments mesh plane)) as (owners & HF & _).
  assert (Hown : exists owned,
            ClipPlane.Owns (ClipPlane.contourSegments mesh plane) contour
              owned).
  { revert Hc. induction HF as [|D o Ds os HD HF IH]; [intros []|].
    intros [<-|Hin]; [exists o; exact HD|apply IH, Hin]. }
  destruct Hown as (owned & _ & Hpts).
  destruct (Hpts p Hp) as (j & s & _ & Hs & Hends).
  apply nth_error_In in Hs.
  destruct (shapecast_In mesh (ClipPlane.toLocal mesh plane) _ _ [] s Hs)
    as [[]|(tri & Htri & (p0 & p1 & -> & H0 & H1 & E0 & E1))].
  cbn [ClipPlane.start ClipPlane.end_] in Hends.
  destruct Hends as [-> | ->]; [exists tri, p0|exists tri, p1]; auto.
Qed.

End ContourPoints.

Section Witnesses.

Lemma shapecast_prunes_nothing_witness :
  ClipPlane.contourSegments Examples.threeLeafMesh Examples.planeZ0
  = fold_left
      (ClipPlane.intersectsTriangle Examples.threeLeafMesh
         (ClipPlane.toLocal Examples.threeLeafMesh Examples.planeZ0))
      (ClipPlane.triangles (ClipPlane.boundsTree Examples.threeLeafMesh)) [].
Proof.
  apply (shapecast_prunes_nothing Examples.threeLeafMesh Examples.planeZ0).
  vm_compute. reflexivity.
Defined.

Lemma threeLeafMesh_segment :
  In (Examples.seg (Examples.vec (1 # 2) (0 # 2) (0 # 2))
        (Examples.vec (0 # 2) (1 # 2) (0 # 2)))
    (ClipPlane.contourSegments Examples.threeLeafMesh Examples.planeZ0).
Proof. vm_compute. left. reflexivity. Qed.

Lemma contourSegments_on_plane_and_edges_witness :
  exists tri,
    In tri (ClipPlane.triangles (ClipPlane.boundsTree Examples.threeLeafMesh))
    /\ ClipPlane.cutOf Examples.threeLeafMesh
         (ClipPlane.toLocal Examples.threeLeafMesh Examples.planeZ0) tri
         (Examples.seg (Examples.vec (1 # 2) (0 # 2) (0 # 2))
            (Examples.vec (0 # 2) (1 # 2) (0 # 2))).
Proof.
  apply (contourSegments_on_plane_and_edges Examples.threeLeafMesh
           Examples.planeZ0 _ threeLeafMesh_segment).
Defined.

Lemma threeLeafMesh_contour :
  ClipPlane.getIntersectionContour Examples.threeLeafMesh Examples.planeZ0
  = Some [Examples.vec (1 # 2) (0 # 2) (0 # 2);
          Examples.vec (0 # 2) (1 # 2) (0 # 2)].
Proof. vm_compute. reflexivity. Qed.

Lemma contour_points_on_plane_and_edges_witness :
  exists tri q,
    In tri (ClipPlane.triangles (ClipPlane.boundsTree Examples.threeLeafMesh))
    /\ Examples.vec (1 # 2) (0 # 2) (0 # 2)
       = ClipPlane.toWorld Examples.threeLeafMesh q
    /\ (THREE.distanceToPoint
          (ClipPlane.toLocal Examples.threeLeafMesh Examples.planeZ0) q == 0)%Q
    /\ ClipPlane.onTriangleEdge tri q.
Proof.
  apply (contour_points_on_plane_and_edges Examples.threeLeafMesh
           Examples.planeZ0 _ _ threeLeafMesh_contour).
  left. reflexivity.
Defined.

Lemma branch_stitched :
  ClipPlane.stitchSegments Examples.branchSegments ClipPlane.defaultTolerance
  = [[Examples.vec 0 0 0; Examples.vec 1 0 0; Examples.vec 2 0 0];
     [Examples.vec 1 0 0; Examples.vec 1 1 0]].
Proof. vm_compute. reflexivity. Qed.

Lemma stitchSegments_edges_from_segments_witness :
  exists s,
    In s Examples.branchSegments
    /\ ClipPlane.joinedBy (ClipPlane.samePoint ClipPlane.defaultTolerance) s
         (Examples.vec 1 0 0) (Examples.vec 2 0 0).
Proof.
  apply (stitchSegments_edges_from_segments Examples.branchSegments
           ClipPlane.defaultTolerance
           [Examples.vec 0 0 0; Examples.vec 1 0 0; Examples.vec 2 0 0]).
  - rewrite branch_stitched. left. reflexivity.
  - exists [Examples.vec 0 0 0], []. reflexivity.
Defined.

Lemma stitchSegments_leaves_nothing_to_join_witness :
  ClipPlane.samePoint ClipPlane.defaultTolerance (Examples.vec 2 0 0)
    (Examples.vec 1 1 0) = false.
Proof.
  apply (stitchSegments_leaves_nothing_to_join Examples.branchSegments
           ClipPlane.defaultTolerance 0 1
           [Examples.vec 0 0 0; Examples.vec 1 0 0; Examples.vec 2 0 0]
           [Examples.vec 1 0 0; Examples.vec 1 1 0]).
  - lia.
  - rewrite branch_stitched. reflexivity.
  - rewrite branch_stitched. reflexivity.
  - right. reflexivity.
  - right. left. reflexivity.
Defined.

Lemma ridge_applied :
  exists st1, App.handleApply Examples.ridgeState = JS.Ok st1.
Proof. eexists. vm_compute. reflexivity. Qed.


Lemma apply_aligns_only_once_witness :
  App.clickApply Examples.alignedState = App.handleApply Examples.alignedState
  /\ forall st1,
       App.clickApply Examples.alignedState = JS.Ok st1 ->
       App.aligned st1 = Some true
       /\ App.tweens st1 = App.tweens Examples.alignedState
       /\ App.timers st1 = App.timers Examples.alignedState.
Proof.
  apply (apply_aligns_only_once Examples.alignedState). reflexivity.
Defined.

End Witnesses.

Section PointerWitnesses.
Local Open Scope R_scope.

Lemma length_unit_z : THREE.length (THREE.mkVector3 0 0 1) = 1.
Proof.
  unfold THREE.length. cbn [THREE.x THREE.y THREE.z].
  replace (0 * 0 + 0 * 0 + 1 * 1) with 1 by ring. apply sqrt_1.
Qed.

Lemma normalize_of_unit (v : THREE.Vector3 R) :
  THREE.length v = 1 -> THREE.normalize v = v.
Proof.
  intros H. unfold THREE.normalize. rewrite H.
  destruct (Req_dec_T 1 0) as [E|_]; [lra|].
  destruct v as [a b c]. cbn [THREE.x THREE.y THREE.z]. f_equal; field.
Qed.

Lemma length_negateR (v : THREE.Vector3 R) :
  THREE.length (THREE.negateR v) = THREE.length v.
Proof.
  unfold THREE.length, THREE.negateR. cbn [THREE.x THREE.y THREE.z].
  f_equal. ring.
Qed.

Lemma handlePointerDown_failure_locks_mesh_witness :
  GLBModel.selectedForPlane
    (fst (GLBModel.handlePointerDown (Some "plane1"%string) Examples.sheet
            Examples.click)) = Some "plane1"%string
  /\ JS.isOk
       (snd (GLBModel.handlePointerDown (Some "plane1"%string) Examples.sheet
               Examples.click)) = false
  /\ GLBModel.handlePointerDown (Some "plane2"%string)
       (fst (GLBModel.handlePointerDown (Some "plane1"%string) Examples.sheet
               Examples.click)) Examples.click
     = (fst (GLBModel.handlePointerDown (Some "plane1"%string) Examples.sheet
               Examples.click), JS.Ok None).
Proof.
  destruct (handlePointerDown_failure_locks_mesh "plane1" Examples.sheet
              Examples.click eq_refl eq_refl) as (H1 & _ & _ & H4 & H5).
  split; [exact H1|]. split; [|apply H5].
  apply (H4 (GLBModel.mkFace (THREE.mkVector3 0 0 1)) eq_refl).
  intros p0 p1 rest. discriminate.
Defined.

Lemma handlePointerDown_selects_midpoint_witness :
  exists selection,
    snd (GLBModel.handlePointerDown (Some "plane1"%string) Examples.slab
           Examples.click) = JS.Ok (Some selection)
    /\ GLBModel.plane selection = "plane1"%string
    /\ GLBModel.meshName selection = "mesh_0"%string
    /\ THREE.z (GLBModel.midPoint selection) = 0.
Proof.
  set (f := GLBModel.mkFace (THREE.mkVector3 0 0 1)).
  assert (Hwn : GLBModel.worldNormalOf Examples.slab f
                = THREE.mkVector3 0 0 1).
  { unfold GLBModel.worldNormalOf. cbn [Examples.slab
      GLBModel.applyNormalMatrix GLBModel.normal f].
    apply normalize_of_unit, length_unit_z. }
  assert (Hdir : THREE.normalize
                   (THREE.negateR (GLBModel.worldNormalOf Examples.slab f))
                 = THREE.negateR (GLBModel.worldNormalOf Examples.slab f)).
  { apply normalize_of_unit. rewrite length_negateR, Hwn.
    apply length_unit_z. }
  destruct (handlePointerDown_selects_midpoint "plane1" Examples.slab
              Examples.click f
              (THREE.mkIntersection 4
                 (THREE.addR
                    (THREE.addR (GLBModel.point Examples.click)
                       (THREE.multiplyScalarR
                          (GLBModel.worldNormalOf Examples.slab f) 5))
                    (THREE.multiplyScalarR
                       (THREE.normalize
                          (THREE.negateR
                             (GLBModel.worldNormalOf Examples.slab f))) 4)))
              (THREE.mkIntersection 6
                 (THREE.addR
                    (THREE.addR (GLBModel.point Examples.click)
                       (THREE.multiplyScalarR
                          (GLBModel.worldNormalOf Examples.slab f) 5))
                    (THREE.multiplyScalarR
                       (THREE.normalize
                          (THREE.negateR
                             (GLBModel.worldNormalOf Examples.slab f))) 6)))
              [] 2 eq_refl eq_refl eq_refl)
    as (sel & Hsel & Hp & Hm & _ & _ & _ & Hz).
  - cbn [Examples.slab GLBModel.applyNormalMatrix GLBModel.normal f].
    rewrite length_unit_z. lra.
  - reflexivity.
  - lra.
  - cbn [THREE.point]. rewrite Hdir.
    unfold THREE.addR, THREE.multiplyScalarR, THREE.negateR.
    cbn [THREE.x THREE.y THREE.z]. f_equal; ring.
  - exists sel. split; [exact Hsel|]. split; [exact Hp|].
    split; [exact Hm|]. rewrite Hz. cbn [THREE.point]. rewrite Hdir, Hwn.
    unfold THREE.addR, THREE.multiplyScalarR, THREE.negateR.
    cbn [THREE.x THREE.y THREE.z GLBModel.point Examples.click]. field.
Defined.

End PointerWitnesses.

Section CameraWitness.
Local Open Scope Q_scope.

Lemma handleModelLoaded_camera_witness :
  exists lookAt,
    App.handleModelLoaded true Examples.unitBox = Some lookAt
    /\ THREE.y (THREE.max Examples.unitBox) <= THREE.y (App.from lookAt).
Proof.
  destruct (proj2 (handleModelLoaded_camera Examples.unitBox))
    as (lookAt & H & _ & _ & _ & _ & Hy & _).
  exists lookAt. split; [exact H|]. apply Hy. reflexivity.
Defined.

End CameraWitness.

Section NoTolerance.

Context {Point : Type}.
Variable samePoint : Point -> Point -> bool.
Variable segments : list (ClipPlane.Segment Point).

Hypothesis never : forall a b, samePoint a b = false.

Lemma tryConnect_never (st : list Point * list bool * bool) (j : nat) :
  ClipPlane.tryConnect samePoint segments st j = st.
Proof.
  destruct st as [[pl used] ext]. unfold ClipPlane.tryConnect.
  destruct (nth j used false); [reflexivity|].
  destruct (nth_error segments j) as [s|]; [|reflexivity].
  assert (H : forall o a, ClipPlane.samePointAt samePoint o a = false).
  { intros [x|] a; [apply never|reflexivity]. }
  rewrite !H. reflexivity.
Qed.

Lemma extendLoop_never (fuel : nat) (pl : list Point) (used : list bool) :
  ClipPlane.extendLoop samePoint (S fuel) segments pl used = Some (pl, used).
Proof.
  cbn [ClipPlane.extendLoop]. unfold ClipPlane.scan.
  assert (E : forall js st,
            fold_left (ClipPlane.tryConnect samePoint segments) js st = st).
  { induction js as [|j js IH]; intros st; [reflexivity|].
    cbn [fold_left]. rewrite tryConnect_never. apply IH. }
  rewrite E. reflexivity.
Qed.

Lemma assign_repeat (k m : nat) :
  JS.assign (repeat true k ++ repeat false (S m)) k true
  = repeat true (S k) ++ repeat false m.
Proof.
  induction k as [|k IH]; [reflexivity|].
  cbn [repeat app JS.assign]. f_equal. exact IH.
Qed.

Lemma nth_repeat_app (k m : nat) :
  nth k (repeat true k ++ repeat false (S m)) false = false.
Proof. induction k as [|k IH]; [reflexivity|exact IH]. Qed.

Lemma seedPolyline_never (fuel m k : nat) (done : list (list Point)) :
  k + m = length segments ->
  fold_left (ClipPlane.seedPolyline samePoint (S fuel) segments) (seq k m)
    (Some (done, repeat true k ++ repeat false m))
  = Some (done
          ++ map (fun s => [ClipPlane.start s; ClipPlane.end_ s])
               (skipn k segments),
          repeat true (length segments)).
Proof.
  revert k done. induction m as [|m IH]; intros k done Hk.
  - cbn [seq fold_left repeat]. rewrite Nat.add_0_r in Hk. subst k.
    rewrite skipn_all, !app_nil_r. reflexivity.
  - cbn [seq fold_left]. unfold ClipPlane.seedPolyline at 2.
    rewrite nth_repeat_app.
    destruct (nth_error segments k) as [s|] eqn:Hs.
    + rewrite extendLoop_never, assign_repeat.
      rewrite (IH (S k)) by lia. rewrite <- app_assoc. cbn [app].
      f_equal. f_equal. f_equal.
      clear - Hs. revert k Hs.
      induction segments as [|h t IHt]; intros [|k] Hs; try discriminate.
      * injection Hs as ->. reflexivity.
      * cbn [skipn]. apply IHt. exact Hs.
    + apply nth_error_None in Hs. lia.
Qed.

Lemma stitchWith_never :
  ClipPlane.stitchWith samePoint segments
  = map (fun s => [ClipPlane.start s; ClipPlane.end_ s]) segments.
Proof.
  unfold ClipPlane.stitchWith, ClipPlane.stitchFuel, ClipPlane.stitchLoop.
  pose proof (seedPolyline_never (length segments) (length segments) 0 []
                eq_refl) as H.
  change (repeat true 0 ++ repeat false (length segments))
    with (repeat false (length segments)) in H.
  rewrite H. reflexivity.
Qed.

End NoTolerance.

(** Property X23 ([stitchSegments], a tolerance that is not positive).
    With a tolerance of zero or below no distance is smaller than the
    tolerance, so nothing is joined, not even segments with a common
    end: every segment becomes a polyline of its own two points, in the
    order of the input. *)
Theorem stitchSegments_without_tolerance
    (segments : list (ClipPlane.Segment ClipPlane.Point3)) (tolerance : Q) :
  (tolerance <= 0)%Q ->
  ClipPlane.stitchSegments segments tolerance
  = map (fun s => [ClipPlane.start s; ClipPlane.end_ s]) segments.
Proof.
  intros Ht. apply stitchWith_never. intros a b.
  unfold ClipPlane.samePoint, THREE.distanceToLt.
  apply andb_false_iff. left. apply Qltb_false. exact Ht.
Qed.

Lemma stitchSegments_without_tolerance_witness :
  ClipPlane.stitchSegments Examples.ringSegments 0
  = map (fun s => [ClipPlane.start s; ClipPlane.end_ s]) Examples.ringSegments.
Proof.
  apply (stitchSegments_without_tolerance Examples.ringSegments 0).
  discriminate.
Defined.

Section BackToBack.

(** Property X24 (the two phases of the rotation).  Phase 1 starts its
    tween on the scene when the effect runs, and the timer of one second
    starts the tween of Phase 2 on the group at the instant the tween of
    Phase 1 ends; no timer is left pending. *)
Theorem phases_run_back_to_back (st : App.State) (r0 r1 : App.Ref)
    (rest : list App.Ref) (p0 p1 : THREE.Vector3 R) :
  App.points st = Some (r0 :: r1 :: rest) ->
  App.aligned st = Some true ->
  App.timers st = [] ->
  r0 <> r1 ->
  nth_error (App.heap st) r0 = Some p0 ->
  nth_error (App.heap st) r1 = Some p1 ->
  exists st2 phase1 phase2,
    App.alignThenPhase2 st = JS.Ok st2
    /\ App.tweens st2 = App.tweens st ++ [phase1; phase2]
    /\ App.target phase1 = App.GlbScene
    /\ App.target phase2 = App.Group
    /\ App.startedAt phase1 = App.now st
    /\ App.startedAt phase2
       = Utils.tweenEnd (App.startedAt phase1) (App.vars phase1)
    /\ App.timers st2 = [].
Proof.
  intros Hpts Hal Htm Hne H0 H1.
  destruct (alignThenPhase2_tweens st r0 r1 rest p0 p1 Hpts Hal Htm Hne H0 H1)
    as (st2 & Hrun & Htw & _).
  exists st2. eexists. eexists.
  split; [exact Hrun|]. split; [exact Htw|].
  cbn [App.target App.startedAt App.vars].
  split; [reflexivity|]. split; [reflexivity|]. split; [reflexivity|].
  split; [unfold Utils.tweenEnd; cbn [Utils.duration]; lia|].
  revert Hrun. unfold App.alignThenPhase2, App.alignEffect.
  rewrite Hpts, Hal.
  rewrite (deref_ok st _ 0 r0 p0), (deref_ok st _ 1%nat r1 p1)
    by (first [reflexivity | assumption]).
  cbn [JS.bind]. rewrite exec_animateRotation_x.
  rewrite (runCallback_ok _ r0 r1 rest p0 p1) by assumption.
  cbn [JS.bind]. unfold App.fireTimer.
  cbn [App.timers App.setTimeout App.setPoints App.setHeap App.logInvoke
       App.addTween].
  rewrite Htm. cbn [app]. unfold App.runTimer.
  destruct (App.deref _ _ 0) as [q0|]; [|discriminate].
  destruct (App.deref _ _ 1) as [q1|]; [|discriminate].
  cbn [JS.bind]. rewrite exec_animateRotation_z.
  intros [= <-]. reflexivity.
Qed.

Lemma phases_run_back_to_back_witness :
  exists st2 phase1 phase2,
    App.alignThenPhase2
      (App.landmarkState (THREE.mkVector3 1%R 0%R 0%R)
         (THREE.mkVector3 0%R 1%R 0%R)) = JS.Ok st2
    /\ App.tweens st2 = [phase1; phase2]
    /\ App.target phase1 = App.GlbScene
    /\ App.target phase2 = App.Group
    /\ App.startedAt phase1 = 0%Z
    /\ App.startedAt phase2
       = Utils.tweenEnd (App.startedAt phase1) (App.vars phase1)
    /\ App.timers st2 = [].
Proof.
  apply (phases_run_back_to_back
           (App.landmarkState (THREE.mkVector3 1%R 0%R 0%R)
              (THREE.mkVector3 0%R 1%R 0%R))
           0%nat 1%nat [] (THREE.mkVector3 1%R 0%R 0%R)
           (THREE.mkVector3 0%R 1%R 0%R));
    first [reflexivity | discriminate].
Defined.

End BackToBack.

Section Selections.

(** The active plane is one whose selection is still to be made. *)
Let Armed (st : App.State) : Prop :=
  forall p, App.activePlane st = Some p ->
    (p = "plane1"%string /\ App.plane1 st = None)
    \/ (p = "plane2"%string /\ App.plane2 st = None).

Lemma applyAxisAngleAt_keeps (st st' : App.State) pts i axis angle :
  App.applyAxisAngleAt st pts i axis angle = JS.Ok st' ->
  App.plane1 st' = App.plane1 st /\ App.plane2 st' = App.plane2 st
  /\ App.activePlane st' = App.activePlane st.
Proof.
  unfold App.applyAxisAngleAt.
  destruct (nth_error pts i) as [r|]; [|discriminate].
  destruct (nth_error (App.heap st) r) as [v|]; [|discriminate].
  intros [= <-]. auto.
Qed.

Lemma alignEffect_keeps (st st' : App.State) :
  App.alignEffect st = JS.Ok st' ->
  App.plane1 st' = App.plane1 st /\ App.plane2 st' = App.plane2 st
  /\ App.activePlane st' = App.activePlane st.
Proof.
  unfold App.alignEffect.
  destruct (App.points st) as [pts|]; [|intros [= <-]; auto].
  destruct (App.aligned st) as [[|]|]; try (intros [= <-]; auto).
  destruct (App.deref st pts 0) as [p0|]; [|discriminate].
  destruct (App.deref st pts 1) as [p1|]; [|discriminate].
  cbn [JS.bind]. rewrite exec_animateRotation_x. unfold App.runCallback.
  destruct (App.applyAxisAngleAt _ pts 0 _ _) as [st1|] eqn:E1;
    [|discriminate].
  cbn [JS.bind].
  destruct (App.applyAxisAngleAt st1 pts 1 _ _) as [st2|] eqn:E2;
    [|discriminate].
  cbn [JS.bind]. intros [= <-].
  apply applyAxisAngleAt_keeps in E1 as (A1 & A2 & A3).
  apply applyAxisAngleAt_keeps in E2 as (B1 & B2 & B3).
  cbn [App.plane1 App.plane2 App.activePlane App.setTimeout App.setPoints].
  rewrite B1, B2, B3, A1, A2, A3. auto.
Qed.

Lemma handleApply_keeps (st st' : App.State) :
  App.handleApply st = JS.Ok st' ->
  App.plane1 st' = App.plane1 st /\ App.plane2 st' = App.plane2 st
  /\ App.activePlane st' = None.
Proof.
  unfold App.handleApply.
  cbn [App.plane1 App.plane2 App.setActivePlane App.getObjectByName].
  destruct (App.plane1 st) as [sel1|] eqn:E1;
    [|intros [= <-]; cbn; rewrite E1; auto].
  destruct (App.plane2 st) as [sel2|] eqn:E2;
    [|intros [= <-]; cbn; rewrite E1, E2; auto].
  destruct (App.contourOf _ _) as [shape|]; [|discriminate].
  cbn [JS.bind].
  destruct (ClipPlane.getContourPlaneIntersection shape _) as [point|];
    [|discriminate].
  cbn [JS.bind].
  destruct (length point =? 0).
  - destruct (App.contourOf _ _) as [shape2|]; [|discriminate].
    cbn [JS.bind].
    destruct (ClipPlane.getContourPlaneIntersection shape2 _) as [point2|];
      [|discriminate].
    cbn [JS.bind]. intros [= <-]. cbn. rewrite E1, E2. auto.
  - intros [= <-]. cbn. rewrite E1, E2. auto.
Qed.

Lemma clickApply_keeps (st st' : App.State) :
  App.clickApply st = JS.Ok st' ->
  App.plane1 st' = App.plane1 st /\ App.plane2 st' = App.plane2 st
  /\ App.activePlane st' = None.
Proof.
  unfold App.clickApply.
  destruct (App.handleApply st) as [st1|] eqn:E; [|discriminate].
  cbn [JS.bind]. apply handleApply_keeps in E as (A1 & A2 & A3).
  unfold App.afterRender.
  destruct (App.sameAligned _ _); [intros [= <-]; auto|].
  intros H. apply alignEffect_keeps in H as (B1 & B2 & B3).
  rewrite B1, B2, B3. auto.
Qed.

(** One event keeps the selections that are made, and keeps the active
    plane among those still to be made. *)
Lemma step_keeps (st st' : App.State) (ev : App.Event) :
  Armed st -> App.step st ev = JS.Ok st' ->
  Armed st'
  /\ (forall sel, App.plane1 st = Some sel -> App.plane1 st' = Some sel)
  /\ (forall sel, App.plane2 st = Some sel -> App.plane2 st' = Some sel).
Proof.
  intros HA. destruct ev as [| | |m n c|]; cbn [App.step].
  - intros [= <-]. unfold App.handleSelectPlane1.
    destruct (App.plane1 st) as [s1|] eqn:E; [cbn iota; split; [exact HA|split; intros sel Hs; congruence]|].
    split; [|split; intros sel Hs; cbn; congruence].
    intros q Hq. cbn in Hq. injection Hq as <-. left. cbn. auto.
  - intros [= <-]. unfold App.handleSelectPlane2.
    destruct (App.plane2 st) as [s2|] eqn:E; [cbn iota; split; [exact HA|split; intros sel Hs; congruence]|].
    split; [|split; intros sel Hs; cbn; congruence].
    intros q Hq. cbn in Hq. injection Hq as <-. right. cbn. auto.
  - intros H. apply clickApply_keeps in H as (A1 & A2 & A3).
    split; [intros q Hq; congruence|]. rewrite A1, A2. auto.
  - destruct (App.activePlane st) as [p|] eqn:E; intros [= <-]; [|auto].
    split; [intros q Hq; discriminate|].
    unfold App.handleMeshSelect.
    destruct (HA p E) as [[-> H1]|[-> H2]].
    + cbn. split; [intros sel Hs; congruence|auto].
    + cbn. split; [auto|intros sel Hs; congruence].
  - intros [= <-]. split; [intros q Hq; discriminate|auto].
Qed.

Lemma run_keeps (events : list App.Event) (st st' : App.State) :
  Armed st -> App.run st events = JS.Ok st' ->
  Armed st'
  /\ (forall sel, App.plane1 st = Some sel -> App.plane1 st' = Some sel)
  /\ (forall sel, App.plane2 st = Some sel -> App.plane2 st' = Some sel).
Proof.
  revert st. induction events as [|ev rest IH]; intros st HA H.
  - cbn in H. injection H as <-. auto.
  - cbn [App.run] in H.
    destruct (App.step st ev) as [st1|] eqn:E; [|discriminate].
    cbn [JS.bind] in H.
    destruct (step_keeps st st1 ev HA E) as (HA1 & K1 & K2).
    destruct (IH st1 HA1 H) as (HA' & L1 & L2). auto.
Qed.

(** Property X25 (a selection is made once).  From a state with no
    active plane, through any events that do not throw: a plane that has
    a selection keeps that selection through every later click on the
    three buttons and every later pointer-down, on a mesh or beside the
    model. *)
Theorem selection_is_made_once (st0 st1 st2 : App.State)
    (before after : list App.Event) :
  App.activePlane st0 = None ->
  App.run st0 before = JS.Ok st1 ->
  App.run st1 after = JS.Ok st2 ->
  (forall sel, App.plane1 st1 = Some sel -> App.plane1 st2 = Some sel)
  /\ (forall sel, App.plane2 st1 = Some sel -> App.plane2 st2 = Some sel).
Proof.
  intros H0 H1 H2.
  assert (HA0 : Armed st0) by (intros p Hp; congruence).
  destruct (run_keeps before st0 st1 HA0 H1) as (HA1 & _).
  destruct (run_keeps after st1 st2 HA1 H2) as (_ & K). exact K.
Qed.

Lemma selection_is_made_once_witness :
  exists st1 st2,
    App.run (App.landmarkState (THREE.mkVector3 0%R 0%R 0%R)
               (THREE.mkVector3 0%R 0%R 0%R))
      [App.ClickSelectPlane1;
       App.PickMesh "mesh_0" (Examples.vec 0 0 1) (Examples.vec 0 0 0)]
    = JS.Ok st1
    /\ App.run st1
         [App.ClickSelectPlane1;
          App.PickMesh "mesh_1" (Examples.vec 1 0 0) (Examples.vec 10 0 0)]
       = JS.Ok st2
    /\ App.plane1 st1 = Some Examples.selection1
    /\ App.plane1 st2 = Some Examples.selection1.
Proof.
  eexists. eexists. split; [reflexivity|]. split; [reflexivity|].
  split; [reflexivity|].
  apply (proj1 (selection_is_made_once
                  (App.landmarkState (THREE.mkVector3 0%R 0%R 0%R)
                     (THREE.mkVector3 0%R 0%R 0%R)) _ _
                  [App.ClickSelectPlane1;
                   App.PickMesh "mesh_0" (Examples.vec 0 0 1)
                     (Examples.vec 0 0 0)]
                  [App.ClickSelectPlane1;
                   App.PickMesh "mesh_1" (Examples.vec 1 0 0)
                     (Examples.vec 10 0 0)]
                  eq_refl eq_refl eq_refl)).
  reflexivity.
Defined.

End Selections.

Section OnContour.
Local Open Scope Q_scope.

(** Property X26 ([getContourPlaneIntersection], where the points
    are).  Every returned point lies on the plane and on the segment
    between two consecutive points of the contour, between its ends. *)
Theorem intersections_on_contour_edges (plane : THREE.Plane)
    (contourPoints intersections : list ClipPlane.Point3)
    (q : ClipPlane.Point3) :
  ClipPlane.getContourPlaneIntersection (Some contourPoints) plane
  = JS.Ok intersections ->
  In q intersections ->
  exists s e,
    ClipPlane.adjacent contourPoints s e
    /\ ClipPlane.onEdge s e q
    /\ THREE.distanceToPoint plane q == 0.
Proof.
  intros H Hq. cbn [ClipPlane.getContourPlaneIntersection] in H.
  injection H as <-. rewrite crossEdge_fold in Hq. cbn [app] in Hq.
  unfold ClipPlane.crossings in Hq. apply in_flat_map in Hq as ([s e] & He & Hq).
  cbn [fst snd] in Hq.
  destruct (ClipPlane.straddles plane s e) eqn:Hs; [|destruct Hq].
  destruct Hq as [<-|[]].
  destruct (intersectLine_crossingPoint plane s e Hs) as [Hi Hd].
  exists s, e. split; [|split; [|exact Hd]].
  - clear - He. unfold ClipPlane.edges in He.
    induction contourPoints as [|a l IH]; [destruct He|].
    destruct l as [|b l']; [destruct He|].
    cbn [tl combine] in He. destruct He as [[= <- <-]|He].
    + exists [], l'. reflexivity.
    + destruct (IH He) as (l1 & l2 & E). exists (a :: l1), l2.
      rewrite E. reflexivity.
  - apply (intersectLine_Some plane s e _ Hi).
Qed.

Lemma intersections_on_contour_edges_witness :
  exists s e,
    ClipPlane.adjacent Examples.squareContour s e
    /\ ClipPlane.onEdge s e (Examples.vec (0 # 2) (2 # 2) (0 # 2))
    /\ THREE.distanceToPoint Examples.planeX0
         (Examples.vec (0 # 2) (2 # 2) (0 # 2)) == 0.
Proof.
  apply (intersections_on_contour_edges Examples.planeX0
           Examples.squareContour
           [Examples.vec (0 # 2) (2 # 2) (0 # 2);
            Examples.vec (0 # 2) (-2 # 2) (0 # 2)]).
  - vm_compute. reflexivity.
  - left. reflexivity.
Defined.

End OnContour.
